(** * tinytar: the USTAR archive engine of CPM-tools

    A shallow embedding of [tools/tinytar.c] (version 20250512, the Linux
    build: neither [CPM] nor [__Z88DK] is defined) together with the two
    helpers of the earlier revision 20250502 that differ from it
    ([octal_to_int32] and the [uint32_t] flavour of [find_append_position],
    in [Module Legacy]).

    Conventions of the embedding:
    - a byte is a [Byte.byte]; its numeric value is [b2z];
    - [long] is a 64-bit two's complement integer, [unsigned int] and
      [uint32_t] are 32-bit; values are in [Z], wrap-around is explicit;
    - a [FILE *] is the file's bytes plus a position;  the global [record]
      buffer is threaded through every function that touches it;
    - loops that the C code runs until a condition fails take a fuel
      argument and return [None] when it is exhausted; the entry points
      supply a fuel that is proved sufficient. *)

From Stdlib Require Import Strings.String Strings.Byte.
From Stdlib Require Import ZArith List Lia Bool DecimalString.
Import ListNotations.
Open Scope Z_scope.

(* ------------------------------------------------------------------ *)
(** ** Bytes and C integers *)

Definition b2z (b : byte) : Z := Z.of_N (Byte.to_N b).

Definition z2b (z : Z) : byte :=
  match Byte.of_N (Z.to_N (z mod 256)) with
  | Some b => b
  | None => x00
  end.

(** A string literal of the C source, without its terminating NUL. *)
Definition lit (s : string) : list byte := list_byte_of_string s.

Definition zlen {A : Type} (l : list A) : Z := Z.of_nat (length l).

(** [long] on the Linux build: 64 bits, two's complement. *)
Definition wrap_long (z : Z) : Z := (z + 2 ^ 63) mod 2 ^ 64 - 2 ^ 63.

(** [int32_t]. *)
Definition wrap_int32 (z : Z) : Z := (z + 2 ^ 31) mod 2 ^ 32 - 2 ^ 31.

(** [unsigned int] and [uint32_t]. *)
Definition wrap_uint32 (z : Z) : Z := z mod 2 ^ 32.

(** [unsigned long], the type [%lo] prints. *)
Definition wrap_ulong (z : Z) : Z := z mod 2 ^ 64.

Definition RECORD_SIZE : Z := 512.
Definition NAME_SIZE : Z := 101.

Definition is_octal_digit (c : byte) : bool :=
  (b2z "0"%byte <=? b2z c) && (b2z c <=? b2z "7"%byte).

(** [isprint] in the C locale. *)
Definition isprint (c : byte) : bool := (32 <=? b2z c) && (b2z c <=? 126).

(* ------------------------------------------------------------------ *)
(** ** Octal field codec *)

(** [long octal_to_long( const char *str, int len )]: the loop runs [len]
    times; [str] is the memory from the pointer on (the end of the list is
    the end of the enclosing array). *)
Fixpoint octal_to_long_from (value : Z) (str : list byte) (len : nat) : Z :=
  match len, str with
  | S len', c :: str' =>
      octal_to_long_from
        (if is_octal_digit c
         then wrap_long (Z.shiftl value 3 + (b2z c - b2z "0"%byte))
         else value)
        str' len'
  | _, _ => value
  end.

Definition octal_to_long (str : list byte) (len : nat) : Z :=
  octal_to_long_from 0 str len.

(** The spec's reading of the decoder ([decode(bytes, len)], section 4.1):
    accumulate over octal digits and stop at the first byte that is not
    one, or at [len]. *)
Fixpoint decode_spec_from (value : Z) (bytes : list byte) (len : nat) : Z :=
  match len, bytes with
  | S len', c :: bytes' =>
      if is_octal_digit c
      then decode_spec_from (value * 8 + (b2z c - b2z "0"%byte)) bytes' len'
      else value
  | _, _ => value
  end.

Definition decode_spec (bytes : list byte) (len : nat) : Z :=
  decode_spec_from 0 bytes len.

(** Where the spec's decoder stops: the leading run of octal digits. *)
Fixpoint leading_digits (bytes : list byte) : list byte :=
  match bytes with
  | c :: bytes' => if is_octal_digit c then c :: leading_digits bytes' else []
  | [] => []
  end.

(** The accumulation step on its own, over bytes already known to be
    digits: [value = value*8 + digit]. *)
Definition octal_value (value : Z) (digits : list byte) : Z :=
  fold_left (fun v c => v * 8 + (b2z c - b2z "0"%byte)) digits value.

(** [k] octal digits of [n], most significant first. *)
Fixpoint oct_digits (k : nat) (n : Z) : list byte :=
  match k with
  | O => []
  | S k' => oct_digits k' (n / 8) ++ [z2b (b2z "0"%byte + n mod 8)]
  end.

(** Number of octal digits [printf] needs for [n >= 0] (one for zero). *)
Definition oct_width (n : Z) : nat := Z.to_nat (Z.log2 n / 3 + 1).

(** The conversion ["%0<width>o"] of a non-negative value: zero-padded to
    [width], longer when the value needs more digits. *)
Definition printf_o (width : nat) (n : Z) : list byte :=
  oct_digits (Nat.max width (oct_width n)) n.

(** [void long_to_octal( char *out, size_t size, long val )]:
    [snprintf] keeps the first [size-1] characters of ["%0*lo"] and writes
    a NUL; [out[size-1] = 0] follows.  The result is the [size] bytes
    stored at [out]. *)
Definition long_to_octal (size : nat) (val : Z) : list byte :=
  firstn (size - 1) (printf_o (size - 1) (wrap_ulong val)) ++ [x00].

(* ------------------------------------------------------------------ *)
(** ** stdio streams *)

(** An open [FILE *]: the bytes of the file and the position indicator. *)
Record FILE := mkFILE { f_data : list byte; f_pos : Z }.

Definition ftell (fp : FILE) : Z := f_pos fp.

(** [fseek( fp, off, SEEK_CUR )]; a seek to a negative offset fails and
    leaves the position where it was. *)
Definition fseek_cur (fp : FILE) (off : Z) : FILE :=
  if f_pos fp + off <? 0 then fp else mkFILE (f_data fp) (f_pos fp + off).

(** [fseek( fp, pos, SEEK_SET )]. *)
Definition fseek_set (fp : FILE) (pos : Z) : FILE :=
  if pos <? 0 then fp else mkFILE (f_data fp) pos.

(** [n = fread( record, 1, RECORD_SIZE, fp )]: the bytes available at the
    position (at most 512) replace the front of [record], the rest of the
    buffer keeps what it held, the position advances by [n]. *)
Definition fread (rec : list byte) (fp : FILE) : Z * list byte * FILE :=
  let got := firstn 512 (skipn (Z.to_nat (f_pos fp)) (f_data fp)) in
  (zlen got, got ++ skipn (length got) rec,
   mkFILE (f_data fp) (f_pos fp + zlen got)).

(** [fwrite( buf, 1, length buf, fp )]: overwrites from the position on and
    extends the file; a gap left by a seek past the end reads as zeros. *)
Definition fwrite (buf : list byte) (fp : FILE) : FILE :=
  let p := Z.to_nat (f_pos fp) in
  let d := f_data fp in
  mkFILE (firstn p d ++ repeat x00 (p - length d) ++ buf
            ++ skipn (p + length buf) d)
         (f_pos fp + zlen buf).

(** [memset( record + n, 0, RECORD_SIZE - n )]. *)
Definition memset_tail (rec : list byte) (n : Z) : list byte :=
  firstn (Z.to_nat n) rec ++ repeat x00 (512 - Z.to_nat n).

(** Lines written with [printf]/[fprintf] (without the newline) and
    [perror] calls, whose text after the prefix is the platform's. *)
Inductive message : Type :=
| Printed (line : list byte)
| PError (prefix : list byte).

(* ------------------------------------------------------------------ *)
(** ** Header record *)

(** [int is_block_empty( const unsigned char *block )]. *)
Definition is_block_empty (block : list byte) : bool :=
  forallb (fun b => b2z b =? 0) (firstn 512 block).

(** [int is_valid_tar_header( const unsigned char *header )]: [strncmp]
    of the five bytes at offset 257 with "ustar". *)
Definition is_valid_tar_header (header : list byte) : bool :=
  if list_eq_dec Byte.byte_eq_dec (firstn 5 (skipn 257 header)) (lit "ustar")
  then true else false.

(** The bytes of a C string: up to the first NUL. *)
Fixpoint c_str (s : list byte) : list byte :=
  match s with
  | [] => []
  | c :: s' => if b2z c =? 0 then [] else c :: c_str s'
  end.

(** [strncpy( dst, src, n )]: the [n] bytes stored at [dst]. *)
Definition strncpy (n : nat) (src : list byte) : list byte :=
  let s := firstn n (c_str src) in
  s ++ repeat x00 (n - length s).

(** Storing [src] at byte offset [off] of a struct or array. *)
Definition store (off : nat) (src : list byte) (dst : list byte) : list byte :=
  firstn off dst ++ src ++ skipn (off + length src) dst.

(** The [n] bytes at offset [off]: a field of the struct, or what a
    pointer into [record] lets the reader see. *)
Definition field (off n : nat) (buf : list byte) : list byte :=
  firstn n (skipn off buf).

(** The checksum loop of [write_tar_header]: an [unsigned int] sum. *)
Definition sum_bytes (l : list byte) : Z :=
  fold_left (fun checksum b => wrap_uint32 (checksum + b2z b)) l 0.

(** The [struct tar_header] that [write_tar_header] builds, before the
    checksum is printed into it.  Offsets: name 0, mode 100, uid 108,
    gid 116, size 124, mtime 136, chksum 148, typeflag 156, magic 257,
    uname 265, gname 297. *)
Definition tar_header_blank (filename : list byte) (filesize mtime : Z)
  : list byte :=
  let header := repeat x00 512 in
  let header := store 0 (strncpy 100 filename) header in
  let header := store 100 (long_to_octal 8 (6 * 64 + 4 * 8 + 4)) header in
  let header := store 108 (long_to_octal 8 1000) header in
  let header := store 116 (long_to_octal 8 1000) header in
  let header := store 124 (long_to_octal 12 filesize) header in
  let header := store 136 (long_to_octal 12 mtime) header in
  let header := store 148 (repeat " "%byte 8) header in
  let header := store 156 ["0"%byte] header in
  let header := store 257 (strncpy 8 (lit "ustar  ")) header in
  let header := store 265 (strncpy 32 (lit "user")) header in
  let header := store 297 (strncpy 32 (lit "group")) header in
  header.

(** The struct once [sprintf( header.chksum, "%06o", checksum )] and the
    two byte stores after it are done. *)
Definition tar_header (filename : list byte) (filesize mtime : Z)
  : list byte :=
  let header := tar_header_blank filename filesize mtime in
  let checksum := sum_bytes header in
  let header := store 148 (printf_o 6 checksum ++ [x00]) header in
  let header := store 154 [x00] header in
  let header := store 155 [" "%byte] header in
  header.

(** [void write_tar_header( FILE *out, const char *filename,
                            long filesize, long mtime )]. *)
Definition write_tar_header (out : FILE) (filename : list byte)
    (filesize mtime : Z) : FILE :=
  fwrite (firstn 512 (tar_header filename filesize mtime)) out.

(** The sum of the values of the bytes, as a number: what the spec calls
    the unsigned sum of the raw bytes.  It does not go through the loop of
    the writer. *)
Definition byte_sum (l : list byte) : Z := fold_right Z.add 0 (map b2z l).

(** The spec's [compute_checksum]: the sum of the 512 header bytes with
    the checksum field (offset 148, 8 bytes) read as spaces. *)
Definition compute_checksum (header : list byte) : Z :=
  byte_sum (store 148 (repeat " "%byte 8) (firstn 512 header)).

Definition chksum_field (header : list byte) : list byte :=
  field 148 8 header.

(** [( ( filesize + 511 ) / 512 ) * 512] in [long] arithmetic, the padded
    length used by the three readers. *)
Definition padded_size (filesize : Z) : Z :=
  wrap_long (Z.quot (wrap_long (filesize + RECORD_SIZE - 1)) RECORD_SIZE
             * RECORD_SIZE).

(* ------------------------------------------------------------------ *)
(** ** Archive writer *)

(** [void write_file_content( FILE *out, FILE *in, long filesize )].
    [remaining] stays between [-511] and [filesize]. *)
Fixpoint write_file_content (fuel : nat) (rec : list byte) (out inp : FILE)
    (remaining : Z) : option (list byte * FILE * FILE) :=
  if remaining >? 0 then
    match fuel with
    | O => None
    | S fuel' =>
        let '(n, rec, inp) := fread rec inp in
        let rec := if n <? RECORD_SIZE then memset_tail rec n else rec in
        let out := fwrite (firstn 512 rec) out in
        write_file_content fuel' rec out inp (remaining - n)
    end
  else Some (rec, out, inp).

(** What [fopen] and [stat] see of a source path. *)
Record inode := mkInode { st_reg : bool; st_mtime : Z; st_data : list byte }.

Definition filesystem := list byte -> option inode.

(** [long get_file_size( FILE *f )]. *)
Definition get_file_size (f : FILE) : Z := zlen (f_data f).

(** The state of a create or append run: the global [record], the
    archive stream, and what went to [stderr]. *)
Record writer := mkWriter
  { w_record : list byte; w_tar : FILE; w_err : list message }.

Definition dec (z : Z) : list byte := lit (NilZero.string_of_int (Z.to_int z)).

(** [void write_file( char *filename, FILE *tar )]. *)
Definition write_file (fs : filesystem) (filename : list byte) (w : writer)
  : option writer :=
  match fs filename with
  | None => Some (mkWriter (w_record w) (w_tar w)
                           (w_err w ++ [PError filename]))
  | Some st =>
      if negb (st_reg st) then
        Some (mkWriter (w_record w) (w_tar w)
                (w_err w ++ [Printed (lit "Skipping: " ++ filename
                                        ++ lit " (not a regular file)")]))
      else
        let inp := mkFILE (st_data st) 0 in
        let mtime := st_mtime st in
        let filesize := get_file_size inp in
        let err := w_err w ++ [Printed (filename ++ lit " (" ++ dec filesize
                                          ++ lit ")")] in
        let tar := write_tar_header (w_tar w) filename filesize mtime in
        match write_file_content (S (Z.to_nat filesize)) (w_record w) tar
                inp filesize with
        | None => None
        | Some (rec, tar, _) => Some (mkWriter rec tar err)
        end
  end.

(** The loop [for ( i = 3; i < argc; ++i ) write_file( argv[ i ], tar )]. *)
Fixpoint write_files (fs : filesystem) (names : list (list byte)) (w : writer)
  : option writer :=
  match names with
  | [] => Some w
  | filename :: names' =>
      match write_file fs filename w with
      | None => None
      | Some w' => write_files fs names' w'
      end
  end.

(** The tail of [mode_create_append]: two zero blocks. *)
Definition write_terminator (w : writer) : writer :=
  let rec := repeat x00 512 in
  mkWriter rec (fwrite rec (fwrite rec (w_tar w))) (w_err w).

(* ------------------------------------------------------------------ *)
(** ** Append engine *)

(** One pass through the body of the [while] loop of
    [find_append_position] either goes round again or returns. *)
Inductive scan_out : Type :=
| Continue (rec : list byte) (fp : FILE)
| Return (pos : Z).

(** The part of the loop body below the empty-block test: magic check,
    size decoding, content skip.  Both branches of the test reach it with
    whatever [record] and file position they left. *)
Definition scan_header (rec : list byte) (fp : FILE) : scan_out :=
  if negb (is_valid_tar_header rec) then Return (-1)
  else
    let filesize := octal_to_long (skipn 124 rec) 12 in
    let skip := padded_size filesize in
    Continue rec (fseek_cur fp skip).

(** The loop condition and body. *)
Definition scan_iter (rec : list byte) (fp : FILE) : scan_out :=
  let '(n, rec, fp) := fread rec fp in
  if n =? RECORD_SIZE then
    if is_block_empty rec then
      let zpos := ftell fp - RECORD_SIZE in
      let '(n2, rec, fp) := fread rec fp in
      if (n2 =? RECORD_SIZE) && is_block_empty rec then Return zpos
      else scan_header rec (fseek_cur fp (- RECORD_SIZE))
    else scan_header rec fp
  else Return (ftell fp).

Fixpoint scan_loop (fuel : nat) (rec : list byte) (fp : FILE) : option Z :=
  match fuel with
  | O => None
  | S fuel' =>
      match scan_iter rec fp with
      | Return pos => Some pos
      | Continue rec' fp' => scan_loop fuel' rec' fp'
      end
  end.

(** [long find_append_position( FILE *fp )], with [record] as it is on
    entry.  Every pass moves the position forward, so one pass per byte
    of the file (and one more) is enough. *)
Definition find_append_position (rec : list byte) (fp : FILE) : option Z :=
  scan_loop (S (length (f_data fp))) rec (fseek_set fp 0).

(** The state of the scan when the loop condition is evaluated for the
    [k]+1st time, if the loop gets that far. *)
Fixpoint scan_state_after (k : nat) (rec : list byte) (fp : FILE)
  : option (list byte * FILE) :=
  match k with
  | O => Some (rec, fp)
  | S k' =>
      match scan_iter rec fp with
      | Return _ => None
      | Continue rec' fp' => scan_state_after k' rec' fp'
      end
  end.

(** The whole 512-byte blocks one pass of the loop reads into [record]:
    the one of the loop condition and, behind an empty one, the next. *)
Definition blocks_read (rec : list byte) (fp : FILE) : list (list byte) :=
  let '(n, rec, fp) := fread rec fp in
  if n =? RECORD_SIZE then
    rec :: (if is_block_empty rec then
              let '(n2, rec2, _) := fread rec fp in
              if n2 =? RECORD_SIZE then [rec2] else []
            else [])
  else [].

(* ------------------------------------------------------------------ *)
(** ** The modes *)

(** What a run is given: the source files by path, the archive named on
    the command line ([None] when [fopen] cannot open it for reading or
    updating), and which paths [fopen( path, "wb" )] can create.  The
    archive is kept apart from the source and output paths. *)
Record world := mkWorld
  { sources : filesystem;
    archive_file : option (list byte);
    creatable : list byte -> bool }.

(** How a mode ends: by returning to [main] or through [exit]. *)
Inductive control : Type :=
| Returned
| Exited (code : Z).

(** What a run leaves behind: the archive file, [stdout], [stderr], and
    the files written by extraction in the order they were opened. *)
Record outcome := mkOutcome
  { ctl : control;
    arch : option (list byte);
    out : list message;
    err : list message;
    extracted : list (list byte * list byte) }.

(** [void mode_create_append( int append, int argc, char *argv[] )];
    [rec] is the global [record] on entry. *)
Definition mode_create_append (append : bool) (rec : list byte) (w : world)
    (argv : list (list byte)) : option outcome :=
  let finish (tar : FILE) :=
    match write_files (sources w) (skipn 3 argv) (mkWriter rec tar []) with
    | None => None
    | Some wr =>
        let wr := write_terminator wr in
        Some (mkOutcome Returned (Some (f_data (w_tar wr))) [] (w_err wr) [])
    end in
  if append then
    match archive_file w with
    | None =>
        Some (mkOutcome (Exited 1) None []
                [PError (lit "Cannot open archive")] [])
    | Some d =>
        let tar := mkFILE d 0 in
        match find_append_position rec tar with
        | None => None
        | Some append_pos =>
            if append_pos <? 0 then
              Some (mkOutcome (Exited 1) (Some d) []
                      [Printed (lit "Invalid or corrupt TAR archive")] [])
            else finish (fseek_set tar append_pos)
        end
    end
  else
    if creatable w (nth 2 argv []) then finish (mkFILE [] 0)
    else
      Some (mkOutcome (Exited 1) (archive_file w) []
              [PError (lit "Cannot create archive")] []).

(** The name loop of the readers: at most [NAME_SIZE - 1] bytes, up to
    the first NUL, anything unprintable replaced by a question mark. *)
Fixpoint entry_name_from (rec : list byte) (n : nat) : list byte :=
  match n, rec with
  | S n', c :: rec' =>
      if b2z c =? 0 then []
      else (if isprint c then c else "?"%byte) :: entry_name_from rec' n'
  | _, _ => []
  end.

Definition entry_name (rec : list byte) : list byte :=
  entry_name_from rec (Z.to_nat (NAME_SIZE - 1)).

Definition invalid_format : message :=
  Printed (lit "Invalid TAR format: missing ustar magic.").

(** The [while] loop of [mode_list]: the lines printed and the
    diagnostics. *)
Fixpoint list_loop (fuel : nat) (rec : list byte) (fp : FILE)
    (out err : list message) : option (list message * list message) :=
  match fuel with
  | O => None
  | S fuel' =>
      let '(n, rec, fp) := fread rec fp in
      if n =? RECORD_SIZE then
        if is_block_empty rec then Some (out, err)
        else if negb (is_valid_tar_header rec) then
          Some (out, err ++ [invalid_format])
        else
          let filename := entry_name rec in
          let filesize := octal_to_long (skipn 124 rec) 12 in
          let out := out ++ [Printed (filename ++ lit " (" ++ dec filesize
                                        ++ lit " bytes)")] in
          list_loop fuel' rec (fseek_cur fp (padded_size filesize)) out err
      else Some (out, err)
  end.

(** [void mode_list( const char *tarfile )]. *)
Definition mode_list (rec : list byte) (w : world) : option outcome :=
  match archive_file w with
  | None =>
      Some (mkOutcome (Exited 1) None [] [PError (lit "open")] [])
  | Some d =>
      match list_loop (S (length d)) rec (mkFILE d 0) [] [] with
      | None => None
      | Some (o, e) => Some (mkOutcome Returned (Some d) o e [])
      end
  end.

(** The inner loop of [mode_extract]: each pass reads a block and writes
    its first [to_read] bytes to the output. *)
Fixpoint extract_content (fuel : nat) (rec : list byte) (tar : FILE)
    (written : list byte) (remaining : Z)
  : option (list byte * FILE * list byte) :=
  if remaining >? 0 then
    match fuel with
    | O => None
    | S fuel' =>
        let to_read :=
          if remaining >? RECORD_SIZE then RECORD_SIZE else remaining in
        let '(_, rec, tar) := fread rec tar in
        extract_content fuel' rec tar
          (written ++ firstn (Z.to_nat to_read) rec) (remaining - to_read)
    end
  else Some (rec, tar, written).

(** The outer loop of [mode_extract]. *)
Fixpoint extract_loop (can_create : list byte -> bool) (fuel : nat)
    (rec : list byte) (tar : FILE) (out err : list message)
    (files : list (list byte * list byte))
  : option (list message * list message * list (list byte * list byte)) :=
  match fuel with
  | O => None
  | S fuel' =>
      let '(n, rec, tar) := fread rec tar in
      if n =? RECORD_SIZE then
        if is_block_empty rec then Some (out, err, files)
        else if negb (is_valid_tar_header rec) then
          Some (out, err ++ [invalid_format], files)
        else
          let filename := entry_name rec in
          let filesize := octal_to_long (skipn 124 rec) 12 in
          if can_create filename then
            let out := out ++ [Printed (filename ++ lit " (" ++ dec filesize
                                          ++ lit ")")] in
            match extract_content (S (Z.to_nat filesize)) rec tar []
                    filesize with
            | None => None
            | Some (rec, tar, written) =>
                extract_loop can_create fuel' rec tar out err
                  (files ++ [(filename, written)])
            end
          else
            extract_loop can_create fuel' rec
              (fseek_cur tar (padded_size filesize)) out
              (err ++ [PError filename]) files
      else Some (out, err, files)
  end.

(** [void mode_extract( const char *tarfile )].  The archive of the
    outcome is the file as it was opened: the output paths are taken to
    be other files than the archive. *)
Definition mode_extract (rec : list byte) (w : world) : option outcome :=
  match archive_file w with
  | None =>
      Some (mkOutcome (Exited 1) None [] [PError (lit "open")] [])
  | Some d =>
      match extract_loop (creatable w) (S (length d)) rec (mkFILE d 0)
              [] [] [] with
      | None => None
      | Some (o, e, fl) => Some (mkOutcome Returned (Some d) o e fl)
      end
  end.

(** The file a path holds after extraction: the last one written under
    that name. *)
Fixpoint lookup_file (name : list byte) (files : list (list byte * list byte))
  : option (list byte) :=
  match files with
  | [] => None
  | (n, c) :: files' =>
      match lookup_file name files' with
      | Some c' => Some c'
      | None => if list_eq_dec Byte.byte_eq_dec n name then Some c else None
      end
  end.

(* ------------------------------------------------------------------ *)
(** ** main *)

Definition VERSION : list byte := lit "20250512".

(** [void usage( char *argv0 )]. *)
Definition usage (argv0 : list byte) : list message :=
  [ Printed (lit "Tiny TAR archiving tool version " ++ VERSION);
    Printed (lit "Usage:");
    Printed (lit "  " ++ argv0
      ++ lit " -cf archive.tar file1 [file2 ...]  # Create archive from files.");
    Printed (lit "  " ++ argv0
      ++ lit " -rf archive.tar file1 [file2 ...]  # Append files to archive.");
    Printed (lit "  " ++ argv0
      ++ lit " [-tf] archive.tar                  # List all files in archive.");
    Printed (lit "  " ++ argv0
      ++ lit " -xf archive.tar                    # Extract all files from archive.") ].

(** [strcmp( a, b ) == 0]. *)
Definition streq (a b : list byte) : bool :=
  if list_eq_dec Byte.byte_eq_dec (c_str a) (c_str b) then true else false.

(** The status the process ends with: the argument of [exit] when a mode
    called it, the [return 0] at the end of [main] when the mode
    returned. *)
Definition exit_status (r : option outcome) : option (Z * outcome) :=
  match r with
  | None => None
  | Some o =>
      match ctl o with
      | Exited code => Some (code, o)
      | Returned => Some (0, o)
      end
  end.

(** The global [record] when [main] starts. *)
Definition record0 : list byte := repeat x00 512.

(** The exit status of the process and what the run left behind.  The
    global [record] starts zeroed. *)
Definition main (w : world) (argv : list (list byte)) : option (Z * outcome) :=
  let argc := length argv in
  let record := record0 in
  let arg i := nth i argv [] in
  if (argc <? 2)%nat then
    Some (1, mkOutcome Returned (archive_file w) (usage (arg 0%nat)) [] [])
  else if (argc =? 2)%nat || streq (arg 1%nat) (lit "-tf") then
    exit_status (mode_list record w)
  else if (argc =? 3)%nat && streq (arg 1%nat) (lit "-xf") then
    exit_status (mode_extract record w)
  else if (4 <=? argc)%nat && streq (arg 1%nat) (lit "-cf") then
    exit_status (mode_create_append false record w argv)
  else if (4 <=? argc)%nat && streq (arg 1%nat) (lit "-rf") then
    exit_status (mode_create_append true record w argv)
  else
    Some (1, mkOutcome Returned (archive_file w) (usage (arg 0%nat)) [] []).

(* ------------------------------------------------------------------ *)
(** ** Revision 20250502 *)

Module Legacy.

(** [int32_t octal_to_int32( const char *str, int len )] of revision
    20250502: also leaves the loop at a NUL byte. *)
Fixpoint octal_to_int32_from (value : Z) (str : list byte) (len : nat) : Z :=
  match len, str with
  | S len', c :: str' =>
      if b2z c =? 0 then value
      else
        octal_to_int32_from
          (if is_octal_digit c
           then wrap_int32 (Z.shiftl value 3 + (b2z c - b2z "0"%byte))
           else value)
          str' len'
  | _, _ => value
  end.

Definition octal_to_int32 (str : list byte) (len : nat) : Z :=
  octal_to_int32_from 0 str len.


(** [long find_append_position( FILE *fp )] of revision 20250502, where
    [filesize], [skip] and [zpos] are [uint32_t] and the padded length is
    computed with a mask. *)
Definition scan_header (rec : list byte) (fp : FILE) : scan_out :=
  if negb (is_valid_tar_header rec) then Return (-1)
  else
    let filesize := wrap_uint32 (octal_to_int32 (skipn 124 rec) 12) in
    let skip :=
      Z.land (wrap_uint32 (filesize + RECORD_SIZE - 1))
             (wrap_uint32 (- RECORD_SIZE)) in
    Continue rec (fseek_cur fp skip).

Definition scan_iter (rec : list byte) (fp : FILE) : scan_out :=
  let '(n, rec, fp) := fread rec fp in
  if n =? RECORD_SIZE then
    if is_block_empty rec then
      let zpos := wrap_uint32 (ftell fp - RECORD_SIZE) in
      let '(n2, rec, fp) := fread rec fp in
      if (n2 =? RECORD_SIZE) && is_block_empty rec then Return zpos
      else scan_header rec (fseek_cur fp (- RECORD_SIZE))
    else scan_header rec fp
  else Return (ftell fp).

Fixpoint scan_loop (fuel : nat) (rec : list byte) (fp : FILE) : option Z :=
  match fuel with
  | O => None
  | S fuel' =>
      match scan_iter rec fp with
      | Return pos => Some pos
      | Continue rec' fp' => scan_loop fuel' rec' fp'
      end
  end.

Definition find_append_position (rec : list byte) (fp : FILE) : option Z :=
  scan_loop (S (length (f_data fp))) rec (fseek_set fp 0).

End Legacy.

(* ------------------------------------------------------------------ *)
(** ** The scan of both revisions as one loop *)

(** The two revisions of [find_append_position] differ in the header
    step (how the content skip is computed) and in the type that holds
    [zpos]; the loop around them is the same. *)
Section ScanLoop.

Variable header_step : list byte -> FILE -> scan_out.
Variable zpos_cast : Z -> Z.

Definition scan_iter_with (rec : list byte) (fp : FILE) : scan_out :=
  let '(n, rec, fp) := fread rec fp in
  if n =? RECORD_SIZE then
    if is_block_empty rec then
      let zpos := zpos_cast (ftell fp - RECORD_SIZE) in
      let '(n2, rec, fp) := fread rec fp in
      if (n2 =? RECORD_SIZE) && is_block_empty rec then Return zpos
      else header_step rec (fseek_cur fp (- RECORD_SIZE))
    else header_step rec fp
  else Return (ftell fp).

Fixpoint scan_loop_with (fuel : nat) (rec : list byte) (fp : FILE)
  : option Z :=
  match fuel with
  | O => None
  | S fuel' =>
      match scan_iter_with rec fp with
      | Return pos => Some pos
      | Continue rec' fp' => scan_loop_with fuel' rec' fp'
      end
  end.

End ScanLoop.

(* ------------------------------------------------------------------ *)
(** ** The archive layout, for stating the properties *)

(** A stream positioned at the end of its data. *)
Abbreviation at_end d := (mkFILE d (zlen d)).

(** Content padded with zero bytes to the next multiple of 512. *)
Definition pad512 (content : list byte) : list byte :=
  content ++ repeat x00 ((512 - length content mod 512) mod 512).

(** [ceil(size/512)*512]. *)
Definition padded_length (size : Z) : Z := (size + 511) / 512 * 512.

(** The source files [write_file] accepts: those that open and are
    regular files. *)
Definition accepted (fs : filesystem) (filename : list byte) : option inode :=
  match fs filename with
  | Some st => if st_reg st then Some st else None
  | None => None
  end.

(** One entry: header and padded content. *)
Definition entry_bytes (filename : list byte) (st : inode) : list byte :=
  tar_header filename (zlen (st_data st)) (st_mtime st) ++ pad512 (st_data st).

(** The entries of the accepted files among [names], in order. *)
Fixpoint entries_bytes (fs : filesystem) (names : list (list byte))
  : list byte :=
  match names with
  | [] => []
  | filename :: names' =>
      match accepted fs filename with
      | Some st => entry_bytes filename st ++ entries_bytes fs names'
      | None => entries_bytes fs names'
      end
  end.

(** The sizes of the accepted files among [names], in order. *)
Fixpoint accepted_sizes (fs : filesystem) (names : list (list byte))
  : list Z :=
  match names with
  | [] => []
  | filename :: names' =>
      match accepted fs filename with
      | Some st => zlen (st_data st) :: accepted_sizes fs names'
      | None => accepted_sizes fs names'
      end
  end.

(** What extraction writes for the accepted files among [names]. *)
Fixpoint accepted_files (fs : filesystem) (names : list (list byte))
  : list (list byte * list byte) :=
  match names with
  | [] => []
  | filename :: names' =>
      match accepted fs filename with
      | Some st => (filename, st_data st) :: accepted_files fs names'
      | None => accepted_files fs names'
      end
  end.

(** What listing prints for the accepted files among [names]. *)
Fixpoint accepted_lines (fs : filesystem) (names : list (list byte))
  : list message :=
  match names with
  | [] => []
  | filename :: names' =>
      match accepted fs filename with
      | Some st =>
          Printed (filename ++ lit " (" ++ dec (zlen (st_data st))
                     ++ lit " bytes)")
          :: accepted_lines fs names'
      | None => accepted_lines fs names'
      end
  end.

(** A name the header can carry and the readers give back unchanged: at
    most 100 bytes, all printable. *)
Definition printable_name (filename : list byte) : bool :=
  forallb isprint filename && (length filename <=? 100)%nat.

(** What the round trip asks of the accepted sources among [names]: a
    name the header carries unchanged, a size that fits the eleven octal
    digits of the size field, and an output file that can be created. *)
Definition portable (fs : filesystem) (can_create : list byte -> bool)
    (names : list (list byte)) : Prop :=
  forall filename st,
    In filename names -> accepted fs filename = Some st ->
    printable_name filename = true
    /\ zlen (st_data st) < 8 ^ 11
    /\ can_create filename = true.

(** The archive terminator. *)
Definition terminator : list byte := repeat x00 1024.

(** An entry as the append scan sees it: a block with the magic, and as
    many bytes behind it as its size field, rounded up, asks to skip. *)
Definition valid_entry (e : list byte) : bool :=
  (512 <=? zlen e) && is_valid_tar_header e
  && (zlen e - 512 =? padded_size (octal_to_long (skipn 124 e) 12)).

(* ------------------------------------------------------------------ *)
(** ** CP/M directory names (the [__Z88DK] build) *)

(** The two copy loops of [get_entry_name]: at most [n] characters, up
    to the first space, each masked with [0x7F]. *)
Fixpoint entry_name_part (source : list byte) (n : nat) : list byte :=
  match n, source with
  | S n', c :: source' =>
      if b2z c =? b2z " "%byte then []
      else z2b (Z.land (b2z c) 127) :: entry_name_part source' n'
  | _, _ => []
  end.

(** The bytes [get_entry_name( int num )] stores in its static buffer
    [tmpnam], the final NUL included, as a function of the raw name
    [argnames + num * CPM_NAME_SIZE] that [save_entry_name] stored: eight
    name characters, three extension characters.  The first extension
    character is copied as it is, the others are masked. *)
Definition tmpnam (raw : list byte) : list byte :=
  let name := entry_name_part raw 8 in
  match skipn 8 raw with
  | c :: source =>
      if negb (b2z c =? b2z " "%byte)
      then name ++ ["."%byte; c] ++ entry_name_part source 2 ++ [x00]
      else name ++ [x00]
  | [] => name ++ [x00]
  end.

(** [char *get_entry_name( int num )]: the C string the returned pointer
    designates, which ends at the first NUL of [tmpnam]. *)
Definition get_entry_name (raw : list byte) : list byte := c_str (tmpnam raw).

(** A seven-bit character other than NUL and the space that pads
    directory names. *)
Definition plain_char (c : byte) : bool :=
  negb (b2z c =? b2z " "%byte) && (0 <? b2z c) && (b2z c <? 128).

(* ------------------------------------------------------------------ *)
(** ** More of the archive layout *)

(** A stream with [pre] behind the position and [rest] ahead of it. *)
Abbreviation mid_stream pre rest := (mkFILE (pre ++ rest) (zlen pre)).



(** The accepted sources among [names] have names and sizes the header
    carries unchanged. *)
Definition storable (fs : filesystem) (names : list (list byte)) : Prop :=
  forall filename st,
    In filename names -> accepted fs filename = Some st ->
    printable_name filename = true /\ zlen (st_data st) < 8 ^ 11.

(** What the append scan may return on a file [d]: -1, the offset of two
    empty blocks inside the file, or an offset at or behind its end. *)
Definition scan_result_ok (d : list byte) (r : Z) : Prop :=
  r = -1
  \/ (0 <= r /\ r + 1024 <= zlen d
      /\ is_block_empty (skipn (Z.to_nat r) d) = true
      /\ is_block_empty (skipn (Z.to_nat (r + 512)) d) = true)
  \/ zlen d <= r.

(* ------------------------------------------------------------------ *)
(** ** Sample inputs *)

(** Two source files: "a" holds the three bytes "xyz", "b" is empty. *)
Definition sample_sources : filesystem :=
  fun filename =>
    if list_eq_dec Byte.byte_eq_dec filename (lit "a")
    then Some (mkInode true 0 (lit "xyz"))
    else if list_eq_dec Byte.byte_eq_dec filename (lit "b")
    then Some (mkInode true 0 [])
    else None.

Definition sample_world (archive : option (list byte)) : world :=
  mkWorld sample_sources archive (fun _ => true).

(** A block that is neither empty nor a header. *)
Definition garbage_block : list byte := repeat "A"%byte 512.

(** An archive with an isolated zero block in front of the entry of the
    one-block file "a", and the terminator. *)
Definition lone_zero_content_archive : list byte :=
  repeat x00 512 ++ tar_header (lit "a") 3 0 ++ pad512 (lit "xyz")
    ++ terminator.

(* ================================================================== *)
(** * Properties *)

(* ------------------------------------------------------------------ *)
(** ** Bytes *)

Lemma b2z_range (b : byte) : 0 <= b2z b <= 255.
Proof.
  unfold b2z. pose proof (Byte.to_N_bounded b). lia.
Qed.

Lemma b2z_z2b (z : Z) : 0 <= z < 256 -> b2z (z2b z) = z.
Proof.
  intros Hz. unfold z2b, b2z.
  rewrite Z.mod_small by lia.
  destruct (Byte.of_N (Z.to_N z)) as [b|] eqn:E.
  - apply Byte.to_of_N in E. rewrite E. lia.
  - pose proof (Byte.to_of_N_option_map (Z.to_N z)) as H.
    rewrite E in H. simpl in H.
    destruct (N.leb_spec (Z.to_N z) 255); [discriminate | lia].
Qed.

Lemma b2z_inj (a b : byte) : b2z a = b2z b -> a = b.
Proof.
  unfold b2z. intros H. apply N2Z.inj in H.
  pose proof (Byte.of_to_N a) as Ha. rewrite H, Byte.of_to_N in Ha.
  congruence.
Qed.

Lemma is_octal_digit_spec (c : byte) :
  is_octal_digit c = true <-> 48 <= b2z c <= 55.
Proof.
  unfold is_octal_digit. change (b2z "0") with 48. change (b2z "7") with 55.
  rewrite andb_true_iff, !Z.leb_le. tauto.
Qed.

Lemma zlen_app {A : Type} (l1 l2 : list A) : zlen (l1 ++ l2) = zlen l1 + zlen l2.
Proof. unfold zlen. rewrite length_app. lia. Qed.

Lemma zlen_nonneg {A : Type} (l : list A) : 0 <= zlen l.
Proof. unfold zlen. lia. Qed.

Lemma wrap_long_small (z : Z) : - 2 ^ 63 <= z < 2 ^ 63 -> wrap_long z = z.
Proof. intros H. unfold wrap_long. rewrite Z.mod_small; lia. Qed.

Lemma wrap_int32_small (z : Z) : - 2 ^ 31 <= z < 2 ^ 31 -> wrap_int32 z = z.
Proof. intros H. unfold wrap_int32. rewrite Z.mod_small; lia. Qed.

(* ------------------------------------------------------------------ *)
(** ** The octal decoders *)

Lemma octal_value_app (v : Z) (a b : list byte) :
  octal_value v (a ++ b) = octal_value (octal_value v a) b.
Proof. unfold octal_value. apply fold_left_app. Qed.

Lemma octal_value_bounds (ds : list byte) : forall v,
  0 <= v ->
  Forall (fun c => is_octal_digit c = true) ds ->
  0 <= octal_value v ds < (v + 1) * 8 ^ Z.of_nat (length ds).
Proof.
  induction ds as [|c ds IH]; intros v Hv Hds.
  - simpl. lia.
  - inversion Hds as [|? ? Hc Hds']; subst.
    apply is_octal_digit_spec in Hc.
    change (octal_value v (c :: ds)) with (octal_value (v * 8 + (b2z c - 48)) ds).
    specialize (IH (v * 8 + (b2z c - 48)) ltac:(lia) Hds').
    replace (Z.of_nat (length (c :: ds))) with (Z.succ (Z.of_nat (length ds)))
      by (simpl length; lia).
    rewrite Z.pow_succ_r by lia.
    assert (0 < 8 ^ Z.of_nat (length ds)) by (apply Z.pow_pos_nonneg; lia).
    nia.
Qed.

Lemma octal_to_long_from_cons (v : Z) (c : byte) (str : list byte) (len : nat) :
  octal_to_long_from v (c :: str) (S len)
  = octal_to_long_from
      (if is_octal_digit c
       then wrap_long (Z.shiftl v 3 + (b2z c - 48)) else v) str len.
Proof. reflexivity. Qed.

Lemma c_str_cons (c : byte) (s : list byte) :
  c_str (c :: s) = if b2z c =? 0 then [] else c :: c_str s.
Proof. reflexivity. Qed.

Lemma octal_to_int32_from_cons (v : Z) (c : byte) (str : list byte) (len : nat) :
  Legacy.octal_to_int32_from v (c :: str) (S len)
  = if b2z c =? 0 then v
    else Legacy.octal_to_int32_from
           (if is_octal_digit c
            then wrap_int32 (Z.shiftl v 3 + (b2z c - 48)) else v) str len.
Proof. reflexivity. Qed.

(** The decoder of revision 20250512 reads every octal digit among the
    first [len] bytes; as long as the accumulated value stays below
    [bound], which [long] can hold, nothing wraps. *)
Lemma octal_to_long_from_filter (str : list byte) : forall len v,
  0 <= v ->
  (v + 1) * 8 ^ Z.of_nat (length (filter is_octal_digit (firstn len str)))
    <= 2 ^ 63 ->
  octal_to_long_from v str len
  = octal_value v (filter is_octal_digit (firstn len str)).
Proof.
  induction str as [|c str IH]; intros [|len] v Hv Hb; try reflexivity.
  simpl firstn in *. simpl filter in *. rewrite octal_to_long_from_cons.
  destruct (is_octal_digit c) eqn:Hc.
  - apply is_octal_digit_spec in Hc.
    simpl length in Hb. rewrite Nat2Z.inj_succ, Z.pow_succ_r in Hb by lia.
    set (k := 8 ^ Z.of_nat (length (filter is_octal_digit (firstn len str)))) in *.
    assert (0 < k) by (apply Z.pow_pos_nonneg; lia).
    rewrite Z.shiftl_mul_pow2 by lia. change (2 ^ 3) with 8.
    rewrite wrap_long_small by nia.
    change (octal_value v (c :: ?l)) with (octal_value (v * 8 + (b2z c - 48)) l).
    apply IH; [lia | fold k; nia].
  - apply IH; assumption.
Qed.

Lemma filter_length_le (A : Type) (f : A -> bool) (l : list A) :
  (length (filter f l) <= length l)%nat.
Proof.
  induction l as [|a l IH]; simpl; [lia|]. destruct (f a); simpl; lia.
Qed.

Lemma Forall_filter_true (A : Type) (f : A -> bool) (l : list A) :
  Forall (fun c => f c = true) (filter f l).
Proof.
  apply Forall_forall. intros x Hx. apply filter_In in Hx. tauto.
Qed.

Lemma octal_to_long_filter (str : list byte) (len : nat) :
  (length (filter is_octal_digit (firstn len str)) <= 21)%nat ->
  octal_to_long str len = octal_value 0 (filter is_octal_digit (firstn len str)).
Proof.
  intros H. unfold octal_to_long. apply octal_to_long_from_filter; [lia|].
  transitivity (8 ^ 21); [|lia].
  rewrite Z.mul_1_l. apply Z.pow_le_mono_r; lia.
Qed.

(** Twelve bytes never overflow a [long]: the size and mtime fields. *)
Lemma octal_to_long_12_range (str : list byte) :
  0 <= octal_to_long str 12 < 2 ^ 36.
Proof.
  assert (L : (length (filter is_octal_digit (firstn 12 str)) <= 12)%nat).
  { etransitivity; [apply filter_length_le|]. apply firstn_le_length. }
  rewrite octal_to_long_filter by lia.
  pose proof (octal_value_bounds _ 0 ltac:(lia)
                (Forall_filter_true _ is_octal_digit (firstn 12 str))) as B.
  assert (8 ^ Z.of_nat (length (filter is_octal_digit (firstn 12 str))) <= 8 ^ 12)
    by (apply Z.pow_le_mono_r; lia).
  change (2 ^ 36) with (8 ^ 12). lia.
Qed.

(** The decoder of revision 20250502 reads the octal digits among the
    first [len] bytes of the C string. *)
Lemma octal_to_int32_from_filter (str : list byte) : forall len v,
  0 <= v ->
  (v + 1) * 8 ^ Z.of_nat (length (filter is_octal_digit (firstn len (c_str str))))
    <= 2 ^ 31 ->
  Legacy.octal_to_int32_from v str len
  = octal_value v (filter is_octal_digit (firstn len (c_str str))).
Proof.
  induction str as [|c str IH]; intros [|len] v Hv Hb; try reflexivity.
  - rewrite octal_to_int32_from_cons. rewrite c_str_cons in *.
    destruct (b2z c =? 0) eqn:Hz; [reflexivity|].
    simpl firstn in *. simpl filter in *.
    destruct (is_octal_digit c) eqn:Hc.
    + apply is_octal_digit_spec in Hc.
      simpl length in Hb. rewrite Nat2Z.inj_succ, Z.pow_succ_r in Hb by lia.
      set (k := 8 ^ Z.of_nat (length (filter is_octal_digit (firstn len (c_str str))))) in *.
      assert (0 < k) by (apply Z.pow_pos_nonneg; lia).
      rewrite Z.shiftl_mul_pow2 by lia. change (2 ^ 3) with 8.
      rewrite wrap_int32_small by nia.
      change (octal_value v (c :: ?l)) with (octal_value (v * 8 + (b2z c - 48)) l).
      apply IH; [lia | fold k; nia].
    + apply IH; assumption.
Qed.

Lemma decode_spec_from_leading (bytes : list byte) : forall len v,
  decode_spec_from v bytes len = octal_value v (leading_digits (firstn len bytes)).
Proof.
  induction bytes as [|c bytes IH]; intros [|len] v; try reflexivity.
  simpl. destruct (is_octal_digit c); [|reflexivity].
  change (b2z "0") with 48. rewrite IH. reflexivity.
Qed.

(** C7, as amended: the decoder accumulates [value*8 + digit] left to
    right over every byte in '0'..'7' among the first [len] bytes; a byte
    that is not an octal digit is skipped and decoding goes on behind it
    (revision 20250502 leaves the loop only at a NUL byte).  The value is
    exact while at most 21 digits (10 for the [int32_t] decoder) are read,
    so a field padded with non-digit bytes decodes to its digits. *)
Theorem C7_octal_decoder_skips_non_digits (str : list byte) (len : nat) :
  ((length (filter is_octal_digit (firstn len str)) <= 21)%nat ->
   octal_to_long str len
   = octal_value 0 (filter is_octal_digit (firstn len str)))
  /\
  ((length (filter is_octal_digit (firstn len (c_str str))) <= 10)%nat ->
   Legacy.octal_to_int32 str len
   = octal_value 0 (filter is_octal_digit (firstn len (c_str str)))).
Proof.
  split; intros H.
  - apply octal_to_long_filter, H.
  - unfold Legacy.octal_to_int32. apply octal_to_int32_from_filter; [lia|].
    transitivity (8 ^ 10); [|lia].
    rewrite Z.mul_1_l. apply Z.pow_le_mono_r; lia.
Qed.

Lemma C7_octal_decoder_skips_non_digits_witness :
  octal_to_long (lit "0000644 ") 8 = 420
  /\ Legacy.octal_to_int32 (lit "0000644 ") 8 = 420.
Proof.
  destruct (C7_octal_decoder_skips_non_digits (lit "0000644 ") 8) as [A B].
  split.
  - rewrite A; [reflexivity | vm_compute; lia].
  - rewrite B; [reflexivity | vm_compute; lia].
Defined.

(** C7, as the spec words it, fails: on the three bytes "1 2" a decoder
    that stops at the first non-octal byte yields 1, the code yields
    octal 12. *)
Lemma C7_decoder_does_not_stop_at_non_digit :
  decode_spec (lit "1 2") 3 = 1
  /\ octal_to_long (lit "1 2") 3 = 10
  /\ Legacy.octal_to_int32 (lit "1 2") 3 = 10
  /\ octal_to_long (lit "1 2") 3 <> decode_spec (lit "1 2") 3.
Proof. repeat split. discriminate. Qed.

(* ------------------------------------------------------------------ *)
(** ** Printing octal *)

Lemma oct_digits_length (k : nat) : forall n, length (oct_digits k n) = k.
Proof.
  induction k as [|k IH]; intros n; simpl; [reflexivity|].
  rewrite length_app, IH. simpl. lia.
Qed.

Lemma oct_digit_is_octal (d : Z) :
  0 <= d < 8 -> is_octal_digit (z2b (48 + d)) = true /\ b2z (z2b (48 + d)) = 48 + d.
Proof.
  intros Hd. assert (E : b2z (z2b (48 + d)) = 48 + d) by (apply b2z_z2b; lia).
  split; [|exact E]. apply is_octal_digit_spec. lia.
Qed.

Lemma oct_digits_all_octal (k : nat) : forall n,
  Forall (fun c => is_octal_digit c = true) (oct_digits k n).
Proof.
  induction k as [|k IH]; intros n; simpl; [constructor|].
  apply Forall_app. split; [apply IH|].
  constructor; [|constructor].
  change (b2z "0") with 48. apply oct_digit_is_octal.
  apply Z.mod_pos_bound. lia.
Qed.

Lemma octal_value_oct_digits (k : nat) : forall n v,
  0 <= n ->
  octal_value v (oct_digits k n) = v * 8 ^ Z.of_nat k + n mod 8 ^ Z.of_nat k.
Proof.
  induction k as [|k IH]; intros n v Hn.
  - simpl. rewrite Z.mod_1_r. lia.
  - cbn [oct_digits]. rewrite octal_value_app, IH by (apply Z.div_pos; lia).
    change (b2z "0") with 48.
    unfold octal_value at 1. cbn [fold_left].
    change (b2z "0") with 48.
    destruct (oct_digit_is_octal (n mod 8)) as [_ E];
      [apply Z.mod_pos_bound; lia|].
    rewrite E.
    rewrite Nat2Z.inj_succ, Z.pow_succ_r by lia.
    set (p := 8 ^ Z.of_nat k).
    assert (Hp : 0 < p) by (apply Z.pow_pos_nonneg; lia).
    rewrite Z.rem_mul_r by lia. lia.
Qed.

Lemma filter_all_true (A : Type) (f : A -> bool) (l : list A) :
  Forall (fun c => f c = true) l -> filter f l = l.
Proof.
  induction 1 as [|c l Hc _ IH]; simpl; [reflexivity|].
  rewrite Hc, IH. reflexivity.
Qed.

Lemma oct_width_le (k : nat) (n : Z) :
  0 <= n < 8 ^ Z.of_nat k -> (1 <= k)%nat -> (oct_width n <= k)%nat.
Proof.
  intros Hn Hk. unfold oct_width.
  destruct (Z.eq_dec n 0) as [->|Hnz]; [simpl; lia|].
  assert (Z.log2 n < 3 * Z.of_nat k).
  { apply Z.log2_lt_pow2; [lia|].
    rewrite Z.pow_mul_r by lia. change (2 ^ 3) with 8. lia. }
  assert (Z.log2 n / 3 < Z.of_nat k) by (apply Z.div_lt_upper_bound; lia).
  pose proof (Z.log2_nonneg n).
  assert (0 <= Z.log2 n / 3) by (apply Z.div_pos; lia).
  lia.
Qed.

Lemma printf_o_small (k : nat) (n : Z) :
  0 <= n < 8 ^ Z.of_nat k -> (1 <= k)%nat -> printf_o k n = oct_digits k n.
Proof.
  intros Hn Hk. unfold printf_o.
  rewrite Nat.max_l by (apply oct_width_le; assumption). reflexivity.
Qed.

Lemma printf_o_length (k : nat) (n : Z) : (k <= length (printf_o k n))%nat.
Proof. unfold printf_o. rewrite oct_digits_length. lia. Qed.

Lemma long_to_octal_length (size : nat) (val : Z) :
  (1 <= size)%nat -> length (long_to_octal size val) = size.
Proof.
  intros H. unfold long_to_octal.
  rewrite length_app, firstn_length_le by apply printf_o_length.
  simpl. lia.
Qed.

Lemma long_to_octal_small (size : nat) (val : Z) :
  (2 <= size <= 22)%nat -> 0 <= val < 8 ^ Z.of_nat (size - 1) ->
  long_to_octal size val = oct_digits (size - 1) val ++ [x00].
Proof.
  intros Hs Hv. unfold long_to_octal, wrap_ulong.
  assert (8 ^ Z.of_nat (size - 1) <= 8 ^ 21) by (apply Z.pow_le_mono_r; lia).
  rewrite Z.mod_small by lia.
  rewrite printf_o_small by (assumption || lia).
  rewrite firstn_all2 by (rewrite oct_digits_length; lia). reflexivity.
Qed.

(* ------------------------------------------------------------------ *)
(** ** Stores into a struct *)

Lemma skipn_app_exact (A : Type) (n : nat) (a b : list A) :
  length a = n -> skipn n (a ++ b) = b.
Proof.
  intros <-. rewrite skipn_app, skipn_all, Nat.sub_diag. reflexivity.
Qed.

Lemma firstn_app_exact (A : Type) (n : nat) (a b : list A) :
  length a = n -> firstn n (a ++ b) = a.
Proof.
  intros <-. rewrite firstn_app, firstn_all, Nat.sub_diag. simpl.
  apply app_nil_r.
Qed.

(** Any buffer splits around a region that lies inside it. *)
Lemma split_region (off k : nat) (dst : list byte) :
  (off + k <= length dst)%nat ->
  exists p m r, dst = p ++ m ++ r /\ length p = off /\ length m = k.
Proof.
  intros H.
  exists (firstn off dst), (firstn k (skipn off dst)), (skipn k (skipn off dst)).
  rewrite !firstn_skipn. repeat split.
  - apply firstn_length_le. lia.
  - apply firstn_length_le. rewrite length_skipn. lia.
Qed.

Lemma store_split (off : nat) (src p m r : list byte) :
  length p = off -> length m = length src ->
  store off src (p ++ m ++ r) = p ++ src ++ r.
Proof.
  intros Hp Hm. unfold store.
  rewrite firstn_app_exact by assumption.
  rewrite (app_assoc p m r), skipn_app_exact by (rewrite length_app; lia).
  reflexivity.
Qed.

Lemma field_split (off n : nat) (p m r : list byte) :
  length p = off -> length m = n -> field off n (p ++ m ++ r) = m.
Proof.
  intros Hp Hm. unfold field.
  rewrite skipn_app_exact by assumption. apply firstn_app_exact, Hm.
Qed.

Lemma store_length (off : nat) (src dst : list byte) :
  (off + length src <= length dst)%nat ->
  length (store off src dst) = length dst.
Proof.
  intros H. destruct (split_region off (length src) dst H) as (p & m & r & -> & Hp & Hm).
  rewrite store_split by assumption. rewrite !length_app. lia.
Qed.

Lemma field_store_same (off : nat) (src dst : list byte) :
  (off + length src <= length dst)%nat ->
  field off (length src) (store off src dst) = src.
Proof.
  intros H. destruct (split_region off (length src) dst H) as (p & m & r & -> & Hp & Hm).
  rewrite store_split by assumption. apply field_split; auto.
Qed.

Lemma field_app_l (off n : nat) (a b : list byte) :
  (off + n <= length a)%nat -> field off n (a ++ b) = field off n a.
Proof.
  intros H. destruct (split_region off n a H) as (p & m & r & -> & Hp & Hm).
  rewrite <- !app_assoc. rewrite !field_split by assumption. reflexivity.
Qed.

Lemma field_app_r (off n : nat) (a b : list byte) :
  (length a <= off)%nat -> field off n (a ++ b) = field (off - length a) n b.
Proof.
  intros H. unfold field. rewrite skipn_app, skipn_all2 by lia. reflexivity.
Qed.

(** A store behind a field leaves the field alone. *)
Lemma field_store_behind (off n off' : nat) (src dst : list byte) :
  (off + n <= off')%nat -> (off' <= length dst)%nat ->
  field off n (store off' src dst) = field off n dst.
Proof.
  intros H1 H2. unfold store.
  rewrite field_app_l by (rewrite firstn_length_le; lia).
  rewrite <- (firstn_skipn off' dst) at 2.
  rewrite field_app_l by (rewrite firstn_length_le; lia).
  reflexivity.
Qed.

(** A store in front of a field leaves the field alone. *)
Lemma field_store_before (off n off' : nat) (src dst : list byte) :
  (off' + length src <= off)%nat -> (off' + length src <= length dst)%nat ->
  field off n (store off' src dst) = field off n dst.
Proof.
  intros H1 H2.
  destruct (split_region off' (length src) dst H2) as (p & m & r & -> & Hp & Hm).
  rewrite store_split by assumption.
  rewrite !app_assoc.
  rewrite !field_app_r by (rewrite length_app; lia).
  rewrite !length_app, Hm. reflexivity.
Qed.

Lemma store_store_same (off : nat) (a b dst : list byte) :
  length a = length b -> (off + length b <= length dst)%nat ->
  store off a (store off b dst) = store off a dst.
Proof.
  intros Hl H.
  destruct (split_region off (length b) dst H) as (p & m & r & -> & Hp & Hm).
  rewrite (store_split off b p m) by assumption.
  rewrite !store_split by lia. reflexivity.
Qed.

(** Two adjacent stores are one. *)
Lemma store_store_adjacent (off : nat) (a b dst : list byte) :
  (off + length a + length b <= length dst)%nat ->
  store (off + length a) b (store off a dst) = store off (a ++ b) dst.
Proof.
  intros H.
  destruct (split_region off (length a + length b) dst ltac:(lia))
    as (p & m & r & -> & Hp & Hm).
  destruct (split_region (length a) (length b) m ltac:(lia))
    as (ma & mb & mr & -> & Hma & Hmb).
  assert (mr = []) as ->.
  { rewrite !length_app in Hm. destruct mr; [reflexivity | simpl in Hm; lia]. }
  rewrite app_nil_r in *.
  rewrite <- (app_assoc ma mb r).
  rewrite (store_split _ a p ma) by lia.
  rewrite (app_assoc p a), (store_split _ b (p ++ a) mb)
    by (rewrite ?length_app; lia).
  rewrite (app_assoc ma mb r), (store_split _ (a ++ b) p (ma ++ mb))
    by (rewrite ?length_app; lia).
  rewrite <- !app_assoc. reflexivity.
Qed.

Lemma store_field_id (off n : nat) (dst : list byte) :
  (off + n <= length dst)%nat ->
  store off (field off n dst) dst = dst.
Proof.
  intros H.
  destruct (split_region off n dst H) as (p & m & r & -> & Hp & Hm).
  rewrite field_split by assumption. apply store_split; auto.
Qed.

Lemma strncpy_length (n : nat) (src : list byte) : length (strncpy n src) = n.
Proof.
  unfold strncpy. rewrite length_app, repeat_length, length_firstn. lia.
Qed.

(* ------------------------------------------------------------------ *)
(** ** The header record *)

Lemma store_length_eq (len off : nat) (src dst : list byte) :
  length dst = len -> (off + length src <= len)%nat ->
  length (store off src dst) = len.
Proof. intros <- H. apply store_length, H. Qed.

(** Lengths of the fields and of the struct under construction. *)
Ltac field_len :=
  rewrite ?length_app, ?repeat_length, ?strncpy_length, ?oct_digits_length,
    ?long_to_octal_length by lia;
  simpl length; lia.

Ltac struct_len :=
  repeat (apply store_length_eq; [ | field_len ]);
  first [ apply repeat_length | assumption ].

Ltac store_len :=
  first [ lia
        | field_len
        | match goal with
          | |- (_ <= length ?h)%nat =>
              replace (length h) with 512%nat by (symmetry; struct_len);
              field_len
          end ].

Lemma tar_header_blank_length (filename : list byte) (filesize mtime : Z) :
  length (tar_header_blank filename filesize mtime) = 512%nat.
Proof. unfold tar_header_blank. struct_len. Qed.

Lemma sum_bytes_from_bound (l : list byte) : forall acc,
  0 <= acc -> acc + 255 * zlen l < 2 ^ 32 ->
  0 <= fold_left (fun checksum b => wrap_uint32 (checksum + b2z b)) l acc
    <= acc + 255 * zlen l.
Proof.
  unfold zlen.
  induction l as [|b l IH]; intros acc Ha Hb; cbn [fold_left].
  - simpl in *. lia.
  - pose proof (b2z_range b). cbn [length] in *.
    rewrite Nat2Z.inj_succ in *.
    assert (E : wrap_uint32 (acc + b2z b) = acc + b2z b)
      by (unfold wrap_uint32; apply Z.mod_small; lia).
    rewrite E.
    specialize (IH (acc + b2z b) ltac:(lia) ltac:(lia)). lia.
Qed.

(** The [unsigned int] loop of the writer computes the sum of the byte
    values as long as that sum fits 32 bits. *)
Lemma sum_bytes_from_is_sum (l : list byte) : forall acc,
  0 <= acc -> acc + 255 * zlen l < 2 ^ 32 ->
  fold_left (fun checksum b => wrap_uint32 (checksum + b2z b)) l acc
  = acc + byte_sum l.
Proof.
  unfold zlen, byte_sum.
  induction l as [|b l IH]; intros acc Ha Hb; cbn [fold_left map fold_right].
  - lia.
  - pose proof (b2z_range b). cbn [length] in Hb.
    rewrite Nat2Z.inj_succ in Hb.
    assert (E : wrap_uint32 (acc + b2z b) = acc + b2z b)
      by (unfold wrap_uint32; apply Z.mod_small; lia).
    rewrite E, IH by lia. lia.
Qed.

Lemma sum_bytes_is_byte_sum (l : list byte) :
  255 * zlen l < 2 ^ 32 -> sum_bytes l = byte_sum l.
Proof.
  intros H. unfold sum_bytes. rewrite sum_bytes_from_is_sum by lia. lia.
Qed.

Lemma sum_bytes_header_bound (header : list byte) :
  length header = 512%nat -> 0 <= sum_bytes header < 8 ^ 6.
Proof.
  intros H. pose proof (sum_bytes_from_bound header 0 ltac:(lia)) as B.
  unfold zlen in B. rewrite H in B. specialize (B ltac:(lia)).
  unfold sum_bytes. lia.
Qed.

(** The checksum field as [write_tar_header] leaves it: six digits, a
    NUL, a space. *)
Lemma tar_header_as_store (filename : list byte) (filesize mtime : Z) :
  let blank := tar_header_blank filename filesize mtime in
  tar_header filename filesize mtime
  = store 148 (oct_digits 6 (sum_bytes blank) ++ [x00; " "%byte]) blank.
Proof.
  intros blank. unfold tar_header. fold blank.
  pose proof (tar_header_blank_length filename filesize mtime) as L. fold blank in L.
  pose proof (sum_bytes_header_bound blank L) as B.
  rewrite printf_o_small by (simpl; lia).
  set (d := oct_digits 6 (sum_bytes blank)).
  assert (Ld : length d = 6%nat) by apply oct_digits_length.
  assert (A : forall (off2 : nat) (a b : list byte),
             off2 = (148 + length a)%nat -> (off2 + length b <= 512)%nat ->
             store off2 b (store 148 a blank) = store 148 (a ++ b) blank).
  { intros off2 a b -> Hb. apply store_store_adjacent. lia. }
  rewrite <- (A 154%nat d [x00]) by (rewrite ?Ld; simpl; lia).
  rewrite (store_store_same 154 [x00] [x00])
    by (rewrite ?store_length; rewrite ?Ld; simpl; lia).
  rewrite (A 154%nat d [x00]) by (rewrite ?Ld; simpl; lia).
  rewrite (A 155%nat (d ++ [x00]) [" "%byte])
    by (rewrite ?length_app, ?Ld; simpl; lia).
  rewrite <- app_assoc. reflexivity.
Qed.

Lemma tar_header_length (filename : list byte) (filesize mtime : Z) :
  length (tar_header filename filesize mtime) = 512%nat.
Proof.
  rewrite tar_header_as_store.
  pose proof (tar_header_blank_length filename filesize mtime).
  rewrite store_length; rewrite ?length_app, ?oct_digits_length; simpl; lia.
Qed.

Lemma tar_header_blank_chksum (filename : list byte) (filesize mtime : Z) :
  field 148 8 (tar_header_blank filename filesize mtime) = repeat " "%byte 8.
Proof.
  unfold tar_header_blank.
  repeat (rewrite field_store_behind by store_len).
  apply (field_store_same 148 (repeat " "%byte 8)). store_len.
Qed.

Lemma leading_digits_app (d rest : list byte) (c : byte) :
  Forall (fun x => is_octal_digit x = true) d -> is_octal_digit c = false ->
  leading_digits (d ++ c :: rest) = d.
Proof.
  intros Hd Hc. induction Hd as [|x d Hx _ IH]; simpl.
  - rewrite Hc. reflexivity.
  - rewrite Hx, IH. reflexivity.
Qed.

(** C4: in every header the writer produces, the octal checksum field
    decodes to the unsigned sum of the 512 header bytes taken with the
    eight checksum bytes read as spaces, the sum being [byte_sum], the
    plain sum of the byte values.  The field holds six digits and a NUL,
    so the code's decoder and the spec's agree on it. *)
Theorem C4_checksum_invariant (filename : list byte) (filesize mtime : Z) :
  let header := tar_header filename filesize mtime in
  octal_to_long (chksum_field header) 8 = compute_checksum header
  /\ decode_spec (chksum_field header) 8 = compute_checksum header.
Proof.
  intros header. subst header.
  pose proof (tar_header_blank_length filename filesize mtime) as L.
  pose proof (sum_bytes_header_bound _ L) as B.
  unfold compute_checksum, chksum_field.
  rewrite (firstn_all2 (n := 512)) by (rewrite tar_header_length; lia).
  rewrite tar_header_as_store. cbv zeta.
  set (blank := tar_header_blank filename filesize mtime) in *.
  set (d := oct_digits 6 (sum_bytes blank)).
  assert (Ld : length d = 6%nat) by apply oct_digits_length.
  set (F := d ++ [x00; " "%byte]).
  assert (LF : length F = 8%nat) by (unfold F; rewrite length_app, Ld; reflexivity).
  assert (F1 : field 148 8 (store 148 F blank) = F).
  { rewrite <- LF. apply field_store_same. lia. }
  assert (F2 : store 148 (repeat " "%byte 8) (store 148 F blank) = blank).
  { rewrite store_store_same by (rewrite ?repeat_length; lia).
    rewrite <- (tar_header_blank_chksum filename filesize mtime). fold blank.
    apply store_field_id. lia. }
  rewrite F1, F2.
  rewrite <- (sum_bytes_is_byte_sum blank) by (unfold zlen; rewrite L; lia).
  assert (V : octal_value 0 d = sum_bytes blank).
  { unfold d. rewrite octal_value_oct_digits by lia.
    rewrite Z.mod_small by (simpl; lia). lia. }
  split.
  - assert (E : filter is_octal_digit (firstn 8 F) = d).
    { rewrite firstn_all2 by lia. unfold F.
      rewrite filter_app.
      change (filter is_octal_digit [x00; " "%byte]) with (@nil byte).
      rewrite app_nil_r.
      apply filter_all_true, oct_digits_all_octal. }
    rewrite octal_to_long_filter by (rewrite E, Ld; lia).
    rewrite E. exact V.
  - unfold decode_spec. rewrite decode_spec_from_leading.
    rewrite firstn_all2 by lia. unfold F.
    rewrite leading_digits_app by (apply oct_digits_all_octal || reflexivity).
    exact V.
Qed.

(* ------------------------------------------------------------------ *)
(** ** Streams *)

Lemma to_nat_zlen {A : Type} (l : list A) : Z.to_nat (zlen l) = length l.
Proof. unfold zlen. apply Nat2Z.id. Qed.

Lemma fwrite_at_end (buf d : list byte) :
  fwrite buf (at_end d) = at_end (d ++ buf).
Proof.
  unfold fwrite. cbn [f_pos f_data]. rewrite to_nat_zlen.
  rewrite firstn_all, Nat.sub_diag, skipn_all2 by lia.
  simpl. rewrite app_nil_r, zlen_app. reflexivity.
Qed.

(** Reading a whole block that lies in the file. *)
Lemma fread_block (rec pre blk rest : list byte) :
  length blk = 512%nat -> length rec = 512%nat ->
  fread rec (mkFILE (pre ++ blk ++ rest) (zlen pre))
  = (512, blk, mkFILE (pre ++ blk ++ rest) (zlen pre + 512)).
Proof.
  intros Hb Hr. unfold fread. cbn [f_pos f_data]. rewrite to_nat_zlen.
  rewrite skipn_app_exact by reflexivity.
  rewrite firstn_app_exact by assumption.
  unfold zlen. rewrite Hb, skipn_all2, app_nil_r by lia. reflexivity.
Qed.

(** Reading the short tail of a file. *)
Lemma fread_tail (rec pre tail : list byte) :
  (length tail < 512)%nat ->
  fread rec (mkFILE (pre ++ tail) (zlen pre))
  = (zlen tail, tail ++ skipn (length tail) rec,
     mkFILE (pre ++ tail) (zlen pre + zlen tail)).
Proof.
  intros Ht. unfold fread. cbn [f_pos f_data]. rewrite to_nat_zlen.
  rewrite skipn_app_exact by reflexivity.
  rewrite firstn_all2 by lia. reflexivity.
Qed.

(** The number of bytes [fread] delivers. *)
Lemma fread_count (rec : list byte) (fp : FILE) :
  0 <= f_pos fp ->
  let '(n, _, fp') := fread rec fp in
  n = Z.min 512 (Z.max 0 (zlen (f_data fp) - f_pos fp))
  /\ f_data fp' = f_data fp /\ f_pos fp' = f_pos fp + n.
Proof.
  intros Hp. unfold fread. cbn [f_pos f_data]. split; [|split; reflexivity].
  unfold zlen. rewrite length_firstn, length_skipn. lia.
Qed.

Lemma fread_record_length (rec : list byte) (fp : FILE) :
  length rec = 512%nat ->
  let '(_, rec', _) := fread rec fp in length rec' = 512%nat.
Proof.
  intros Hr. unfold fread.
  rewrite length_app, length_skipn, length_firstn. lia.
Qed.

(* ------------------------------------------------------------------ *)
(** ** Padding *)

Lemma pad512_nil : pad512 [] = [].
Proof. reflexivity. Qed.

Lemma pad512_block (blk c : list byte) :
  length blk = 512%nat -> pad512 (blk ++ c) = blk ++ pad512 c.
Proof.
  intros Hb. unfold pad512. rewrite length_app, Hb, <- app_assoc.
  do 3 f_equal.
  replace (512 + length c)%nat with (length c + 1 * 512)%nat by lia.
  rewrite Nat.Div0.mod_add. reflexivity.
Qed.

Lemma pad512_short (c : list byte) :
  (0 < length c < 512)%nat ->
  pad512 c = c ++ repeat x00 (512 - length c) /\ length (pad512 c) = 512%nat.
Proof.
  intros H. unfold pad512.
  rewrite (Nat.mod_small (length c)) by lia.
  rewrite (Nat.mod_small (512 - length c)) by lia.
  split; [reflexivity|]. rewrite length_app, repeat_length. lia.
Qed.

Lemma pad512_length (c : list byte) :
  zlen (pad512 c) = padded_length (zlen c).
Proof.
  unfold pad512, padded_length, zlen.
  rewrite length_app, repeat_length.
  set (n := length c).
  pose proof (Nat.mod_upper_bound n 512 ltac:(lia)) as Hm.
  pose proof (Nat.div_mod_eq n 512) as Hd.
  destruct (Nat.eq_dec (n mod 512) 0) as [E|E].
  - rewrite E in *. change ((512 - 0) mod 512)%nat with 0%nat.
    replace (Z.of_nat n + 511) with (511 + Z.of_nat (n / 512) * 512) by lia.
    rewrite Z.div_add by lia. change (511 / 512) with 0. lia.
  - rewrite (Nat.mod_small (512 - n mod 512)) by lia.
    replace (Z.of_nat n + 511)
      with ((Z.of_nat (n mod 512) + 511) + Z.of_nat (n / 512) * 512) by lia.
    rewrite Z.div_add by lia.
    assert ((Z.of_nat (n mod 512) + 511) / 512 = 1) as ->.
    { symmetry. apply Z.div_unique with (r := Z.of_nat (n mod 512) - 1); lia. }
    lia.
Qed.

(* ------------------------------------------------------------------ *)
(** ** The writer *)

Lemma write_file_content_spec (fuel : nat) :
  forall (c rec d pre : list byte),
  (length c < fuel)%nat -> length rec = 512%nat ->
  exists rec' inp',
    write_file_content fuel rec (at_end d) (mkFILE (pre ++ c) (zlen pre)) (zlen c)
    = Some (rec', at_end (d ++ pad512 c), inp')
    /\ length rec' = 512%nat.
Proof.
  induction fuel as [|fuel IH]; intros c rec d pre Hf Hr; [lia|].
  destruct c as [|b c0].
  - exists rec, (mkFILE (pre ++ []) (zlen pre)).
    rewrite pad512_nil, !app_nil_r. split; [reflexivity | assumption].
  - set (c := b :: c0) in *.
    assert (Hc : (0 < length c)%nat) by (simpl; lia).
    cbn [write_file_content].
    replace (zlen c >? 0) with true by (unfold zlen; symmetry; apply Z.gtb_lt; lia).
    destruct (Nat.lt_ge_cases (length c) 512) as [Hs|Hl].
    + (* the last, short block *)
      rewrite fread_tail by assumption.
      replace (zlen c <? RECORD_SIZE) with true
        by (unfold zlen, RECORD_SIZE; symmetry; apply Z.ltb_lt; lia).
      unfold memset_tail. rewrite to_nat_zlen, firstn_app_exact by reflexivity.
      destruct (pad512_short c ltac:(lia)) as [Ep Lp]. rewrite <- Ep.
      rewrite firstn_all2 by lia. rewrite fwrite_at_end.
      rewrite Z.sub_diag.
      destruct fuel; cbn [write_file_content]; change (0 >? 0) with false;
        cbv iota; eauto.
    + (* a full block *)
      destruct (split_region 0 512 c ltac:(lia)) as (p & blk & c' & Ec & Hp & Hb).
      destruct p; [|discriminate]. simpl in Ec. rewrite Ec in *.
      rewrite fread_block by assumption.
      change (512 <? RECORD_SIZE) with false. cbv iota.
      rewrite firstn_all2 by lia. rewrite fwrite_at_end.
      replace (zlen (blk ++ c') - 512) with (zlen c')
        by (rewrite zlen_app; unfold zlen; lia).
      replace (mkFILE (pre ++ blk ++ c') (zlen pre + 512))
        with (mkFILE ((pre ++ blk) ++ c') (zlen (pre ++ blk)))
        by (rewrite <- app_assoc, zlen_app; unfold zlen; rewrite Hb; reflexivity).
      destruct (IH c' blk (d ++ blk) (pre ++ blk)) as (rec' & inp' & E & L);
        [rewrite length_app in Hf; lia | assumption |].
      rewrite E, pad512_block, app_assoc by assumption. eauto.
Qed.

Lemma write_file_spec (fs : filesystem) (filename rec d : list byte)
    (e : list message) :
  length rec = 512%nat ->
  exists rec' e',
    write_file fs filename (mkWriter rec (at_end d) e)
    = Some (mkWriter rec' (at_end (d ++ entries_bytes fs [filename])) e')
    /\ length rec' = 512%nat.
Proof.
  intros Hr. unfold write_file, entries_bytes, accepted.
  destruct (fs filename) as [st|]; cbn [w_record w_tar w_err].
  2:{ rewrite app_nil_r. eauto. }
  destruct (st_reg st); cbn [negb].
  2:{ rewrite app_nil_r. eauto. }
  unfold write_tar_header, get_file_size. cbn [f_data].
  rewrite firstn_all2 by (rewrite tar_header_length; lia).
  rewrite fwrite_at_end.
  destruct (write_file_content_spec (S (Z.to_nat (zlen (st_data st))))
              (st_data st) rec
              (d ++ tar_header filename (zlen (st_data st)) (st_mtime st)) [])
    as (rec' & inp' & E & L); [rewrite to_nat_zlen; lia | assumption |].
  simpl app in E. change (zlen (@nil byte)) with 0 in E. rewrite E.
  unfold entry_bytes. rewrite app_nil_r, <- app_assoc. eauto.
Qed.

Lemma entries_bytes_cons (fs : filesystem) (filename : list byte)
    (names : list (list byte)) :
  entries_bytes fs (filename :: names)
  = entries_bytes fs [filename] ++ entries_bytes fs names.
Proof.
  simpl. destruct (accepted fs filename); rewrite ?app_nil_r; reflexivity.
Qed.

Lemma write_files_spec (fs : filesystem) (names : list (list byte)) :
  forall (rec d : list byte) (e : list message),
  length rec = 512%nat ->
  exists rec' e',
    write_files fs names (mkWriter rec (at_end d) e)
    = Some (mkWriter rec' (at_end (d ++ entries_bytes fs names)) e').
Proof.
  induction names as [|filename names IH]; intros rec d e Hr.
  - simpl. rewrite app_nil_r. eauto.
  - cbn [write_files].
    destruct (write_file_spec fs filename rec d e Hr) as (rec1 & e1 & E1 & L1).
    rewrite E1.
    destruct (IH rec1 (d ++ entries_bytes fs [filename]) e1 L1) as (rec2 & e2 & E2).
    rewrite E2, (entries_bytes_cons fs filename names), <- !app_assoc. eauto.
Qed.

(** Writing the names and the terminator behind [d]. *)
Lemma write_archive_tail (fs : filesystem) (names : list (list byte))
    (rec d : list byte) :
  length rec = 512%nat ->
  exists wr,
    write_files fs names (mkWriter rec (at_end d) []) = Some wr
    /\ f_data (w_tar (write_terminator wr))
       = d ++ entries_bytes fs names ++ terminator.
Proof.
  intros Hr.
  destruct (write_files_spec fs names rec d [] Hr) as (rec' & e' & E).
  eexists. split; [exact E|].
  unfold write_terminator. cbn [w_tar w_err].
  rewrite !fwrite_at_end. cbn [f_data].
  rewrite <- !app_assoc. reflexivity.
Qed.

(** Creating an archive: the entries of the accepted files, then the
    terminator. *)
Lemma mode_create_spec (w : world) (argv : list (list byte)) :
  creatable w (nth 2 argv []) = true ->
  exists e,
    mode_create_append false record0 w argv
    = Some (mkOutcome Returned
              (Some (entries_bytes (sources w) (skipn 3 argv) ++ terminator))
              [] e []).
Proof.
  intros Hc. unfold mode_create_append. rewrite Hc.
  destruct (write_archive_tail (sources w) (skipn 3 argv) record0 []
              ltac:(apply repeat_length)) as (wr & E & D).
  change (mkFILE [] 0) with (at_end (@nil byte)).
  rewrite E, D. simpl app. eauto.
Qed.

Lemma entries_bytes_length (fs : filesystem) (names : list (list byte)) :
  zlen (entries_bytes fs names)
  = fold_right Z.add 0
      (map (fun s => 512 + padded_length s) (accepted_sizes fs names)).
Proof.
  induction names as [|filename names IH]; [reflexivity|].
  cbn [entries_bytes accepted_sizes].
  destruct (accepted fs filename) as [st|]; [|exact IH].
  cbn [map fold_right]. rewrite <- IH.
  unfold entry_bytes. rewrite !zlen_app, pad512_length.
  unfold zlen at 1. rewrite tar_header_length. lia.
Qed.

(** C5: a created archive is as long as its entries, 512 bytes of header
    and the content rounded up to whole blocks for each accepted source
    file, plus the 1024 bytes of the two-block terminator; every content
    is zero-padded to the block boundary and the last 1024 bytes are
    zero. *)
Theorem C5_created_archive_length (w : world) (argv : list (list byte)) :
  creatable w (nth 2 argv []) = true ->
  exists o d,
    mode_create_append false record0 w argv = Some o
    /\ ctl o = Returned
    /\ arch o = Some d
    /\ d = entries_bytes (sources w) (skipn 3 argv) ++ repeat x00 1024
    /\ zlen d
       = fold_right Z.add 0
           (map (fun s => 512 + (s + 511) / 512 * 512)
                (accepted_sizes (sources w) (skipn 3 argv)))
         + 1024.
Proof.
  intros Hc. destruct (mode_create_spec w argv Hc) as (e & E).
  eexists. eexists. split; [exact E|]. cbn [ctl arch].
  repeat split.
  rewrite zlen_app, entries_bytes_length. reflexivity.
Qed.

(* ------------------------------------------------------------------ *)
(** ** The append scan *)

Lemma is_valid_tar_header_spec (header : list byte) :
  is_valid_tar_header header = true <-> field 257 5 header = lit "ustar".
Proof.
  unfold is_valid_tar_header, field.
  destruct (list_eq_dec _ _ _); split; intros; congruence.
Qed.

Lemma field_firstn (off n k : nat) (buf : list byte) :
  (off + n <= k)%nat -> field off n (firstn k buf) = field off n buf.
Proof.
  intros H.
  destruct (Nat.le_gt_cases k (length buf)) as [L|L].
  - rewrite <- (firstn_skipn k buf) at 2.
    apply eq_sym, field_app_l. rewrite firstn_length_le; lia.
  - rewrite (firstn_all2 (n := k)) by lia. reflexivity.
Qed.

Lemma In_firstn (A : Type) (x : A) (n : nat) (l : list A) :
  In x (firstn n l) -> In x l.
Proof.
  intros H. rewrite <- (firstn_skipn n l). apply in_or_app. left. exact H.
Qed.

Lemma In_skipn (A : Type) (x : A) (n : nat) (l : list A) :
  In x (skipn n l) -> In x l.
Proof.
  intros H. rewrite <- (firstn_skipn n l). apply in_or_app. right. exact H.
Qed.

(** An empty block carries no magic. *)
Lemma empty_block_not_valid (block : list byte) :
  is_block_empty block = true -> is_valid_tar_header block = false.
Proof.
  intros He. destruct (is_valid_tar_header block) eqn:Hv; [|reflexivity].
  exfalso. apply is_valid_tar_header_spec in Hv.
  rewrite <- (field_firstn 257 5 512) in Hv by lia.
  unfold is_block_empty in He. rewrite forallb_forall in He.
  assert (Hin : In "u"%byte (firstn 512 block)).
  { unfold field in Hv.
    assert (I : In "u"%byte (firstn 5 (skipn 257 (firstn 512 block))))
      by (rewrite Hv; left; reflexivity).
    apply In_firstn in I. eapply In_skipn, I. }
  specialize (He _ Hin). discriminate.
Qed.

Lemma octal_to_long_from_firstn (str : list byte) : forall len v,
  octal_to_long_from v (firstn len str) len = octal_to_long_from v str len.
Proof.
  induction str as [|c str IH]; intros [|len] v; try reflexivity.
  cbn [firstn]. rewrite !octal_to_long_from_cons. apply IH.
Qed.

(** The size the readers decode from a header depends on bytes 124..135
    only. *)
Lemma header_size_field (buf : list byte) :
  octal_to_long (skipn 124 buf) 12 = octal_to_long (field 124 12 buf) 12.
Proof.
  unfold octal_to_long, field. symmetry. apply octal_to_long_from_firstn.
Qed.

Lemma padded_size_eq (filesize : Z) :
  0 <= filesize < 2 ^ 36 -> padded_size filesize = padded_length filesize.
Proof.
  intros H. unfold padded_size, padded_length, RECORD_SIZE.
  replace (filesize + 512 - 1) with (filesize + 511) by lia.
  rewrite (wrap_long_small (filesize + 511)) by lia.
  rewrite Z.quot_div_nonneg by lia.
  assert (0 <= (filesize + 511) / 512 < 2 ^ 36).
  { split; [apply Z.div_pos; lia|]. apply Z.div_lt_upper_bound; lia. }
  apply wrap_long_small. lia.
Qed.

Lemma padded_length_facts (size : Z) :
  0 <= size -> 0 <= padded_length size /\ padded_length size mod 512 = 0.
Proof.
  intros H. unfold padded_length. split.
  - assert (0 <= (size + 511) / 512) by (apply Z.div_pos; lia). lia.
  - apply Z.mod_mul. lia.
Qed.

(** The content skip of the scan: a non-negative multiple of 512. *)
Lemma scan_skip_facts (rec : list byte) :
  let skip := padded_size (octal_to_long (skipn 124 rec) 12) in
  0 <= skip /\ skip mod 512 = 0.
Proof.
  cbv zeta. pose proof (octal_to_long_12_range (skipn 124 rec)) as R.
  rewrite padded_size_eq by lia. apply padded_length_facts. lia.
Qed.

Lemma fseek_cur_forward (fp : FILE) (off : Z) :
  0 <= f_pos fp + off -> fseek_cur fp off = mkFILE (f_data fp) (f_pos fp + off).
Proof.
  intros H. unfold fseek_cur.
  destruct (Z.ltb_spec (f_pos fp + off) 0); [lia | reflexivity].
Qed.

(** What [scan_header] does, spelled out. *)
Lemma scan_header_cases (rec : list byte) (fp : FILE) :
  0 <= f_pos fp ->
  (is_valid_tar_header rec = false /\ scan_header rec fp = Return (-1))
  \/ (is_valid_tar_header rec = true
      /\ exists skip, 0 <= skip /\ skip mod 512 = 0
         /\ scan_header rec fp
            = Continue rec (mkFILE (f_data fp) (f_pos fp + skip))).
Proof.
  intros Hp. unfold scan_header.
  destruct (is_valid_tar_header rec); cbn [negb]; [right | left; auto].
  split; [reflexivity|].
  destruct (scan_skip_facts rec) as [S1 S2].
  eexists. split; [exact S1|]. split; [exact S2|].
  rewrite fseek_cur_forward by lia. reflexivity.
Qed.

(** A read that delivers nothing leaves [record] as it was. *)
Lemma fread_nothing (rec rec' : list byte) (fp fp' : FILE) (n : Z) :
  fread rec fp = (n, rec', fp') -> n = 0 -> rec' = rec.
Proof.
  unfold fread.
  remember (firstn 512 (skipn (Z.to_nat (f_pos fp)) (f_data fp))) as got.
  intros H Hn. injection H as En Er _. subst n rec'.
  destruct got; [reflexivity | discriminate].
Qed.

Lemma aligned_add (a b : Z) :
  a mod 512 = 0 -> b mod 512 = 0 -> (a + b) mod 512 = 0.
Proof. intros Ha Hb. rewrite Z.add_mod, Ha, Hb by lia. reflexivity. Qed.

Lemma aligned_sub (a b : Z) :
  a mod 512 = 0 -> b mod 512 = 0 -> (a - b) mod 512 = 0.
Proof. intros Ha Hb. rewrite Zminus_mod, Ha, Hb. reflexivity. Qed.

(** Less than a block of an aligned file is nothing. *)
Lemma aligned_small (x : Z) : x mod 512 = 0 -> x < 512 -> x <= 0.
Proof.
  intros Hm Hx. destruct (Z_le_gt_dec x 0) as [|Hp]; [assumption|].
  rewrite Z.mod_small in Hm by lia. lia.
Qed.

Section ScanLoopFacts.

Variable header_step : list byte -> FILE -> scan_out.
Variable zpos_cast : Z -> Z.

(** The header step either reports corruption or skips forward by a
    whole number of blocks. *)
Hypothesis header_step_cases : forall (rec : list byte) (fp : FILE),
  0 <= f_pos fp ->
  (is_valid_tar_header rec = false /\ header_step rec fp = Return (-1))
  \/ (is_valid_tar_header rec = true
      /\ exists skip, 0 <= skip /\ skip mod 512 = 0
         /\ header_step rec fp
            = Continue rec (mkFILE (f_data fp) (f_pos fp + skip))).

(** Storing an aligned offset in [zpos] keeps it aligned. *)
Hypothesis zpos_cast_aligned : forall p,
  0 <= p -> p mod 512 = 0 -> 0 <= zpos_cast p /\ zpos_cast p mod 512 = 0.

(** Every pass that goes round again has read a whole block and leaves
    the position further on. *)
Lemma scan_iter_with_progress (rec rec' : list byte) (fp fp' : FILE) :
  0 <= f_pos fp ->
  scan_iter_with header_step zpos_cast rec fp = Continue rec' fp' ->
  f_data fp' = f_data fp
  /\ f_pos fp < f_pos fp'
  /\ f_pos fp + 512 <= zlen (f_data fp).
Proof.
  intros Hp. unfold scan_iter_with.
  pose proof (fread_count rec fp Hp) as C1.
  destruct (fread rec fp) as [[n rec1] fp1] eqn:E1.
  destruct C1 as (Hn & Hd1 & Hp1). unfold RECORD_SIZE.
  destruct (Z.eqb_spec n 512) as [Hn512|]; [|discriminate].
  assert (Hfull : f_pos fp + 512 <= zlen (f_data fp)) by lia.
  destruct (is_block_empty rec1) eqn:He1.
  - pose proof (fread_count rec1 fp1 ltac:(lia)) as C2.
    destruct (fread rec1 fp1) as [[n2 rec2] fp2] eqn:E2.
    destruct C2 as (Hn2 & Hd2 & Hp2).
    destruct ((n2 =? 512) && is_block_empty rec2) eqn:Hc; [discriminate|].
    assert (Hn2' : 0 <= n2 <= 512)
      by (pose proof (zlen_nonneg (f_data fp1)); lia).
    assert (Hseek : fseek_cur fp2 (Z.opp 512)
                    = mkFILE (f_data fp) (f_pos fp + n2)).
    { rewrite fseek_cur_forward by lia. f_equal; [congruence | lia]. }
    rewrite Hseek.
    destruct (header_step_cases rec2 (mkFILE (f_data fp) (f_pos fp + n2))
                ltac:(cbn; lia)) as [[_ R]|[V (skip & S1 & S2 & R)]];
      rewrite R; [discriminate|].
    intros H. injection H as <- <-. cbn [f_data f_pos].
    split; [reflexivity|]. split; [|assumption].
    (* a second read that delivers nothing leaves the empty block in
       [record], which has no magic *)
    destruct (Z.eq_dec n2 0) as [Z0|]; [|lia].
    exfalso. rewrite (fread_nothing _ _ _ _ _ E2 Z0) in V.
    rewrite (empty_block_not_valid _ He1) in V. discriminate.
  - destruct (header_step_cases rec1 fp1 ltac:(lia))
      as [[_ R]|[V (skip & S1 & S2 & R)]]; rewrite R; [discriminate|].
    intros H. injection H as <- <-. cbn [f_data f_pos].
    split; [assumption|]. split; [lia | assumption].
Qed.

(** The scan always returns: one pass per byte of the file, and one
    more, is enough fuel. *)
Lemma scan_loop_with_total (fuel : nat) :
  forall (rec : list byte) (fp : FILE),
  0 <= f_pos fp ->
  Z.max 0 (zlen (f_data fp) - f_pos fp) < Z.of_nat fuel ->
  exists r, scan_loop_with header_step zpos_cast fuel rec fp = Some r.
Proof.
  induction fuel as [|fuel IH]; intros rec fp Hp Hf; [lia|].
  cbn [scan_loop_with].
  destruct (scan_iter_with header_step zpos_cast rec fp)
    as [rec' fp'|r] eqn:E; [|eauto].
  destruct (scan_iter_with_progress _ _ _ _ Hp E) as (Hd & Hlt & Hfull).
  apply IH; [lia|]. rewrite Hd. lia.
Qed.

(** On a file made of whole blocks the position stays on a block
    boundary, and so does whatever the scan returns, short of -1. *)
Lemma scan_iter_with_aligned (rec : list byte) (fp : FILE) :
  0 <= f_pos fp -> f_pos fp mod 512 = 0 -> zlen (f_data fp) mod 512 = 0 ->
  match scan_iter_with header_step zpos_cast rec fp with
  | Continue _ fp' =>
      f_data fp' = f_data fp /\ 0 <= f_pos fp' /\ f_pos fp' mod 512 = 0
  | Return r => r = -1 \/ (0 <= r /\ r mod 512 = 0)
  end.
Proof.
  intros Hp Ha Hl. unfold scan_iter_with.
  pose proof (fread_count rec fp Hp) as C1.
  destruct (fread rec fp) as [[n rec1] fp1] eqn:E1.
  destruct C1 as (Hn & Hd1 & Hp1). unfold RECORD_SIZE, ftell.
  pose proof (zlen_nonneg (f_data fp)) as Hlen.
  destruct (Z.eqb_spec n 512) as [Hn512|Hn512].
  - destruct (is_block_empty rec1) eqn:He1.
    + pose proof (fread_count rec1 fp1 ltac:(lia)) as C2.
      destruct (fread rec1 fp1) as [[n2 rec2] fp2] eqn:E2.
      destruct C2 as (Hn2 & Hd2 & Hp2).
      destruct ((n2 =? 512) && is_block_empty rec2) eqn:Hc.
      * right. apply zpos_cast_aligned; [lia|].
        replace (f_pos fp1 - 512) with (f_pos fp) by lia. exact Ha.
      * assert (Hn2' : n2 = 0 \/ n2 = 512).
        { rewrite Hd1 in Hn2.
          assert (A : (zlen (f_data fp) - f_pos fp1) mod 512 = 0).
          { apply aligned_sub; [assumption|]. rewrite Hp1, Hn512.
            apply aligned_add; [assumption | reflexivity]. }
          pose proof (aligned_small _ A). lia. }
        assert (Hseek : fseek_cur fp2 (Z.opp 512)
                        = mkFILE (f_data fp) (f_pos fp + n2)).
        { rewrite fseek_cur_forward by lia. f_equal; [congruence | lia]. }
        rewrite Hseek.
        destruct (header_step_cases rec2
                    (mkFILE (f_data fp) (f_pos fp + n2))
                    ltac:(cbn; lia)) as [[_ R]|[V (skip & S1 & S2 & R)]];
          rewrite R; [left; reflexivity|].
        cbn [f_data f_pos]. split; [reflexivity|]. split; [lia|].
        repeat apply aligned_add; try assumption.
        destruct Hn2' as [-> | ->]; reflexivity.
    + destruct (header_step_cases rec1 fp1 ltac:(lia))
        as [[_ R]|[V (skip & S1 & S2 & R)]]; rewrite R;
        [left; reflexivity|].
      cbn [f_data f_pos]. split; [assumption|]. split; [lia|].
      rewrite Hp1, Hn512.
      repeat apply aligned_add; try assumption; reflexivity.
  - right.
    assert (A : (zlen (f_data fp) - f_pos fp) mod 512 = 0)
      by (apply aligned_sub; assumption).
    pose proof (aligned_small _ A).
    replace (f_pos fp1) with (f_pos fp) by lia. split; assumption.
Qed.

Lemma scan_loop_with_aligned (fuel : nat) :
  forall (rec : list byte) (fp : FILE) (r : Z),
  0 <= f_pos fp -> f_pos fp mod 512 = 0 -> zlen (f_data fp) mod 512 = 0 ->
  scan_loop_with header_step zpos_cast fuel rec fp = Some r ->
  r = -1 \/ (0 <= r /\ r mod 512 = 0).
Proof.
  induction fuel as [|fuel IH]; intros rec fp r Hp Ha Hl H; [discriminate|].
  cbn [scan_loop_with] in H.
  pose proof (scan_iter_with_aligned rec fp Hp Ha Hl) as I.
  destruct (scan_iter_with header_step zpos_cast rec fp) as [rec' fp'|r'].
  - destruct I as (Hd & Hp' & Ha').
    apply (IH rec' fp' r Hp' Ha'); [rewrite Hd; exact Hl | exact H].
  - injection H as <-. exact I.
Qed.

End ScanLoopFacts.

Lemma scan_iter_as_with (rec : list byte) (fp : FILE) :
  scan_iter rec fp = scan_iter_with scan_header (fun z => z) rec fp.
Proof. reflexivity. Qed.

Lemma scan_loop_as_with (fuel : nat) : forall (rec : list byte) (fp : FILE),
  scan_loop fuel rec fp = scan_loop_with scan_header (fun z => z) fuel rec fp.
Proof.
  induction fuel as [|fuel IH]; intros rec fp; [reflexivity|].
  cbn [scan_loop scan_loop_with]. rewrite scan_iter_as_with.
  destruct (scan_iter_with scan_header (fun z => z) rec fp);
    [apply IH | reflexivity].
Qed.

Lemma scan_iter_progress (rec rec' : list byte) (fp fp' : FILE) :
  0 <= f_pos fp ->
  scan_iter rec fp = Continue rec' fp' ->
  f_data fp' = f_data fp
  /\ f_pos fp < f_pos fp'
  /\ f_pos fp + 512 <= zlen (f_data fp).
Proof.
  rewrite scan_iter_as_with.
  apply scan_iter_with_progress, scan_header_cases.
Qed.

(** The scan always returns: the fuel [find_append_position] supplies is
    enough. *)
Lemma find_append_position_total (rec d : list byte) :
  exists r, find_append_position rec (mkFILE d 0) = Some r.
Proof.
  unfold find_append_position. cbn [f_data].
  rewrite scan_loop_as_with.
  apply scan_loop_with_total.
  - apply scan_header_cases.
  - cbn. lia.
  - cbn. unfold zlen. lia.
Qed.

Lemma scan_loop_more_fuel (n : nat) : forall (m : nat) (rec : list byte)
    (fp : FILE) (r : Z),
  scan_loop n rec fp = Some r -> (n <= m)%nat -> scan_loop m rec fp = Some r.
Proof.
  induction n as [|n IH]; intros m rec fp r H Hm; [discriminate|].
  destruct m as [|m]; [lia|]. cbn [scan_loop] in *.
  destruct (scan_iter rec fp); [|assumption]. apply IH; [assumption | lia].
Qed.

Lemma scan_state_after_position (k : nat) : forall (rec rec' : list byte)
    (fp fp' : FILE),
  0 <= f_pos fp ->
  scan_state_after k rec fp = Some (rec', fp') ->
  f_data fp' = f_data fp /\ f_pos fp + Z.of_nat k <= f_pos fp'.
Proof.
  induction k as [|k IH]; intros rec rec' fp fp' Hp H.
  - injection H as <- <-. split; [reflexivity | lia].
  - cbn [scan_state_after] in H.
    destruct (scan_iter rec fp) as [rec1 fp1|] eqn:E; [|discriminate].
    destruct (scan_iter_progress _ _ _ _ Hp E) as (Hd & Hlt & _).
    destruct (IH rec1 rec' fp1 fp' ltac:(lia) H) as (Hd' & Hle).
    split; [congruence | lia].
Qed.

Lemma scan_state_after_return (k : nat) : forall (rec rec' : list byte)
    (fp fp' : FILE) (r : Z),
  scan_state_after k rec fp = Some (rec', fp') ->
  scan_iter rec' fp' = Return r ->
  scan_loop (S k) rec fp = Some r.
Proof.
  induction k as [|k IH]; intros rec rec' fp fp' r H R.
  - injection H as <- <-. cbn [scan_loop]. rewrite R. reflexivity.
  - cbn [scan_state_after] in H. change (scan_loop (S (S k)) rec fp)
      with (match scan_iter rec fp with
            | Return pos => Some pos
            | Continue rec1 fp1 => scan_loop (S k) rec1 fp1
            end).
    destruct (scan_iter rec fp) as [rec1 fp1|]; [|discriminate].
    eapply IH; eassumption.
Qed.

(** A whole block that is neither empty nor a header ends the scan. *)
Lemma blocks_read_corrupt (rec : list byte) (fp : FILE) (b : list byte) :
  In b (blocks_read rec fp) ->
  is_block_empty b = false -> is_valid_tar_header b = false ->
  scan_iter rec fp = Return (-1).
Proof.
  unfold blocks_read, scan_iter.
  destruct (fread rec fp) as [[n rec1] fp1].
  destruct (n =? RECORD_SIZE); [|intros []].
  destruct (is_block_empty rec1) eqn:He1.
  - destruct (fread rec1 fp1) as [[n2 rec2] fp2].
    intros [<-|Hin] He Hv; [congruence|].
    destruct (n2 =? RECORD_SIZE); [|destruct Hin].
    destruct Hin as [<-|[]]. rewrite He. cbn [andb].
    unfold scan_header. rewrite Hv. reflexivity.
  - intros [<-|[]] He Hv. unfold scan_header. rewrite Hv. reflexivity.
Qed.

Lemma blocks_read_full (rec : list byte) (fp : FILE) (b : list byte) :
  0 <= f_pos fp -> In b (blocks_read rec fp) ->
  f_pos fp + 512 <= zlen (f_data fp).
Proof.
  intros Hp. unfold blocks_read.
  pose proof (fread_count rec fp Hp) as C.
  destruct (fread rec fp) as [[n rec1] fp1]. destruct C as (Hn & _).
  unfold RECORD_SIZE. destruct (Z.eqb_spec n 512); [|intros []]. lia.
Qed.

(** C1: if at any pass the append scan reads a whole 512-byte block that
    is not empty and does not carry "ustar" at offset 257, then
    [find_append_position] returns -1 and the append run ends through
    [exit( 1 )] with the corruption message, nothing written: the
    archive holds the bytes it held before. *)
Theorem C1_append_corrupt_archive_untouched
    (w : world) (argv : list (list byte)) (d : list byte)
    (k : nat) (rec : list byte) (fp : FILE) (b : list byte) :
  archive_file w = Some d ->
  scan_state_after k record0 (mkFILE d 0) = Some (rec, fp) ->
  In b (blocks_read rec fp) ->
  is_block_empty b = false ->
  is_valid_tar_header b = false ->
  find_append_position record0 (mkFILE d 0) = Some (-1)
  /\ mode_create_append true record0 w argv
     = Some (mkOutcome (Exited 1) (Some d) []
               [Printed (lit "Invalid or corrupt TAR archive")] []).
Proof.
  intros Ha Hs Hin He Hv.
  assert (F : find_append_position record0 (mkFILE d 0) = Some (-1)).
  { unfold find_append_position. cbn [f_data].
    change (fseek_set (mkFILE d 0) 0) with (mkFILE d 0).
    destruct (scan_state_after_position k record0 rec (mkFILE d 0) fp
                ltac:(cbn; lia) Hs) as (Hd & Hpos).
    cbn [f_pos f_data] in Hd, Hpos.
    pose proof (blocks_read_full rec fp b ltac:(lia) Hin) as Hfull.
    rewrite Hd in Hfull. unfold zlen in Hfull.
    apply (scan_loop_more_fuel (S k)); [|lia].
    eapply scan_state_after_return; [exact Hs|].
    eapply blocks_read_corrupt; eassumption. }
  split; [exact F|].
  unfold mode_create_append. rewrite Ha, F. reflexivity.
Qed.

(* ------------------------------------------------------------------ *)
(** ** The scan of revision 20250502 *)

Lemma land_block_mask (x : Z) :
  0 <= x -> 0 <= Z.land x (wrap_uint32 (- RECORD_SIZE))
            /\ Z.land x (wrap_uint32 (- RECORD_SIZE)) mod 512 = 0.
Proof.
  intros Hx. change (wrap_uint32 (- RECORD_SIZE)) with 4294966784.
  split; [apply Z.land_nonneg; auto|].
  change 512 with (2 ^ 9). rewrite <- Z.land_ones by lia.
  rewrite <- Z.land_assoc. change (Z.land 4294966784 (Z.ones 9)) with 0.
  apply Z.land_0_r.
Qed.

Lemma legacy_scan_header_cases (rec : list byte) (fp : FILE) :
  0 <= f_pos fp ->
  (is_valid_tar_header rec = false /\ Legacy.scan_header rec fp = Return (-1))
  \/ (is_valid_tar_header rec = true
      /\ exists skip, 0 <= skip /\ skip mod 512 = 0
         /\ Legacy.scan_header rec fp
            = Continue rec (mkFILE (f_data fp) (f_pos fp + skip))).
Proof.
  intros Hp. unfold Legacy.scan_header.
  destruct (is_valid_tar_header rec); cbn [negb]; [right | left; auto].
  split; [reflexivity|].
  set (x := wrap_uint32
              (wrap_uint32 (Legacy.octal_to_int32 (skipn 124 rec) 12)
               + RECORD_SIZE - 1)).
  assert (Hx : 0 <= x) by (apply Z.mod_pos_bound; lia).
  destruct (land_block_mask x Hx) as [S1 S2].
  eexists. split; [exact S1|]. split; [exact S2|].
  rewrite fseek_cur_forward by lia. reflexivity.
Qed.

Lemma wrap_uint32_aligned (p : Z) :
  0 <= p -> p mod 512 = 0 -> 0 <= wrap_uint32 p /\ wrap_uint32 p mod 512 = 0.
Proof.
  intros Hp Ha. unfold wrap_uint32. split; [apply Z.mod_pos_bound; lia|].
  change (2 ^ 32) with (512 * 8388608).
  rewrite Z.rem_mul_r by lia.
  rewrite Z.add_mod, Z.mul_comm, Z.mod_mul, Z.mod_mod, Ha by lia.
  reflexivity.
Qed.

Lemma legacy_scan_loop_as_with (fuel : nat) :
  forall (rec : list byte) (fp : FILE),
  Legacy.scan_loop fuel rec fp
  = scan_loop_with Legacy.scan_header wrap_uint32 fuel rec fp.
Proof.
  induction fuel as [|fuel IH]; intros rec fp; [reflexivity|].
  cbn [Legacy.scan_loop scan_loop_with].
  change (Legacy.scan_iter rec fp)
    with (scan_iter_with Legacy.scan_header wrap_uint32 rec fp).
  destruct (scan_iter_with Legacy.scan_header wrap_uint32 rec fp);
    [apply IH | reflexivity].
Qed.

Lemma legacy_find_append_position_total (rec d : list byte) :
  exists r, Legacy.find_append_position rec (mkFILE d 0) = Some r.
Proof.
  unfold Legacy.find_append_position. cbn [f_data].
  rewrite legacy_scan_loop_as_with.
  apply scan_loop_with_total.
  - apply legacy_scan_header_cases.
  - cbn. lia.
  - cbn. unfold zlen. lia.
Qed.

(** C10, as amended: on an archive whose length is a multiple of 512 the
    scan returns, and what it returns is -1 (corruption) or a
    non-negative multiple of 512; so headers appended to such an archive
    start on a block boundary.  This holds for both revisions of
    [find_append_position] and whatever [record] holds on entry. *)
Theorem C10_insertion_point_block_aligned (rec d : list byte) :
  zlen d mod 512 = 0 ->
  (exists r, find_append_position rec (mkFILE d 0) = Some r
             /\ (r = -1 \/ (0 <= r /\ r mod 512 = 0)))
  /\ (exists r, Legacy.find_append_position rec (mkFILE d 0) = Some r
                /\ (r = -1 \/ (0 <= r /\ r mod 512 = 0))).
Proof.
  intros Hl. split.
  - destruct (find_append_position_total rec d) as (r & E).
    exists r. split; [exact E|].
    unfold find_append_position in E. rewrite scan_loop_as_with in E.
    eapply scan_loop_with_aligned; [apply scan_header_cases | | | | | exact E].
    + intros p Hp Ha. split; assumption.
    + cbn. lia.
    + reflexivity.
    + exact Hl.
  - destruct (legacy_find_append_position_total rec d) as (r & E).
    exists r. split; [exact E|].
    unfold Legacy.find_append_position in E.
    rewrite legacy_scan_loop_as_with in E.
    eapply scan_loop_with_aligned;
      [apply legacy_scan_header_cases | apply wrap_uint32_aligned | | | | exact E].
    + cbn. lia.
    + reflexivity.
    + exact Hl.
Qed.

(** C10 as stated fails: on a one-byte file the first read is short and
    the scan returns the end-of-file offset 1, which is no multiple of
    512. *)
Lemma C10_short_file_unaligned :
  find_append_position record0 (mkFILE [x01] 0) = Some 1
  /\ Legacy.find_append_position record0 (mkFILE [x01] 0) = Some 1
  /\ 1 <> -1 /\ 1 mod 512 <> 0.
Proof. repeat split; try reflexivity; discriminate. Qed.

(* ------------------------------------------------------------------ *)
(** ** The false alarm *)

Lemma zero_block_empty : is_block_empty (repeat x00 512) = true.
Proof. reflexivity. Qed.

(** What the loop body does at an all-zero block at offset [z] that is
    followed by a whole non-empty block: after the seek back the position
    is [z + 512], the start of the non-empty block, and the code falls
    through to the header part with that block in [record].  Both
    revisions do this. *)
Lemma false_alarm_step (rec pre blk rest : list byte) :
  length rec = 512%nat ->
  length blk = 512%nat ->
  is_block_empty blk = false ->
  let file := pre ++ repeat x00 512 ++ blk ++ rest in
  let z := zlen pre in
  scan_iter rec (mkFILE file z) = scan_header blk (mkFILE file (z + 512))
  /\ Legacy.scan_iter rec (mkFILE file z)
     = Legacy.scan_header blk (mkFILE file (z + 512)).
Proof.
  intros Hr Hb He file z.
  assert (R1 : fread rec (mkFILE file z)
               = (512, repeat x00 512, mkFILE file (z + 512))).
  { apply fread_block; [apply repeat_length | exact Hr]. }
  assert (R2 : fread (repeat x00 512) (mkFILE file (z + 512))
               = (512, blk, mkFILE file (z + 512 + 512))).
  { unfold file, z.
    replace (zlen pre + 512) with (zlen (pre ++ repeat x00 512))
      by (rewrite zlen_app; reflexivity).
    rewrite (app_assoc pre (repeat x00 512)).
    apply fread_block; [exact Hb | apply repeat_length]. }
  assert (S : fseek_cur (mkFILE file (z + 512 + 512)) (- RECORD_SIZE)
              = mkFILE file (z + 512)).
  { rewrite fseek_cur_forward; cbn [f_pos f_data]; unfold RECORD_SIZE, z.
    - f_equal. lia.
    - pose proof (zlen_nonneg pre). lia. }
  split.
  - unfold scan_iter. rewrite R1. change (512 =? RECORD_SIZE) with true.
    cbv iota. rewrite zero_block_empty, R2, He.
    change ((512 =? RECORD_SIZE) && false) with false. cbv iota.
    rewrite S. reflexivity.
  - unfold Legacy.scan_iter. rewrite R1. change (512 =? RECORD_SIZE) with true.
    cbv iota. rewrite zero_block_empty, R2, He.
    change ((512 =? RECORD_SIZE) && false) with false. cbv iota.
    rewrite S. reflexivity.
Qed.

(* ------------------------------------------------------------------ *)
(** ** Appending to an archive without terminator *)

Lemma valid_entry_split (e : list byte) :
  valid_entry e = true ->
  exists h c,
    e = h ++ c /\ length h = 512%nat
    /\ is_valid_tar_header h = true
    /\ padded_size (octal_to_long (skipn 124 h) 12) = zlen c.
Proof.
  unfold valid_entry. rewrite !andb_true_iff, Z.leb_le, Z.eqb_eq.
  intros [[Hl Hv] Hs].
  assert (L : (512 <= length e)%nat) by (unfold zlen in Hl; lia).
  exists (firstn 512 e), (skipn 512 e).
  rewrite firstn_skipn. split; [reflexivity|].
  split; [apply firstn_length_le, L|]. split.
  - apply is_valid_tar_header_spec. rewrite field_firstn by lia.
    apply is_valid_tar_header_spec, Hv.
  - rewrite header_size_field, field_firstn, <- header_size_field by lia.
    rewrite <- Hs. unfold zlen. rewrite length_skipn. lia.
Qed.

Lemma valid_entries_count (entries : list (list byte)) :
  Forall (fun e => valid_entry e = true) entries ->
  (length entries <= length (concat entries))%nat.
Proof.
  induction 1 as [|e es He _ IH]; [simpl; lia|].
  destruct (valid_entry_split e He) as (h & c & -> & Hh & _).
  simpl. rewrite !length_app, Hh. lia.
Qed.

(** The scan walks over valid entries and stops at the end of the file. *)
Lemma scan_valid_entries (entries : list (list byte)) :
  forall (pre rec : list byte) (fuel : nat),
  Forall (fun e => valid_entry e = true) entries ->
  length rec = 512%nat ->
  (length entries < fuel)%nat ->
  scan_loop fuel rec (mkFILE (pre ++ concat entries) (zlen pre))
  = Some (zlen (pre ++ concat entries)).
Proof.
  induction entries as [|e es IH]; intros pre rec fuel Hv Hr Hf;
    (destruct fuel as [|fuel]; [simpl in Hf; lia|]); cbn [scan_loop].
  - unfold scan_iter. simpl concat.
    rewrite fread_tail by (simpl; lia).
    change (zlen (@nil byte)) with 0.
    change (0 =? RECORD_SIZE) with false. cbv iota.
    unfold ftell. cbn [f_pos]. rewrite zlen_app. reflexivity.
  - inversion Hv as [|? ? He Hes]; subst.
    destruct (valid_entry_split e He) as (h & c & -> & Hh & Hm & Hs).
    simpl concat. rewrite <- !app_assoc.
    unfold scan_iter. rewrite fread_block by assumption.
    change (512 =? RECORD_SIZE) with true. cbv iota.
    destruct (is_block_empty h) eqn:Hempty.
    { rewrite (empty_block_not_valid h Hempty) in Hm. discriminate. }
    unfold scan_header. rewrite Hm. cbn [negb]. rewrite Hs.
    pose proof (zlen_nonneg pre). pose proof (zlen_nonneg c).
    rewrite fseek_cur_forward by (cbn [f_pos]; lia). cbn [f_data f_pos].
    replace (zlen pre + 512 + zlen c) with (zlen (pre ++ h ++ c))
      by (rewrite !zlen_app; unfold zlen at 2; rewrite Hh; lia).
    replace (pre ++ h ++ c ++ concat es) with ((pre ++ h ++ c) ++ concat es)
      by (rewrite <- !app_assoc; reflexivity).
    apply IH; [assumption | assumption | simpl in Hf; lia].
Qed.

(** C8: on an archive that consists of valid entries and lacks the
    terminator, the scan runs into the short read at the end of the file
    and returns the end-of-file offset; the append run then returns
    normally and leaves the old bytes, unchanged, followed by the entries
    of the accepted new files and a terminator. *)
Theorem C8_append_to_truncated_archive
    (w : world) (argv : list (list byte)) (entries : list (list byte)) :
  Forall (fun e => valid_entry e = true) entries ->
  archive_file w = Some (concat entries) ->
  let d := concat entries in
  find_append_position record0 (mkFILE d 0) = Some (zlen d)
  /\ exists e,
       mode_create_append true record0 w argv
       = Some (mkOutcome Returned
                 (Some (d ++ entries_bytes (sources w) (skipn 3 argv)
                          ++ terminator))
                 [] e []).
Proof.
  intros Hv Ha d.
  assert (F : find_append_position record0 (mkFILE d 0) = Some (zlen d)).
  { unfold find_append_position. cbn [f_data].
    change (fseek_set (mkFILE d 0) 0) with (mkFILE ([] ++ d) (zlen (@nil byte))).
    unfold d. rewrite (scan_valid_entries entries [] record0).
    - reflexivity.
    - assumption.
    - apply repeat_length.
    - pose proof (valid_entries_count entries Hv). simpl. lia. }
  split; [exact F|].
  unfold mode_create_append. rewrite Ha. fold d. rewrite F.
  pose proof (zlen_nonneg d) as Hd.
  destruct (Z.ltb_spec (zlen d) 0) as [|_]; [lia|].
  unfold fseek_set. destruct (Z.ltb_spec (zlen d) 0) as [|_]; [lia|].
  cbn [f_data].
  destruct (write_archive_tail (sources w) (skipn 3 argv) record0 d
              ltac:(apply repeat_length)) as (wr & E & D).
  rewrite E, D. eauto.
Qed.

(* ------------------------------------------------------------------ *)
(** ** Reading the fields of a written header *)

Lemma field_store_prefix (off n : nat) (src dst : list byte) :
  (n <= length src)%nat -> (off + length src <= length dst)%nat ->
  field off n (store off src dst) = firstn n src.
Proof.
  intros Hn H.
  destruct (split_region off (length src) dst H) as (p & m & r & -> & Hp & Hm).
  rewrite store_split by assumption. unfold field.
  rewrite skipn_app_exact by assumption.
  rewrite firstn_app. replace (n - length src)%nat with 0%nat by lia.
  simpl. apply app_nil_r.
Qed.

Lemma field_store_same_n (off n : nat) (src dst : list byte) :
  length src = n -> (off + n <= length dst)%nat ->
  field off n (store off src dst) = src.
Proof. intros <- H. apply field_store_same, H. Qed.

Lemma tar_header_name_field (filename : list byte) (filesize mtime : Z) :
  field 0 100 (tar_header filename filesize mtime) = strncpy 100 filename.
Proof.
  pose proof (tar_header_blank_length filename filesize mtime) as L.
  rewrite tar_header_as_store. cbv zeta.
  rewrite field_store_behind by lia.
  unfold tar_header_blank.
  repeat (rewrite field_store_behind by store_len).
  apply field_store_same_n; [apply strncpy_length | rewrite repeat_length; lia].
Qed.

Lemma tar_header_size_field (filename : list byte) (filesize mtime : Z) :
  field 124 12 (tar_header filename filesize mtime) = long_to_octal 12 filesize.
Proof.
  pose proof (tar_header_blank_length filename filesize mtime) as L.
  rewrite tar_header_as_store. cbv zeta.
  rewrite field_store_behind by lia.
  unfold tar_header_blank.
  repeat (rewrite field_store_behind by store_len).
  apply field_store_same_n; [apply long_to_octal_length; lia | store_len].
Qed.

Lemma tar_header_magic_field (filename : list byte) (filesize mtime : Z) :
  field 257 5 (tar_header filename filesize mtime) = lit "ustar".
Proof.
  pose proof (tar_header_blank_length filename filesize mtime) as L.
  rewrite tar_header_as_store. cbv zeta.
  rewrite field_store_before
    by (rewrite length_app, oct_digits_length; simpl; lia).
  unfold tar_header_blank.
  repeat (rewrite field_store_behind by store_len).
  rewrite field_store_prefix by store_len. reflexivity.
Qed.

Lemma tar_header_valid (filename : list byte) (filesize mtime : Z) :
  is_valid_tar_header (tar_header filename filesize mtime) = true.
Proof. apply is_valid_tar_header_spec, tar_header_magic_field. Qed.

Lemma tar_header_not_empty (filename : list byte) (filesize mtime : Z) :
  is_block_empty (tar_header filename filesize mtime) = false.
Proof.
  destruct (is_block_empty _) eqn:E; [|reflexivity].
  apply empty_block_not_valid in E. rewrite tar_header_valid in E.
  discriminate.
Qed.

(** The size a reader decodes is the size the writer was given, for
    sizes that fit the eleven digits of the field. *)
Lemma tar_header_size (filename : list byte) (filesize mtime : Z) :
  0 <= filesize < 8 ^ 11 ->
  octal_to_long (skipn 124 (tar_header filename filesize mtime)) 12 = filesize.
Proof.
  intros Hs. rewrite header_size_field, tar_header_size_field.
  rewrite long_to_octal_small by (simpl; lia).
  change (12 - 1)%nat with 11%nat.
  assert (E : filter is_octal_digit (firstn 12 (oct_digits 11 filesize ++ [x00]))
              = oct_digits 11 filesize).
  { rewrite firstn_all2 by (rewrite length_app, oct_digits_length; simpl; lia).
    rewrite filter_app. change (filter is_octal_digit [x00]) with (@nil byte).
    rewrite app_nil_r. apply filter_all_true, oct_digits_all_octal. }
  rewrite octal_to_long_filter by (rewrite E, oct_digits_length; lia).
  rewrite E, octal_value_oct_digits by lia.
  rewrite Z.mod_small by (simpl; lia). lia.
Qed.

Lemma field_at_0 (n : nat) (buf : list byte) : firstn n buf = field 0 n buf.
Proof. reflexivity. Qed.

Lemma entry_name_from_firstn (rec : list byte) : forall n,
  entry_name_from (firstn n rec) n = entry_name_from rec n.
Proof.
  induction rec as [|c rec IH]; intros [|n]; try reflexivity.
  simpl. destruct (b2z c =? 0); [reflexivity|]. rewrite IH. reflexivity.
Qed.

Lemma isprint_not_nul (c : byte) : isprint c = true -> (b2z c =? 0) = false.
Proof.
  unfold isprint. rewrite andb_true_iff, !Z.leb_le. intros [H _].
  apply Z.eqb_neq. lia.
Qed.

Lemma c_str_printable (s : list byte) :
  forallb isprint s = true -> c_str s = s.
Proof.
  induction s as [|c s IH]; [reflexivity|]. simpl.
  rewrite andb_true_iff. intros [Hc Hs].
  rewrite (isprint_not_nul c Hc), IH by assumption. reflexivity.
Qed.

Lemma entry_name_from_printable (s : list byte) : forall (k n : nat),
  forallb isprint s = true -> n = (length s + k)%nat ->
  entry_name_from (s ++ repeat x00 k) n = s.
Proof.
  induction s as [|c s IH]; intros k n Hs ->.
  - simpl. destruct k; reflexivity.
  - simpl in Hs. apply andb_true_iff in Hs as [Hc Hs]. simpl.
    rewrite (isprint_not_nul c Hc), Hc, (IH k) by (assumption || reflexivity).
    reflexivity.
Qed.

(** The name a reader decodes is the name the writer was given, for
    printable names of at most 100 bytes. *)
Lemma tar_header_name (filename : list byte) (filesize mtime : Z) :
  printable_name filename = true ->
  entry_name (tar_header filename filesize mtime) = filename.
Proof.
  unfold printable_name. rewrite andb_true_iff, Nat.leb_le. intros [Hp Hl].
  unfold entry_name. change (Z.to_nat (NAME_SIZE - 1)) with 100%nat.
  rewrite <- entry_name_from_firstn.
  rewrite (field_at_0 100 (tar_header filename filesize mtime)).
  rewrite tar_header_name_field. unfold strncpy.
  rewrite c_str_printable, firstn_all2 by (assumption || lia).
  apply entry_name_from_printable; [assumption | lia].
Qed.

(* ------------------------------------------------------------------ *)
(** ** Reading a created archive back *)

Lemma extract_content_spec (fuel : nat) :
  forall (c rec pre rest written : list byte),
  (length c < fuel)%nat -> length rec = 512%nat ->
  exists rec',
    extract_content fuel rec
      (mkFILE (pre ++ pad512 c ++ rest) (zlen pre)) written (zlen c)
    = Some (rec',
            mkFILE (pre ++ pad512 c ++ rest) (zlen pre + zlen (pad512 c)),
            written ++ c)
    /\ length rec' = 512%nat.
Proof.
  induction fuel as [|fuel IH]; intros c rec pre rest written Hf Hr; [lia|].
  destruct c as [|b c0].
  - exists rec. rewrite pad512_nil, app_nil_r. simpl app.
    change (zlen (@nil byte)) with 0. rewrite Z.add_0_r.
    split; [reflexivity | assumption].
  - set (c := b :: c0) in *.
    assert (Hc : (0 < length c)%nat) by (simpl; lia).
    cbn [extract_content].
    replace (zlen c >? 0) with true
      by (unfold zlen; symmetry; apply Z.gtb_lt; lia).
    destruct (Nat.lt_ge_cases (length c) 512) as [Hs|Hl].
    + (* the last, short block: the padding is read and dropped *)
      destruct (pad512_short c ltac:(lia)) as [Ep Lp].
      rewrite fread_block by assumption.
      replace (zlen c >? RECORD_SIZE) with false
        by (unfold zlen, RECORD_SIZE;
            destruct (Z.gtb_spec (Z.of_nat (length c)) 512); [lia | reflexivity]).
      assert (Hfirst : firstn (length c) (pad512 c) = c)
        by (rewrite Ep; apply firstn_app_exact; reflexivity).
      rewrite to_nat_zlen, Hfirst, Z.sub_diag.
      replace (zlen (pad512 c)) with 512 by (unfold zlen; rewrite Lp; reflexivity).
      exists (pad512 c). split; [|assumption].
      destruct fuel; reflexivity.
    + (* a full block *)
      destruct (split_region 0 512 c ltac:(lia)) as (p & blk & c' & Ec & Hp & Hb).
      destruct p; [|discriminate]. simpl in Ec. rewrite Ec in *.
      rewrite pad512_block, <- app_assoc by assumption.
      rewrite fread_block by assumption.
      assert (Hto : (if zlen (blk ++ c') >? RECORD_SIZE then RECORD_SIZE
                     else zlen (blk ++ c')) = 512).
      { rewrite zlen_app. unfold zlen, RECORD_SIZE. rewrite Hb.
        destruct (Z.gtb_spec (Z.of_nat 512 + Z.of_nat (length c')) 512); lia. }
      rewrite Hto. change (Z.to_nat 512) with 512%nat.
      rewrite firstn_all2 by lia.
      replace (zlen (blk ++ c') - 512) with (zlen c')
        by (rewrite zlen_app; unfold zlen; lia).
      replace (mkFILE (pre ++ blk ++ pad512 c' ++ rest) (zlen pre + 512))
        with (mkFILE ((pre ++ blk) ++ pad512 c' ++ rest) (zlen (pre ++ blk)))
        by (rewrite <- app_assoc, zlen_app; unfold zlen; rewrite Hb; reflexivity).
      destruct (IH c' blk (pre ++ blk) rest (written ++ blk))
        as (rec' & E & L); [rewrite length_app in Hf; lia | assumption |].
      rewrite E. exists rec'. split; [|assumption].
      rewrite <- !app_assoc, !zlen_app, Z.add_assoc. reflexivity.
Qed.

Section ReadBack.

Variable fs : filesystem.
Variable can_create : list byte -> bool.

Lemma portable_tail (filename : list byte) (names : list (list byte)) :
  portable fs can_create (filename :: names) -> portable fs can_create names.
Proof. intros H f st Hin. apply H. right. exact Hin. Qed.

Lemma terminator_blocks : terminator = repeat x00 512 ++ repeat x00 512.
Proof. reflexivity. Qed.

Lemma extract_loop_created (names : list (list byte)) :
  forall (pre rec : list byte) (fuel : nat) (o e : list message)
         (files : list (list byte * list byte)),
  portable fs can_create names ->
  length rec = 512%nat ->
  (length (accepted_files fs names) < fuel)%nat ->
  exists o',
    extract_loop can_create fuel rec
      (mkFILE (pre ++ entries_bytes fs names ++ terminator) (zlen pre))
      o e files
    = Some (o', e, files ++ accepted_files fs names).
Proof.
  induction names as [|filename names IH];
    intros pre rec fuel o e files Hok Hr Hf.
  - destruct fuel as [|fuel]; [simpl in Hf; lia|].
    cbn [extract_loop entries_bytes accepted_files]. simpl app.
    rewrite terminator_blocks, fread_block by (assumption || apply repeat_length).
    change (512 =? RECORD_SIZE) with true. cbv iota.
    rewrite zero_block_empty, app_nil_r. eauto.
  - cbn [entries_bytes accepted_files] in *.
    destruct (accepted fs filename) as [st|] eqn:A.
    2:{ apply IH; [eapply portable_tail; eassumption | assumption
                  | assumption]. }
    destruct fuel as [|fuel]; [simpl in Hf; lia|].
    destruct (Hok filename st (or_introl eq_refl) A) as (Hn & Hs & Hc).
    pose proof (zlen_nonneg (st_data st)) as Hs0.
    set (h := tar_header filename (zlen (st_data st)) (st_mtime st)).
    assert (Lh : length h = 512%nat) by apply tar_header_length.
    assert (Ee : is_block_empty h = false) by apply tar_header_not_empty.
    assert (Ev : is_valid_tar_header h = true) by apply tar_header_valid.
    assert (En : entry_name h = filename)
      by (apply tar_header_name; assumption).
    assert (Es : octal_to_long (skipn 124 h) 12 = zlen (st_data st))
      by (apply tar_header_size; lia).
    unfold entry_bytes. fold h. rewrite <- !app_assoc.
    cbn [extract_loop]. rewrite fread_block by assumption.
    change (512 =? RECORD_SIZE) with true. cbv iota.
    rewrite Ee, Ev. cbn [negb]. rewrite En, Es, Hc.
    replace (mkFILE (pre ++ h ++ pad512 (st_data st)
                       ++ entries_bytes fs names ++ terminator)
                    (zlen pre + 512))
      with (mkFILE ((pre ++ h) ++ pad512 (st_data st)
                      ++ entries_bytes fs names ++ terminator)
                   (zlen (pre ++ h)))
      by (rewrite <- app_assoc, zlen_app; unfold zlen; rewrite Lh; reflexivity).
    destruct (extract_content_spec (S (Z.to_nat (zlen (st_data st))))
                (st_data st) h (pre ++ h)
                (entries_bytes fs names ++ terminator) [])
      as (rec' & E & L); [rewrite to_nat_zlen; lia | assumption |].
    rewrite E. simpl app.
    replace (mkFILE ((pre ++ h) ++ pad512 (st_data st)
                       ++ entries_bytes fs names ++ terminator)
                    (zlen (pre ++ h) + zlen (pad512 (st_data st))))
      with (mkFILE ((pre ++ h ++ pad512 (st_data st))
                      ++ entries_bytes fs names ++ terminator)
                   (zlen (pre ++ h ++ pad512 (st_data st))))
      by (rewrite <- !app_assoc, !zlen_app; f_equal; lia).
    edestruct (IH (pre ++ h ++ pad512 (st_data st)) rec' fuel) as (o' & E');
      [eapply portable_tail; eassumption | exact L | simpl in Hf; lia |].
    rewrite E'. rewrite <- app_assoc. simpl app. eauto.
Qed.

Lemma list_loop_created (names : list (list byte)) :
  forall (pre rec : list byte) (fuel : nat) (o e : list message),
  portable fs can_create names ->
  length rec = 512%nat ->
  (length (accepted_files fs names) < fuel)%nat ->
  list_loop fuel rec
    (mkFILE (pre ++ entries_bytes fs names ++ terminator) (zlen pre)) o e
  = Some (o ++ accepted_lines fs names, e).
Proof.
  induction names as [|filename names IH];
    intros pre rec fuel o e Hok Hr Hf.
  - destruct fuel as [|fuel]; [simpl in Hf; lia|].
    cbn [list_loop entries_bytes accepted_lines]. simpl app.
    rewrite terminator_blocks, fread_block by (assumption || apply repeat_length).
    change (512 =? RECORD_SIZE) with true. cbv iota.
    rewrite zero_block_empty, app_nil_r. reflexivity.
  - cbn [entries_bytes accepted_lines accepted_files] in *.
    destruct (accepted fs filename) as [st|] eqn:A.
    2:{ apply IH; [eapply portable_tail; eassumption | assumption
                  | assumption]. }
    destruct fuel as [|fuel]; [simpl in Hf; lia|].
    destruct (Hok filename st (or_introl eq_refl) A) as (Hn & Hs & Hc).
    pose proof (zlen_nonneg (st_data st)) as Hs0.
    set (h := tar_header filename (zlen (st_data st)) (st_mtime st)).
    assert (Lh : length h = 512%nat) by apply tar_header_length.
    assert (Ee : is_block_empty h = false) by apply tar_header_not_empty.
    assert (Ev : is_valid_tar_header h = true) by apply tar_header_valid.
    assert (En : entry_name h = filename)
      by (apply tar_header_name; assumption).
    assert (Es : octal_to_long (skipn 124 h) 12 = zlen (st_data st))
      by (apply tar_header_size; lia).
    unfold entry_bytes. fold h. rewrite <- !app_assoc.
    cbn [list_loop]. rewrite fread_block by assumption.
    change (512 =? RECORD_SIZE) with true. cbv iota.
    rewrite Ee, Ev. cbn [negb]. rewrite En, Es.
    rewrite padded_size_eq, <- pad512_length by lia.
    pose proof (zlen_nonneg pre). pose proof (zlen_nonneg (pad512 (st_data st))).
    rewrite fseek_cur_forward by (cbn [f_pos]; lia). cbn [f_data f_pos].
    replace (mkFILE (pre ++ h ++ pad512 (st_data st)
                       ++ entries_bytes fs names ++ terminator)
                    (zlen pre + 512 + zlen (pad512 (st_data st))))
      with (mkFILE ((pre ++ h ++ pad512 (st_data st))
                      ++ entries_bytes fs names ++ terminator)
                   (zlen (pre ++ h ++ pad512 (st_data st))))
      by (rewrite <- !app_assoc, !zlen_app; f_equal;
          change (zlen h) with (Z.of_nat (length h)); rewrite Lh; lia).
    rewrite IH by (try (eapply portable_tail; eassumption); try assumption;
                   simpl in Hf; lia).
    rewrite <- app_assoc. reflexivity.
Qed.

End ReadBack.

Lemma accepted_files_all (fs : filesystem) (names : list (list byte)) :
  forall filename,
    In filename names ->
    forall st, accepted fs filename = Some st ->
    lookup_file filename (accepted_files fs names) = Some (st_data st).
Proof.
  induction names as [|n names IH]; intros filename Hin st Hst; [destruct Hin|].
  cbn [accepted_files].
  destruct (list_eq_dec Byte.byte_eq_dec n filename) as [->|Hne].
  - rewrite Hst. cbn [lookup_file].
    destruct (in_dec (list_eq_dec Byte.byte_eq_dec) filename names) as [Hin'|Hnin].
    + rewrite (IH filename Hin' st Hst). reflexivity.
    + assert (N : lookup_file filename (accepted_files fs names) = None).
      { clear - Hnin. induction names as [|m names IH]; [reflexivity|].
        cbn [accepted_files].
        assert (m <> filename) by (intros ->; apply Hnin; left; reflexivity).
        assert (~ In filename names) by (intros H'; apply Hnin; right; exact H').
        destruct (accepted fs m); [cbn [lookup_file]|]; rewrite IH by assumption;
          [destruct (list_eq_dec Byte.byte_eq_dec m filename); congruence
          | reflexivity]. }
      rewrite N. destruct (list_eq_dec Byte.byte_eq_dec filename filename);
        [reflexivity | congruence].
  - destruct Hin as [->|Hin]; [congruence|].
    specialize (IH filename Hin st Hst).
    destruct (accepted fs n); [cbn [lookup_file]|]; rewrite IH; reflexivity.
Qed.

(** Every accepted file takes at least its header block. *)
Lemma accepted_files_count (fs : filesystem) (names : list (list byte)) :
  (length (accepted_files fs names) <= length (entries_bytes fs names))%nat.
Proof.
  induction names as [|n names IH]; [simpl; lia|].
  cbn [entries_bytes accepted_files]. destruct (accepted fs n); [|exact IH].
  unfold entry_bytes. rewrite !length_app, tar_header_length.
  simpl length. lia.
Qed.

(** C2: creating an archive from source files whose names are printable
    and at most 100 bytes long, and extracting it, writes for every one
    of them, in order, a file of the same name with the same bytes.  The
    sources are files [write_file] accepts, of a size the header's size
    field can hold (below 8^11 bytes, the range of the data model);
    the archive and the outputs can be created. *)
Theorem C2_create_extract_round_trip (w : world) (argv : list (list byte)) :
  let names := skipn 3 argv in
  creatable w (nth 2 argv []) = true ->
  (forall filename, In filename names ->
     exists st, accepted (sources w) filename = Some st
                /\ printable_name filename = true
                /\ zlen (st_data st) < 8 ^ 11
                /\ creatable w filename = true) ->
  exists o d o',
    mode_create_append false record0 w argv = Some o
    /\ ctl o = Returned /\ arch o = Some d
    /\ mode_extract record0 (mkWorld (sources w) (Some d) (creatable w))
       = Some o'
    /\ ctl o' = Returned /\ err o' = []
    /\ extracted o' = accepted_files (sources w) names
    /\ forall filename, In filename names ->
         exists st, sources w filename = Some st
                    /\ lookup_file filename (extracted o') = Some (st_data st).
Proof.
  intros names Hc Hsrc.
  destruct (mode_create_spec w argv Hc) as (e & E). fold names in E.
  assert (P : portable (sources w) (creatable w) names).
  { intros filename st Hin Hst.
    destruct (Hsrc filename Hin) as (st' & Hst' & Hn & Hs & Hcr).
    rewrite Hst in Hst'. injection Hst' as <-. auto. }
  destruct (extract_loop_created (sources w) (creatable w) names [] record0
              (S (length (entries_bytes (sources w) names ++ terminator)))
              [] [] [] P ltac:(apply repeat_length))
    as (o' & X).
  { pose proof (accepted_files_count (sources w) names) as L.
    rewrite length_app. lia. }
  simpl app in X. change (zlen (@nil byte)) with 0 in X.
  eexists. eexists. eexists.
  split; [exact E|]. cbn [ctl arch].
  split; [reflexivity|]. split; [reflexivity|].
  unfold mode_extract. cbn [archive_file creatable]. rewrite X. cbn [ctl err extracted].
  repeat (split; [reflexivity|]).
  intros filename Hin.
  destruct (Hsrc filename Hin) as (st & Hst & _).
  exists st. split.
  - unfold accepted in Hst. destruct (sources w filename) as [s|]; [|discriminate].
    destruct (st_reg s); congruence.
  - apply accepted_files_all; assumption.
Qed.

(* ------------------------------------------------------------------ *)
(** ** The command line *)

Lemma main_create (w : world) (prog arch n : list byte)
    (names : list (list byte)) :
  main w (prog :: lit "-cf" :: arch :: n :: names)
  = exit_status (mode_create_append false record0 w
                   (prog :: lit "-cf" :: arch :: n :: names)).
Proof. reflexivity. Qed.

Lemma main_append (w : world) (prog arch n : list byte)
    (names : list (list byte)) :
  main w (prog :: lit "-rf" :: arch :: n :: names)
  = exit_status (mode_create_append true record0 w
                   (prog :: lit "-rf" :: arch :: n :: names)).
Proof. reflexivity. Qed.

Lemma main_list (w : world) (prog arch : list byte) :
  main w [prog; lit "-tf"; arch] = exit_status (mode_list record0 w).
Proof. reflexivity. Qed.

Lemma main_extract (w : world) (prog arch : list byte) :
  main w [prog; lit "-xf"; arch] = exit_status (mode_extract record0 w).
Proof. reflexivity. Qed.

(* ------------------------------------------------------------------ *)
(** ** The two-file example *)

(** C6, as amended: creating an archive from "a" (the 3 bytes "xyz") and
    "b" (0 bytes) gives an archive of 2560 bytes: two header blocks, one
    content block for "a", none for "b", and the 1024-byte terminator;
    not 3072.  Listing that archive prints "a (3 bytes)" and
    "b (0 bytes)", in that order, and both runs exit with status 0. *)
Theorem C6_two_file_example (w : world) (prog arch : list byte) (ma mb : Z) :
  sources w (lit "a") = Some (mkInode true ma (lit "xyz")) ->
  sources w (lit "b") = Some (mkInode true mb []) ->
  creatable w arch = true ->
  exists e d,
    main w [prog; lit "-cf"; arch; lit "a"; lit "b"]
    = Some (0, mkOutcome Returned (Some d) [] e [])
    /\ zlen d = 2560
    /\ main (mkWorld (sources w) (Some d) (creatable w))
            [prog; lit "-tf"; arch]
       = Some (0, mkOutcome Returned (Some d)
                    [Printed (lit "a (3 bytes)"); Printed (lit "b (0 bytes)")]
                    [] []).
Proof.
  intros Ha Hb Hc.
  pose (names := [lit "a"; lit "b"]).
  assert (Aa : accepted (sources w) (lit "a")
               = Some (mkInode true ma (lit "xyz")))
    by (unfold accepted; rewrite Ha; reflexivity).
  assert (Ab : accepted (sources w) (lit "b") = Some (mkInode true mb []))
    by (unfold accepted; rewrite Hb; reflexivity).
  destruct (mode_create_spec w [prog; lit "-cf"; arch; lit "a"; lit "b"] Hc)
    as (e & E).
  change (skipn 3 [prog; lit "-cf"; arch; lit "a"; lit "b"]) with names in E.
  exists e, (entries_bytes (sources w) names ++ terminator).
  split; [|split].
  - rewrite main_create, E. reflexivity.
  - rewrite zlen_app, entries_bytes_length.
    unfold names. cbn [accepted_sizes]. rewrite Aa, Ab. reflexivity.
  - rewrite main_list. unfold mode_list. cbn [archive_file].
    assert (P : portable (sources w) (fun _ => true) names).
    { intros filename st [<-|[<-|[]]] Hst.
      - rewrite Aa in Hst. injection Hst as <-. repeat split; reflexivity.
      - rewrite Ab in Hst. injection Hst as <-. repeat split; reflexivity. }
    pose proof (list_loop_created (sources w) (fun _ => true) names [] record0
                  (S (length (entries_bytes (sources w) names ++ terminator)))
                  [] [] P ltac:(apply repeat_length)) as L.
    rewrite app_nil_l in L. change (zlen (@nil byte)) with 0 in L.
    rewrite L.
    + unfold names. cbn [accepted_lines]. rewrite Aa, Ab. reflexivity.
    + pose proof (accepted_files_count (sources w) names).
      rewrite length_app. lia.
Qed.

(** C6 as the spec words it fails on the length: the archive of the two
    sample files has 2560 bytes, not 3072; the listing is as stated. *)
Lemma C6_example_length_is_2560 :
  exists o d,
    main (sample_world None)
         [lit "tinytar"; lit "-cf"; lit "t.tar"; lit "a"; lit "b"]
    = Some (0, o)
    /\ arch o = Some d
    /\ zlen d = 2560 /\ zlen d <> 3072.
Proof.
  eexists. eexists. split; [vm_compute; reflexivity|].
  split; [reflexivity|]. split; [reflexivity | discriminate].
Qed.

(* ------------------------------------------------------------------ *)
(** ** Exit status *)

(** C9, as amended: corruption found by the append scan ends the process
    with exit status 1 and the archive as it was; a list or extract run
    that reports a block with invalid magic stops reading and returns to
    [main], which exits with status 0.  So 0 is also the status of a
    listing or extraction cut short by a format error. *)
Theorem C9_exit_status_on_corruption (w : world) (prog arch n : list byte)
    (names : list (list byte)) :
  (forall d,
     archive_file w = Some d ->
     find_append_position record0 (mkFILE d 0) = Some (-1) ->
     main w (prog :: lit "-rf" :: arch :: n :: names)
     = Some (1, mkOutcome (Exited 1) (Some d) []
                  [Printed (lit "Invalid or corrupt TAR archive")] []))
  /\ (forall o,
        mode_list record0 w = Some o -> In invalid_format (err o) ->
        main w [prog; lit "-tf"; arch] = Some (0, o))
  /\ (forall o,
        mode_extract record0 w = Some o -> In invalid_format (err o) ->
        main w [prog; lit "-xf"; arch] = Some (0, o)).
Proof.
  split; [|split].
  - intros d Ha F. rewrite main_append. unfold mode_create_append.
    rewrite Ha, F. reflexivity.
  - intros o E Hin. rewrite main_list, E.
    unfold mode_list in E. destruct (archive_file w).
    + destruct (list_loop _ _ _ _ _) as [[? ?]|]; [|discriminate].
      injection E as <-. reflexivity.
    + injection E as <-. cbn [err] in Hin.
      destruct Hin as [H|[]]. discriminate.
  - intros o E Hin. rewrite main_extract, E.
    unfold mode_extract in E. destruct (archive_file w).
    + destruct (extract_loop _ _ _ _ _ _ _) as [[[? ?] ?]|]; [|discriminate].
      injection E as <-. reflexivity.
    + injection E as <-. cbn [err] in Hin.
      destruct Hin as [H|[]]. discriminate.
Qed.

(** C9 as stated fails: listing or extracting an archive whose first
    block is garbage reports the invalid magic and exits with status 0. *)
Lemma C9_list_corrupt_exits_0 :
  main (sample_world (Some garbage_block)) [lit "tinytar"; lit "-tf"; lit "t.tar"]
  = Some (0, mkOutcome Returned (Some garbage_block) [] [invalid_format] [])
  /\ main (sample_world (Some garbage_block)) [lit "tinytar"; lit "-xf"; lit "t.tar"]
     = Some (0, mkOutcome Returned (Some garbage_block) [] [invalid_format] [])
  /\ 0 <> 1.
Proof. repeat split; try (vm_compute; reflexivity). discriminate. Qed.

(* ------------------------------------------------------------------ *)
(** ** The properties at the sample inputs *)

Lemma C1_append_corrupt_archive_untouched_witness :
  find_append_position record0 (mkFILE garbage_block 0) = Some (-1)
  /\ mode_create_append true record0 (sample_world (Some garbage_block))
       [lit "tinytar"; lit "-rf"; lit "t.tar"; lit "a"]
     = Some (mkOutcome (Exited 1) (Some garbage_block) []
               [Printed (lit "Invalid or corrupt TAR archive")] []).
Proof.
  apply (C1_append_corrupt_archive_untouched
           (sample_world (Some garbage_block))
           [lit "tinytar"; lit "-rf"; lit "t.tar"; lit "a"]
           garbage_block 0 record0 (mkFILE garbage_block 0) garbage_block).
  - reflexivity.
  - reflexivity.
  - vm_compute. left. reflexivity.
  - vm_compute. reflexivity.
  - vm_compute. reflexivity.
Defined.

Lemma C2_create_extract_round_trip_witness :
  exists o d o',
    mode_create_append false record0 (sample_world None)
      [lit "tinytar"; lit "-cf"; lit "t.tar"; lit "a"; lit "b"] = Some o
    /\ ctl o = Returned /\ arch o = Some d
    /\ mode_extract record0 (sample_world (Some d)) = Some o'
    /\ ctl o' = Returned /\ err o' = []
    /\ extracted o' = [(lit "a", lit "xyz"); (lit "b", [])]
    /\ forall filename, In filename [lit "a"; lit "b"] ->
         exists st, sample_sources filename = Some st
                    /\ lookup_file filename (extracted o') = Some (st_data st).
Proof.
  apply (C2_create_extract_round_trip (sample_world None)
           [lit "tinytar"; lit "-cf"; lit "t.tar"; lit "a"; lit "b"]).
  - reflexivity.
  - intros filename [<-|[<-|[]]].
    + exists (mkInode true 0 (lit "xyz")). repeat split.
    + exists (mkInode true 0 []). repeat split.
Defined.

(** C3, a defect of the code: behind a lone zero block the header is
    validated, but its content is not skipped as the claim says.  The
    seek back by one block leaves the position on the header that is
    already in [record], and the content skip is counted from there: for
    the one-block file "a" behind a zero block the pass ends at offset
    1024, on the content block, instead of 1536.  The content is then
    read as a header, and the scan of both revisions reports a corrupt
    archive, so the append is refused with exit status 1; a scan that
    starts on the header at 512 finds the terminator at 1536. *)
Theorem C3_false_alarm_skip_lands_in_content :
  let header := tar_header (lit "a") 3 0 in
  scan_iter record0 (mkFILE lone_zero_content_archive 0)
  = Continue header (mkFILE lone_zero_content_archive 1024)
  /\ find_append_position record0 (mkFILE lone_zero_content_archive 0)
     = Some (-1)
  /\ Legacy.find_append_position record0
       (mkFILE lone_zero_content_archive 0)
     = Some (-1)
  /\ main (sample_world (Some lone_zero_content_archive))
       [lit "tinytar"; lit "-rf"; lit "t.tar"; lit "b"]
     = Some (1, mkOutcome (Exited 1) (Some lone_zero_content_archive) []
                  [Printed (lit "Invalid or corrupt TAR archive")] [])
  /\ scan_loop 8 record0 (mkFILE lone_zero_content_archive 512)
     = Some 1536.
Proof.
  cbv zeta. repeat split; vm_compute; reflexivity.
Qed.

Lemma C5_created_archive_length_witness :
  exists o d,
    mode_create_append false record0 (sample_world None)
      [lit "tinytar"; lit "-cf"; lit "t.tar"; lit "a"; lit "b"] = Some o
    /\ ctl o = Returned
    /\ arch o = Some d
    /\ d = entries_bytes sample_sources [lit "a"; lit "b"] ++ repeat x00 1024
    /\ zlen d
       = fold_right Z.add 0
           (map (fun s => 512 + (s + 511) / 512 * 512)
                (accepted_sizes sample_sources [lit "a"; lit "b"]))
         + 1024.
Proof.
  apply (C5_created_archive_length (sample_world None)
           [lit "tinytar"; lit "-cf"; lit "t.tar"; lit "a"; lit "b"]).
  reflexivity.
Defined.

Lemma C6_two_file_example_witness :
  exists e d,
    main (sample_world None)
         [lit "tinytar"; lit "-cf"; lit "t.tar"; lit "a"; lit "b"]
    = Some (0, mkOutcome Returned (Some d) [] e [])
    /\ zlen d = 2560
    /\ main (sample_world (Some d)) [lit "tinytar"; lit "-tf"; lit "t.tar"]
       = Some (0, mkOutcome Returned (Some d)
                    [Printed (lit "a (3 bytes)"); Printed (lit "b (0 bytes)")]
                    [] []).
Proof.
  apply (C6_two_file_example (sample_world None) (lit "tinytar") (lit "t.tar")
           0 0); reflexivity.
Defined.

Lemma C8_append_to_truncated_archive_witness :
  let entries := [entry_bytes (lit "a") (mkInode true 0 (lit "xyz"))] in
  let d := concat entries in
  Forall (fun e => valid_entry e = true) entries
  /\ find_append_position record0 (mkFILE d 0) = Some (zlen d)
  /\ exists e,
       mode_create_append true record0 (sample_world (Some d))
         [lit "tinytar"; lit "-rf"; lit "t.tar"; lit "b"]
       = Some (mkOutcome Returned
                 (Some (d ++ entries_bytes sample_sources [lit "b"]
                          ++ terminator))
                 [] e []).
Proof.
  intros entries d.
  assert (V : Forall (fun e => valid_entry e = true) entries).
  { constructor; [vm_compute; reflexivity | constructor]. }
  split; [exact V|].
  exact (C8_append_to_truncated_archive (sample_world (Some d))
           [lit "tinytar"; lit "-rf"; lit "t.tar"; lit "b"] entries V eq_refl).
Defined.

Lemma C9_exit_status_on_corruption_witness :
  main (sample_world (Some garbage_block))
       [lit "tinytar"; lit "-rf"; lit "t.tar"; lit "a"]
  = Some (1, mkOutcome (Exited 1) (Some garbage_block) []
               [Printed (lit "Invalid or corrupt TAR archive")] [])
  /\ main (sample_world (Some garbage_block))
          [lit "tinytar"; lit "-tf"; lit "t.tar"]
     = Some (0, mkOutcome Returned (Some garbage_block) [] [invalid_format] [])
  /\ main (sample_world (Some garbage_block))
          [lit "tinytar"; lit "-xf"; lit "t.tar"]
     = Some (0, mkOutcome Returned (Some garbage_block) [] [invalid_format] []).
Proof.
  destruct (C9_exit_status_on_corruption (sample_world (Some garbage_block))
              (lit "tinytar") (lit "t.tar") (lit "a") [])
    as (A & L & X).
  split; [|split].
  - apply A; [reflexivity | vm_compute; reflexivity].
  - apply L; [vm_compute; reflexivity | left; reflexivity].
  - apply X; [vm_compute; reflexivity | left; reflexivity].
Defined.

Lemma C10_insertion_point_block_aligned_witness :
  zlen terminator mod 512 = 0
  /\ (exists r, find_append_position record0 (mkFILE terminator 0) = Some r
                /\ (r = -1 \/ (0 <= r /\ r mod 512 = 0)))
  /\ (exists r, Legacy.find_append_position record0 (mkFILE terminator 0)
                = Some r
                /\ (r = -1 \/ (0 <= r /\ r mod 512 = 0))).
Proof.
  split; [reflexivity|].
  apply (C10_insertion_point_block_aligned record0 terminator). reflexivity.
Defined.

(* ------------------------------------------------------------------ *)
(** ** Further properties of the codec and the header *)

Lemma octal_to_long_digits (k : nat) (n : Z) (pad : list byte) :
  (1 <= k <= 21)%nat -> 0 <= n < 8 ^ Z.of_nat k ->
  Forall (fun c => is_octal_digit c = false) pad ->
  octal_to_long (oct_digits k n ++ pad) (k + length pad) = n.
Proof.
  intros Hk Hn Hpad.
  assert (E : filter is_octal_digit
                (firstn (k + length pad) (oct_digits k n ++ pad))
              = oct_digits k n).
  { rewrite firstn_all2 by (rewrite length_app, oct_digits_length; lia).
    rewrite filter_app.
    assert (filter is_octal_digit pad = []) as ->.
    { clear - Hpad. induction Hpad as [|c l Hc _ IH]; [reflexivity|].
      simpl. rewrite Hc. exact IH. }
    rewrite app_nil_r. apply filter_all_true, oct_digits_all_octal. }
  rewrite octal_to_long_filter by (rewrite E, oct_digits_length; lia).
  rewrite E, octal_value_oct_digits by lia.
  rewrite Z.mod_small by lia. lia.
Qed.

(** X1: a value written with [long_to_octal] into a field of [size]
    bytes is read back by [octal_to_long] over that field, whenever it
    fits the [size - 1] digits (and [size] is at most 22, so that [long]
    holds it). *)
Theorem X1_long_to_octal_round_trip (size : nat) (val : Z) :
  (2 <= size <= 22)%nat -> 0 <= val < 8 ^ Z.of_nat (size - 1) ->
  octal_to_long (long_to_octal size val) size = val.
Proof.
  intros Hs Hv. rewrite long_to_octal_small by assumption.
  replace size with ((size - 1) + length [x00])%nat at 2 by (simpl; lia).
  apply octal_to_long_digits; [lia | assumption |].
  constructor; [reflexivity | constructor].
Qed.

Lemma X1_long_to_octal_round_trip_witness :
  (2 <= 12 <= 22)%nat /\ 0 <= 1234567 < 8 ^ Z.of_nat (12 - 1)
  /\ octal_to_long (long_to_octal 12 1234567) 12 = 1234567.
Proof.
  split; [lia|]. split; [vm_compute; split; [discriminate | reflexivity]|].
  apply X1_long_to_octal_round_trip; [lia|].
  vm_compute; split; [discriminate | reflexivity].
Defined.

(** X2: whatever the value, negative or too large included,
    [long_to_octal] stores exactly [size] bytes, the last one NUL, and
    nothing but octal digits in front of it: it never writes outside its
    field and always terminates it. *)
Theorem X2_long_to_octal_fills_field (size : nat) (val : Z) :
  (1 <= size)%nat ->
  length (long_to_octal size val) = size
  /\ last (long_to_octal size val) " "%byte = x00
  /\ Forall (fun c => is_octal_digit c = true)
       (firstn (size - 1) (long_to_octal size val)).
Proof.
  intros Hs. split; [apply long_to_octal_length, Hs|]. unfold long_to_octal.
  split; [apply last_last|].
  pose proof (printf_o_length (size - 1) (wrap_ulong val)) as L.
  rewrite firstn_app, firstn_firstn, Nat.min_id.
  rewrite length_firstn, Nat.min_l by exact L.
  rewrite Nat.sub_diag. simpl. rewrite app_nil_r.
  apply Forall_forall. intros c Hc. apply In_firstn in Hc.
  unfold printf_o in Hc.
  pose proof (oct_digits_all_octal
                (Nat.max (size - 1) (oct_width (wrap_ulong val)))
                (wrap_ulong val)) as F.
  rewrite Forall_forall in F. apply F, Hc.
Qed.

Lemma X2_long_to_octal_fills_field_witness :
  (1 <= 12)%nat
  /\ length (long_to_octal 12 (-1)) = 12%nat
  /\ last (long_to_octal 12 (-1)) " "%byte = x00
  /\ Forall (fun c => is_octal_digit c = true)
       (firstn (12 - 1) (long_to_octal 12 (-1))).
Proof.
  split; [lia|]. apply (X2_long_to_octal_fills_field 12 (-1)). lia.
Defined.

Lemma firstn_oct_digits (k : nat) (n : Z) :
  firstn k (oct_digits (S k) n) = oct_digits k (n / 8).
Proof.
  cbn [oct_digits]. apply firstn_app_exact, oct_digits_length.
Qed.

Lemma oct_width_exact (k : nat) (n : Z) :
  8 ^ Z.of_nat k <= n < 8 ^ Z.of_nat (S k) -> oct_width n = S k.
Proof.
  intros Hn. unfold oct_width.
  assert (P : 0 < 8 ^ Z.of_nat k) by (apply Z.pow_pos_nonneg; lia).
  assert (L : 3 * Z.of_nat k <= Z.log2 n < 3 * Z.of_nat (S k)).
  { split.
    - apply Z.log2_le_pow2; [lia|]. rewrite Z.pow_mul_r by lia.
      change (2 ^ 3) with 8. lia.
    - apply Z.log2_lt_pow2; [lia|]. rewrite Z.pow_mul_r by lia.
      change (2 ^ 3) with 8. lia. }
  assert (Z.log2 n / 3 = Z.of_nat k).
  { symmetry. apply Z.div_unique with (r := Z.log2 n - 3 * Z.of_nat k); lia. }
  lia.
Qed.

(** X3: a file of 8^11 bytes or more does not fit the size field:
    [snprintf] keeps the first eleven of its twelve octal digits, and
    the size a reader decodes from the header is an eighth of the real
    one (rounded down). *)
Theorem X3_size_field_drops_last_digit (filename : list byte)
    (filesize mtime : Z) :
  8 ^ 11 <= filesize < 8 ^ 12 ->
  octal_to_long (skipn 124 (tar_header filename filesize mtime)) 12
  = filesize / 8.
Proof.
  intros Hs. rewrite header_size_field, tar_header_size_field.
  unfold long_to_octal, wrap_ulong. rewrite Z.mod_small by lia.
  change (12 - 1)%nat with 11%nat. unfold printf_o.
  rewrite (oct_width_exact 11 filesize) by exact Hs.
  change (Nat.max 11 12) with 12%nat. rewrite firstn_oct_digits.
  change 12%nat with (11 + length [x00])%nat at 1.
  apply octal_to_long_digits; [lia | | constructor; [reflexivity|constructor]].
  split; [apply Z.div_pos; lia|]. apply Z.div_lt_upper_bound; lia.
Qed.

Lemma X3_size_field_drops_last_digit_witness :
  8 ^ 11 <= 8 ^ 11 + 5 < 8 ^ 12
  /\ octal_to_long (skipn 124 (tar_header (lit "big") (8 ^ 11 + 5) 0)) 12
     = (8 ^ 11 + 5) / 8.
Proof.
  assert (H : 8 ^ 11 <= 8 ^ 11 + 5 < 8 ^ 12)
    by (vm_compute; split; [discriminate | reflexivity]).
  split; [exact H|]. apply X3_size_field_drops_last_digit, H.
Defined.

(** X4: every header [write_tar_header] emits is one whole block of 512
    bytes appended to the archive, carries the magic, and is not empty:
    the readers and the append scan take it for a header and never for a
    terminator block, whatever the name, size and time. *)
Theorem X4_written_header_is_a_header (d filename : list byte)
    (filesize mtime : Z) :
  let header := tar_header filename filesize mtime in
  write_tar_header (at_end d) filename filesize mtime = at_end (d ++ header)
  /\ length header = 512%nat
  /\ is_valid_tar_header header = true
  /\ is_block_empty header = false.
Proof.
  cbv zeta. split.
  - unfold write_tar_header.
    rewrite firstn_all2 by (rewrite tar_header_length; lia).
    apply fwrite_at_end.
  - split; [apply tar_header_length|].
    split; [apply tar_header_valid | apply tar_header_not_empty].
Qed.

Lemma forallb_firstn (A : Type) (f : A -> bool) (n : nat) (l : list A) :
  forallb f l = true -> forallb f (firstn n l) = true.
Proof.
  rewrite !forallb_forall. intros H x Hx. apply H. eapply In_firstn, Hx.
Qed.

(** X5: the name a reader decodes from a written header is the name the
    writer was given, cut to its first 100 bytes, for every name made of
    printable characters: longer names are truncated without notice. *)
Theorem X5_name_round_trip_truncates (filename : list byte)
    (filesize mtime : Z) :
  forallb isprint filename = true ->
  entry_name (tar_header filename filesize mtime) = firstn 100 filename.
Proof.
  intros Hp. unfold entry_name. change (Z.to_nat (NAME_SIZE - 1)) with 100%nat.
  rewrite <- entry_name_from_firstn.
  rewrite (field_at_0 100 (tar_header filename filesize mtime)).
  rewrite tar_header_name_field. unfold strncpy.
  rewrite c_str_printable by assumption.
  apply entry_name_from_printable; [apply forallb_firstn, Hp|].
  rewrite length_firstn. lia.
Qed.

Lemma X5_name_round_trip_truncates_witness :
  forallb isprint (repeat "n"%byte 130) = true
  /\ entry_name (tar_header (repeat "n"%byte 130) 7 0)
     = firstn 100 (repeat "n"%byte 130).
Proof.
  split; [reflexivity|].
  apply X5_name_round_trip_truncates. reflexivity.
Defined.

Lemma entry_name_from_printable_out (rec : list byte) : forall n,
  forallb isprint (entry_name_from rec n) = true
  /\ (length (entry_name_from rec n) <= n)%nat.
Proof.
  induction rec as [|c rec IH]; intros [|n]; try (split; [reflexivity | simpl; lia]).
  simpl. destruct (b2z c =? 0); [split; [reflexivity | simpl; lia]|].
  destruct (IH n) as [P L]. split; [|simpl; lia].
  cbn [forallb]. rewrite P.
  destruct (isprint c) eqn:E; [rewrite E|]; reflexivity.
Qed.

(** X6: whatever bytes a header block holds, the name [mode_list] and
    [mode_extract] take from it has at most 100 bytes, all of them
    printable: a byte that is not printable is replaced by '?', so no
    control character reaches the terminal or a file name. *)
Theorem X6_entry_name_is_printable (rec : list byte) :
  forallb isprint (entry_name rec) = true
  /\ (length (entry_name rec) <= 100)%nat.
Proof. apply (entry_name_from_printable_out rec 100). Qed.

(** X7: the content length the readers and the scan compute from any
    header block is the decoded size rounded up to the next multiple of
    512: the size is never negative and below 2^36, the skip is a
    multiple of 512, at least the size and less than a block more. *)
Theorem X7_content_skip_rounds_up (rec : list byte) :
  let filesize := octal_to_long (skipn 124 rec) 12 in
  0 <= filesize < 2 ^ 36
  /\ padded_size filesize mod 512 = 0
  /\ filesize <= padded_size filesize < filesize + 512.
Proof.
  cbv zeta. pose proof (octal_to_long_12_range (skipn 124 rec)) as R.
  split; [exact R|].
  rewrite padded_size_eq by lia.
  destruct (padded_length_facts (octal_to_long (skipn 124 rec) 12)) as [P M];
    [lia|].
  split; [exact M|]. unfold padded_length in *.
  set (s := octal_to_long (skipn 124 rec) 12) in *.
  pose proof (Z.div_mod (s + 511) 512 ltac:(lia)) as D.
  pose proof (Z.mod_pos_bound (s + 511) 512 ltac:(lia)) as B.
  lia.
Qed.

(** X8: a block of 512 zero bytes never passes the magic check, so the
    scan and the readers cannot take a terminator block for a header
    (and a block with the magic is never taken for an empty one). *)
Theorem X8_empty_block_is_no_header (block : list byte) :
  is_block_empty block = true -> is_valid_tar_header block = false.
Proof. apply empty_block_not_valid. Qed.

Lemma X8_empty_block_is_no_header_witness :
  is_block_empty (repeat x00 512) = true
  /\ is_valid_tar_header (repeat x00 512) = false.
Proof.
  split; [reflexivity|]. apply X8_empty_block_is_no_header. reflexivity.
Defined.

(* ------------------------------------------------------------------ *)
(** ** What the append scan returns *)

Lemma is_block_empty_firstn (block : list byte) :
  is_block_empty (firstn 512 block) = is_block_empty block.
Proof. unfold is_block_empty. rewrite firstn_firstn. reflexivity. Qed.

(** A read that fills [record] puts the next 512 bytes of the file
    there. *)
Lemma fread_full (rec rec' : list byte) (fp fp' : FILE) :
  fread rec fp = (512, rec', fp') ->
  firstn 512 rec' = firstn 512 (skipn (Z.to_nat (f_pos fp)) (f_data fp)).
Proof.
  unfold fread.
  remember (firstn 512 (skipn (Z.to_nat (f_pos fp)) (f_data fp))) as got.
  intros H. injection H as Hn <- _.
  assert (L : length got = 512%nat) by (unfold zlen in Hn; lia).
  rewrite firstn_app_exact by exact L. reflexivity.
Qed.

Lemma scan_iter_return (rec : list byte) (fp : FILE) (r : Z) :
  0 <= f_pos fp ->
  scan_iter rec fp = Return r -> scan_result_ok (f_data fp) r.
Proof.
  intros Hp. unfold scan_iter, scan_result_ok.
  pose proof (fread_count rec fp Hp) as C1.
  destruct (fread rec fp) as [[n rec1] fp1] eqn:E1.
  destruct C1 as (Hn & Hd1 & Hp1). unfold RECORD_SIZE, ftell.
  pose proof (zlen_nonneg (f_data fp)) as Hlen.
  destruct (Z.eqb_spec n 512) as [Hn512|Hn512].
  - rewrite Hn512 in *. pose proof (fread_full _ _ _ _ E1) as B1.
    destruct (is_block_empty rec1) eqn:He1.
    + pose proof (fread_count rec1 fp1 ltac:(lia)) as C2.
      destruct (fread rec1 fp1) as [[n2 rec2] fp2] eqn:E2.
      destruct C2 as (Hn2 & Hd2 & Hp2).
      destruct (Z.eqb_spec n2 512) as [Hn2'|Hn2'].
      * rewrite Hn2' in *. pose proof (fread_full _ _ _ _ E2) as B2.
        destruct (is_block_empty rec2) eqn:He2; cbn [andb].
        -- intros H. injection H as <-. right. left.
           rewrite Hd1 in *.
           replace (f_pos fp1 - 512) with (f_pos fp) by lia.
           split; [lia|]. split; [lia|]. split.
           ++ rewrite <- is_block_empty_firstn, <- B1, is_block_empty_firstn.
              exact He1.
           ++ replace (f_pos fp + 512) with (f_pos fp1) by lia.
              rewrite <- is_block_empty_firstn, <- B2, is_block_empty_firstn.
              exact He2.
        -- destruct (scan_header_cases rec2 (fseek_cur fp2 (- (512))))
             as [[_ R]|[_ (skip & _ & _ & R)]].
           { rewrite fseek_cur_forward; cbn [f_pos]; lia. }
           ++ rewrite R. intros H. injection H as <-. left. reflexivity.
           ++ rewrite R. discriminate.
      * cbn [andb].
        destruct (scan_header_cases rec2 (fseek_cur fp2 (- (512))))
          as [[_ R]|[_ (skip & _ & _ & R)]].
        { rewrite fseek_cur_forward; cbn [f_pos]; lia. }
        -- rewrite R. intros H. injection H as <-. left. reflexivity.
        -- rewrite R. discriminate.
    + destruct (scan_header_cases rec1 fp1 ltac:(lia))
        as [[_ R]|[_ (skip & _ & _ & R)]]; rewrite R; [|discriminate].
      intros H. injection H as <-. left. reflexivity.
  - intros H. injection H as <-. right. right. lia.
Qed.

Lemma scan_loop_return (fuel : nat) : forall (rec : list byte) (fp : FILE)
    (r : Z),
  0 <= f_pos fp ->
  scan_loop fuel rec fp = Some r -> scan_result_ok (f_data fp) r.
Proof.
  induction fuel as [|fuel IH]; intros rec fp r Hp H; [discriminate|].
  cbn [scan_loop] in H.
  destruct (scan_iter rec fp) as [rec' fp'|r'] eqn:E.
  - destruct (scan_iter_progress _ _ _ _ Hp E) as (Hd & Hlt & _).
    rewrite <- Hd. apply (IH rec' fp' r); [lia | exact H].
  - injection H as <-. eapply scan_iter_return; eassumption.
Qed.

(** X9: on every file [find_append_position] returns, and what it
    returns is -1, or the offset of two consecutive all-zero blocks that
    lie in the file, or an offset at or behind the end of the file: an
    append never starts inside the file except on a terminator. *)
Theorem X9_insertion_point_is_terminator_or_eof (rec d : list byte) :
  exists r,
    find_append_position rec (mkFILE d 0) = Some r
    /\ (r = -1
        \/ (0 <= r /\ r + 1024 <= zlen d
            /\ is_block_empty (skipn (Z.to_nat r) d) = true
            /\ is_block_empty (skipn (Z.to_nat (r + 512)) d) = true)
        \/ zlen d <= r).
Proof.
  destruct (find_append_position_total rec d) as (r & E).
  exists r. split; [exact E|].
  unfold find_append_position in E.
  change (fseek_set (mkFILE d 0) 0) with (mkFILE d 0) in E.
  exact (scan_loop_return _ rec (mkFILE d 0) r ltac:(cbn; lia) E).
Qed.

(* ------------------------------------------------------------------ *)
(** ** Writing into the middle of a file *)

Lemma fwrite_mid (buf pre rest : list byte) :
  fwrite buf (mid_stream pre rest)
  = mid_stream (pre ++ buf) (skipn (length buf) rest).
Proof.
  unfold fwrite. cbn [f_pos f_data]. rewrite to_nat_zlen.
  rewrite firstn_app_exact by reflexivity.
  rewrite length_app.
  replace (length pre - (length pre + length rest))%nat with 0%nat by lia.
  rewrite skipn_app.
  rewrite (skipn_all2 pre) by lia.
  replace (length pre + length buf - length pre)%nat with (length buf) by lia.
  simpl. rewrite zlen_app, <- !app_assoc. reflexivity.
Qed.

Lemma write_file_content_mid (fuel : nat) :
  forall (c rec d rest pre : list byte),
  (length c < fuel)%nat -> length rec = 512%nat ->
  exists rec' inp',
    write_file_content fuel rec (mid_stream d rest)
      (mkFILE (pre ++ c) (zlen pre)) (zlen c)
    = Some (rec',
            mid_stream (d ++ pad512 c) (skipn (length (pad512 c)) rest),
            inp')
    /\ length rec' = 512%nat.
Proof.
  induction fuel as [|fuel IH]; intros c rec d rest pre Hf Hr; [lia|].
  destruct c as [|b c0].
  - exists rec, (mkFILE (pre ++ []) (zlen pre)).
    rewrite pad512_nil, !app_nil_r. split; [reflexivity | assumption].
  - set (c := b :: c0) in *.
    assert (Hc : (0 < length c)%nat) by (simpl; lia).
    cbn [write_file_content].
    replace (zlen c >? 0) with true
      by (unfold zlen; symmetry; apply Z.gtb_lt; lia).
    destruct (Nat.lt_ge_cases (length c) 512) as [Hs|Hl].
    + rewrite fread_tail by assumption.
      replace (zlen c <? RECORD_SIZE) with true
        by (unfold zlen, RECORD_SIZE; symmetry; apply Z.ltb_lt; lia).
      unfold memset_tail. rewrite to_nat_zlen, firstn_app_exact by reflexivity.
      destruct (pad512_short c ltac:(lia)) as [Ep Lp]. rewrite <- Ep.
      rewrite firstn_all2 by lia. rewrite fwrite_mid.
      rewrite Z.sub_diag.
      destruct fuel; cbn [write_file_content]; change (0 >? 0) with false;
        cbv iota; eauto.
    + destruct (split_region 0 512 c ltac:(lia)) as (p & blk & c' & Ec & Hp & Hb).
      destruct p; [|discriminate]. simpl in Ec. rewrite Ec in *.
      rewrite fread_block by assumption.
      change (512 <? RECORD_SIZE) with false. cbv iota.
      rewrite firstn_all2 by lia. rewrite fwrite_mid.
      replace (zlen (blk ++ c') - 512) with (zlen c')
        by (rewrite zlen_app; unfold zlen; lia).
      replace (mkFILE (pre ++ blk ++ c') (zlen pre + 512))
        with (mkFILE ((pre ++ blk) ++ c') (zlen (pre ++ blk)))
        by (rewrite <- app_assoc, zlen_app; unfold zlen; rewrite Hb; reflexivity).
      destruct (IH c' blk (d ++ blk) (skipn (length blk) rest) (pre ++ blk))
        as (rec' & inp' & E & L);
        [rewrite length_app in Hf; lia | assumption |].
      rewrite E, pad512_block by assumption.
      exists rec', inp'. split; [|assumption].
      replace (skipn (length (pad512 c')) (skipn (length blk) rest))
        with (skipn (length (blk ++ pad512 c')) rest)
        by (rewrite skipn_skipn, length_app; f_equal; lia).
      rewrite <- (app_assoc d blk). reflexivity.
Qed.

Lemma write_file_mid (fs : filesystem) (filename rec d rest : list byte)
    (e : list message) :
  length rec = 512%nat ->
  exists rec' e',
    write_file fs filename (mkWriter rec (mid_stream d rest) e)
    = Some (mkWriter rec'
              (mid_stream (d ++ entries_bytes fs [filename])
                 (skipn (length (entries_bytes fs [filename])) rest))
              e')
    /\ length rec' = 512%nat.
Proof.
  intros Hr. unfold write_file, entries_bytes, accepted.
  destruct (fs filename) as [st|]; cbn [w_record w_tar w_err].
  2:{ rewrite app_nil_r. simpl skipn. eauto. }
  destruct (st_reg st); cbn [negb].
  2:{ rewrite app_nil_r. simpl skipn. eauto. }
  unfold write_tar_header, get_file_size. cbn [f_data].
  rewrite firstn_all2 by (rewrite tar_header_length; lia).
  rewrite fwrite_mid.
  destruct (write_file_content_mid (S (Z.to_nat (zlen (st_data st))))
              (st_data st) rec
              (d ++ tar_header filename (zlen (st_data st)) (st_mtime st))
              (skipn (length (tar_header filename (zlen (st_data st))
                                (st_mtime st))) rest) [])
    as (rec' & inp' & E & L); [rewrite to_nat_zlen; lia | assumption |].
  rewrite app_nil_l in E. change (zlen (@nil byte)) with 0 in E. rewrite E.
  unfold entry_bytes. rewrite app_nil_r.
  set (h := tar_header filename (zlen (st_data st)) (st_mtime st)) in *.
  set (p := pad512 (st_data st)) in *.
  exists rec', (e ++ [Printed (filename ++ lit " (" ++ dec (zlen (st_data st))
                                ++ lit ")")]).
  split; [|assumption].
  replace (skipn (length p) (skipn (length h) rest))
    with (skipn (length (h ++ p)) rest)
    by (rewrite skipn_skipn, length_app; f_equal; lia).
  rewrite <- (app_assoc d h p). reflexivity.
Qed.

Lemma write_files_mid (fs : filesystem) (names : list (list byte)) :
  forall (rec d rest : list byte) (e : list message),
  length rec = 512%nat ->
  exists rec' e',
    write_files fs names (mkWriter rec (mid_stream d rest) e)
    = Some (mkWriter rec'
              (mid_stream (d ++ entries_bytes fs names)
                 (skipn (length (entries_bytes fs names)) rest))
              e').
Proof.
  induction names as [|filename names IH]; intros rec d rest e Hr.
  - simpl. rewrite app_nil_r. eauto.
  - cbn [write_files].
    destruct (write_file_mid fs filename rec d rest e Hr)
      as (rec1 & e1 & E1 & L1).
    rewrite E1.
    destruct (IH rec1 (d ++ entries_bytes fs [filename])
                (skipn (length (entries_bytes fs [filename])) rest) e1 L1)
      as (rec2 & e2 & E2).
    rewrite E2, (entries_bytes_cons fs filename names).
    set (a := entries_bytes fs [filename]). set (b := entries_bytes fs names).
    exists rec2, e2.
    replace (skipn (length b) (skipn (length a) rest))
      with (skipn (length (a ++ b)) rest)
      by (rewrite skipn_skipn, length_app; f_equal; lia).
    rewrite <- (app_assoc d a b). reflexivity.
Qed.

(** Writing the names and the terminator at the end of [d], over what the
    file holds from there on. *)
Lemma write_archive_over (fs : filesystem) (names : list (list byte))
    (rec d rest : list byte) :
  length rec = 512%nat ->
  exists wr,
    write_files fs names (mkWriter rec (mid_stream d rest) []) = Some wr
    /\ f_data (w_tar (write_terminator wr))
       = d ++ entries_bytes fs names ++ terminator
           ++ skipn (length (entries_bytes fs names) + 1024) rest.
Proof.
  intros Hr.
  destruct (write_files_mid fs names rec d rest [] Hr) as (rec' & e' & E).
  eexists. split; [exact E|].
  unfold write_terminator. cbn [w_tar w_err].
  rewrite !fwrite_mid. cbn [f_data].
  rewrite !skipn_skipn, repeat_length, <- !app_assoc.
  f_equal. f_equal. rewrite terminator_blocks, <- app_assoc.
  do 3 f_equal. lia.
Qed.

(* ------------------------------------------------------------------ *)
(** ** The scan over whole entries *)

Lemma scan_over_entries (entries : list (list byte)) :
  forall (pre rec tail : list byte),
  Forall (fun e => valid_entry e = true) entries ->
  length rec = 512%nat ->
  exists rec',
    length rec' = 512%nat
    /\ forall fuel,
         scan_loop (length entries + fuel) rec
           (mid_stream pre (concat entries ++ tail))
         = scan_loop fuel rec'
             (mid_stream (pre ++ concat entries) tail).
Proof.
  induction entries as [|e es IH]; intros pre rec tail Hv Hr.
  - exists rec. split; [assumption|]. intros fuel. simpl concat.
    rewrite !app_nil_r, app_nil_l. reflexivity.
  - inversion Hv as [|? ? He Hes]; subst.
    destruct (valid_entry_split e He) as (h & c & -> & Hh & Hm & Hs).
    destruct (IH (pre ++ h ++ c) h tail Hes Hh) as (rec' & L & E).
    exists rec'. split; [assumption|]. intros fuel.
    cbn [length Nat.add scan_loop]. simpl concat. rewrite <- !app_assoc.
    unfold scan_iter. rewrite fread_block by assumption.
    change (512 =? RECORD_SIZE) with true. cbv iota.
    destruct (is_block_empty h) eqn:Hempty.
    { rewrite (empty_block_not_valid h Hempty) in Hm. discriminate. }
    unfold scan_header. rewrite Hm. cbn [negb]. rewrite Hs.
    pose proof (zlen_nonneg pre). pose proof (zlen_nonneg c).
    rewrite fseek_cur_forward by (cbn [f_pos]; lia). cbn [f_data f_pos].
    replace (zlen pre + 512 + zlen c) with (zlen (pre ++ h ++ c))
      by (rewrite !zlen_app; unfold zlen at 2; rewrite Hh; lia).
    replace (pre ++ h ++ c ++ concat es ++ tail)
      with ((pre ++ h ++ c) ++ concat es ++ tail)
      by (rewrite <- !app_assoc; reflexivity).
    rewrite E. rewrite <- !app_assoc. reflexivity.
Qed.

(** The scan at two empty blocks. *)
Lemma scan_at_terminator (rec pre rest : list byte) (fuel : nat) :
  length rec = 512%nat ->
  scan_loop (S fuel) rec (mid_stream pre (terminator ++ rest))
  = Some (zlen pre).
Proof.
  intros Hr. cbn [scan_loop]. unfold scan_iter.
  rewrite terminator_blocks, <- !app_assoc.
  rewrite fread_block by (assumption || apply repeat_length).
  change (512 =? RECORD_SIZE) with true. cbv iota.
  rewrite zero_block_empty.
  replace (mkFILE (pre ++ repeat x00 512 ++ repeat x00 512 ++ rest)
             (zlen pre + 512))
    with (mid_stream (pre ++ repeat x00 512) (repeat x00 512 ++ rest))
    by (rewrite <- app_assoc, zlen_app; reflexivity).
  rewrite fread_block by apply repeat_length.
  change (512 =? RECORD_SIZE) with true. rewrite zero_block_empty.
  cbn [andb]. unfold ftell, RECORD_SIZE. cbn [f_pos].
  rewrite zlen_app. f_equal. change (zlen (repeat x00 512)) with 512. lia.
Qed.

(** The scan at a single empty block that ends the file. *)
Lemma scan_at_lone_zero_block (rec pre : list byte) (fuel : nat) :
  length rec = 512%nat ->
  scan_loop (S fuel) rec (mid_stream pre (repeat x00 512)) = Some (-1).
Proof.
  intros Hr. cbn [scan_loop]. unfold scan_iter.
  rewrite <- (app_nil_r (repeat x00 512)) at 1.
  rewrite fread_block by (assumption || apply repeat_length).
  change (512 =? RECORD_SIZE) with true. cbv iota.
  rewrite zero_block_empty, app_nil_r.
  replace (mkFILE (pre ++ repeat x00 512) (zlen pre + 512))
    with (mid_stream (pre ++ repeat x00 512) [])
    by (rewrite app_nil_r, zlen_app; reflexivity).
  rewrite fread_tail by (simpl; lia).
  change (zlen (@nil byte)) with 0. change (0 =? RECORD_SIZE) with false.
  cbn [andb].
  change ([] ++ skipn (length (@nil byte)) (repeat x00 512))
    with (repeat x00 512).
  unfold scan_header.
  rewrite (empty_block_not_valid _ zero_block_empty). reflexivity.
Qed.

(* ------------------------------------------------------------------ *)
(** ** Appending to a terminated archive *)

Lemma find_append_position_entries (entries : list (list byte))
    (tail : list byte) (r : Z) :
  Forall (fun e => valid_entry e = true) entries ->
  (forall rec fuel, length rec = 512%nat ->
     scan_loop (S fuel) rec (mid_stream (concat entries) tail) = Some r) ->
  find_append_position record0 (mkFILE (concat entries ++ tail) 0) = Some r.
Proof.
  intros Hv Hend. unfold find_append_position. cbn [f_data].
  change (fseek_set (mkFILE (concat entries ++ tail) 0) 0)
    with (mid_stream (@nil byte) (concat entries ++ tail)).
  destruct (scan_over_entries entries [] record0 tail Hv
              ltac:(apply repeat_length)) as (rec' & L & E).
  pose proof (valid_entries_count entries Hv) as C.
  replace (S (length (concat entries ++ tail)))
    with (length entries
          + S (length (concat entries ++ tail) - length entries))%nat
    by (rewrite length_app; lia).
  rewrite E. rewrite app_nil_l. apply Hend, L.
Qed.

Lemma append_over_terminator
    (w : world) (argv : list (list byte)) (entries : list (list byte))
    (rest : list byte) :
  Forall (fun e => valid_entry e = true) entries ->
  archive_file w = Some (concat entries ++ terminator ++ rest) ->
  let new := entries_bytes (sources w) (skipn 3 argv) in
  find_append_position record0
    (mkFILE (concat entries ++ terminator ++ rest) 0)
  = Some (zlen (concat entries))
  /\ exists e,
       mode_create_append true record0 w argv
       = Some (mkOutcome Returned
                 (Some (concat entries ++ new ++ terminator
                          ++ skipn (length new) rest))
                 [] e []).
Proof.
  intros Hv Ha new.
  assert (F : find_append_position record0
                (mkFILE (concat entries ++ terminator ++ rest) 0)
              = Some (zlen (concat entries))).
  { apply find_append_position_entries; [exact Hv|].
    intros rec fuel Hr. apply scan_at_terminator, Hr. }
  split; [exact F|].
  unfold mode_create_append. rewrite Ha, F.
  pose proof (zlen_nonneg (concat entries)) as Hd.
  destruct (Z.ltb_spec (zlen (concat entries)) 0) as [|_]; [lia|].
  unfold fseek_set.
  destruct (Z.ltb_spec (zlen (concat entries)) 0) as [|_]; [lia|].
  cbn [f_data].
  destruct (write_archive_over (sources w) (skipn 3 argv) record0
              (concat entries) (terminator ++ rest)
              ltac:(apply repeat_length)) as (wr & E & D).
  rewrite E, D. fold new.
  replace (skipn (length new + 1024) (terminator ++ rest))
    with (skipn (length new) rest).
  - eauto.
  - rewrite <- skipn_skipn.
    rewrite (skipn_app_exact _ 1024%nat terminator rest) by reflexivity.
    reflexivity.
Qed.

(** X10: appending to an archive that consists of valid entries and the
    two-block terminator (with anything behind it) leaves the old
    entries as they are, writes the entries of the accepted new files
    where the terminator began and a new terminator behind them; what the
    file held beyond that stays. *)
Theorem X10_append_to_terminated_archive
    (w : world) (argv : list (list byte)) (entries : list (list byte))
    (rest : list byte) :
  Forall (fun e => valid_entry e = true) entries ->
  archive_file w = Some (concat entries ++ terminator ++ rest) ->
  let new := entries_bytes (sources w) (skipn 3 argv) in
  find_append_position record0
    (mkFILE (concat entries ++ terminator ++ rest) 0)
  = Some (zlen (concat entries))
  /\ exists e,
       mode_create_append true record0 w argv
       = Some (mkOutcome Returned
                 (Some (concat entries ++ new ++ terminator
                          ++ skipn (length new) rest))
                 [] e []).
Proof. exact (append_over_terminator w argv entries rest). Qed.

Lemma X10_append_to_terminated_archive_witness :
  let entries := [entry_bytes (lit "a") (mkInode true 0 (lit "xyz"))] in
  let w := sample_world (Some (concat entries ++ terminator ++ [])) in
  let argv := [lit "tinytar"; lit "-rf"; lit "t.tar"; lit "b"] in
  let new := entries_bytes (sources w) (skipn 3 argv) in
  Forall (fun e => valid_entry e = true) entries
  /\ find_append_position record0
       (mkFILE (concat entries ++ terminator ++ []) 0)
     = Some (zlen (concat entries))
  /\ exists e,
       mode_create_append true record0 w argv
       = Some (mkOutcome Returned
                 (Some (concat entries ++ new ++ terminator
                          ++ skipn (length new) []))
                 [] e []).
Proof.
  intros entries w argv new.
  assert (V : Forall (fun e => valid_entry e = true) entries).
  { constructor; [vm_compute; reflexivity | constructor]. }
  split; [exact V|].
  exact (X10_append_to_terminated_archive w argv entries [] V eq_refl).
Defined.

(** X11: an archive that ends in a single empty block behind its valid
    entries (a run stopped between the two terminator writes) is not
    appended to: the second read of the scan delivers nothing, the empty
    block still in [record] fails the magic check, and the run ends with
    the corruption message, exit status 1 and the archive as it was. *)
Theorem X11_lone_final_zero_block_is_corrupt
    (w : world) (argv : list (list byte)) (entries : list (list byte)) :
  Forall (fun e => valid_entry e = true) entries ->
  archive_file w = Some (concat entries ++ repeat x00 512) ->
  mode_create_append true record0 w argv
  = Some (mkOutcome (Exited 1) (Some (concat entries ++ repeat x00 512)) []
            [Printed (lit "Invalid or corrupt TAR archive")] []).
Proof.
  intros Hv Ha.
  assert (F : find_append_position record0
                (mkFILE (concat entries ++ repeat x00 512) 0) = Some (-1)).
  { apply find_append_position_entries; [exact Hv|].
    intros rec fuel Hr. apply scan_at_lone_zero_block, Hr. }
  unfold mode_create_append. rewrite Ha, F. reflexivity.
Qed.

Lemma X11_lone_final_zero_block_is_corrupt_witness :
  let entries := [entry_bytes (lit "a") (mkInode true 0 (lit "xyz"))] in
  let d := concat entries ++ repeat x00 512 in
  Forall (fun e => valid_entry e = true) entries
  /\ mode_create_append true record0 (sample_world (Some d))
       [lit "tinytar"; lit "-rf"; lit "t.tar"; lit "b"]
     = Some (mkOutcome (Exited 1) (Some d) []
               [Printed (lit "Invalid or corrupt TAR archive")] []).
Proof.
  intros entries d.
  assert (V : Forall (fun e => valid_entry e = true) entries).
  { constructor; [vm_compute; reflexivity | constructor]. }
  split; [exact V|].
  exact (X11_lone_final_zero_block_is_corrupt (sample_world (Some d))
           [lit "tinytar"; lit "-rf"; lit "t.tar"; lit "b"] entries V eq_refl).
Defined.

(* ------------------------------------------------------------------ *)
(** ** Append after create *)

Lemma is_valid_tar_header_app (h rest : list byte) :
  length h = 512%nat ->
  is_valid_tar_header (h ++ rest) = is_valid_tar_header h.
Proof.
  intros Hh. unfold is_valid_tar_header.
  change (firstn 5 (skipn 257 (h ++ rest))) with (field 257 5 (h ++ rest)).
  change (firstn 5 (skipn 257 h)) with (field 257 5 h).
  rewrite field_app_l by lia. reflexivity.
Qed.

Lemma entry_bytes_valid (filename : list byte) (st : inode) :
  zlen (st_data st) < 8 ^ 11 ->
  valid_entry (entry_bytes filename st) = true.
Proof.
  intros Hs. pose proof (zlen_nonneg (st_data st)) as H0.
  unfold valid_entry, entry_bytes.
  set (h := tar_header filename (zlen (st_data st)) (st_mtime st)).
  assert (Lh : length h = 512%nat) by apply tar_header_length.
  rewrite is_valid_tar_header_app by exact Lh.
  unfold h at 2. rewrite tar_header_valid.
  rewrite header_size_field, field_app_l, <- header_size_field by lia.
  unfold h at 3. rewrite tar_header_size by lia.
  rewrite padded_size_eq, <- pad512_length by lia.
  rewrite zlen_app. unfold zlen at 1 3. rewrite Lh.
  pose proof (zlen_nonneg (pad512 (st_data st))).
  rewrite andb_true_r, andb_true_iff, Z.leb_le, Z.eqb_eq. lia.
Qed.

Lemma created_entries_valid (fs : filesystem) (names : list (list byte)) :
  (forall filename st, In filename names -> accepted fs filename = Some st ->
     zlen (st_data st) < 8 ^ 11) ->
  exists entries,
    entries_bytes fs names = concat entries
    /\ Forall (fun e => valid_entry e = true) entries.
Proof.
  induction names as [|n names IH]; intros H.
  - exists []. split; [reflexivity | constructor].
  - destruct IH as (es & E & V).
    { intros f st Hin. apply H. right. exact Hin. }
    cbn [entries_bytes]. destruct (accepted fs n) as [st|] eqn:A.
    + exists (entry_bytes n st :: es). split; [simpl; rewrite E; reflexivity|].
      constructor; [|exact V].
      apply entry_bytes_valid, (H n st (or_introl eq_refl) A).
    + exists es. split; assumption.
Qed.

Lemma entries_bytes_app (fs : filesystem) (a b : list (list byte)) :
  entries_bytes fs (a ++ b) = entries_bytes fs a ++ entries_bytes fs b.
Proof.
  induction a as [|n a IH]; [reflexivity|].
  cbn [app entries_bytes]. destruct (accepted fs n); rewrite IH;
    [rewrite <- app_assoc|]; reflexivity.
Qed.

(** X12: creating an archive from some files and then appending others
    gives, byte for byte, the archive that creating from all of them at
    once gives (the files of the first run smaller than 8^11 bytes, so
    that the scan finds their sizes in the headers). *)
Theorem X12_append_after_create_is_create (w : world)
    (prog arch n m : list byte) (names more : list (list byte)) :
  creatable w arch = true ->
  (forall filename st,
     In filename (n :: names) -> accepted (sources w) filename = Some st ->
     zlen (st_data st) < 8 ^ 11) ->
  exists d e1 e2 e3 all,
    main w (prog :: lit "-cf" :: arch :: n :: names)
    = Some (0, mkOutcome Returned (Some d) [] e1 [])
    /\ main (mkWorld (sources w) (Some d) (creatable w))
            (prog :: lit "-rf" :: arch :: m :: more)
       = Some (0, mkOutcome Returned (Some all) [] e2 [])
    /\ main w (prog :: lit "-cf" :: arch :: (n :: names) ++ m :: more)
       = Some (0, mkOutcome Returned (Some all) [] e3 []).
Proof.
  intros Hc Hs.
  destruct (mode_create_spec w (prog :: lit "-cf" :: arch :: n :: names) Hc)
    as (e1 & E1).
  destruct (mode_create_spec w
              (prog :: lit "-cf" :: arch :: (n :: names) ++ m :: more) Hc)
    as (e3 & E3).
  change (skipn 3 (prog :: lit "-cf" :: arch :: n :: names))
    with (n :: names) in E1.
  change (skipn 3 (prog :: lit "-cf" :: arch :: (n :: names) ++ m :: more))
    with ((n :: names) ++ m :: more) in E3.
  destruct (created_entries_valid (sources w) (n :: names) Hs)
    as (entries & Ee & V).
  destruct (append_over_terminator
              (mkWorld (sources w)
                 (Some (entries_bytes (sources w) (n :: names) ++ terminator))
                 (creatable w))
              (prog :: lit "-rf" :: arch :: m :: more) entries [] V)
    as (_ & e2 & E2).
  { cbn [archive_file]. rewrite Ee, app_nil_r. reflexivity. }
  cbn [sources] in E2.
  change (skipn 3 (prog :: lit "-rf" :: arch :: m :: more))
    with (m :: more) in E2.
  rewrite skipn_nil, app_nil_r in E2.
  exists (entries_bytes (sources w) (n :: names) ++ terminator), e1, e2, e3,
    (entries_bytes (sources w) ((n :: names) ++ m :: more) ++ terminator).
  split; [|split].
  - rewrite main_create, E1. reflexivity.
  - rewrite main_append, E2. cbn [exit_status ctl].
    rewrite entries_bytes_app, <- Ee, <- !app_assoc. reflexivity.
  - change (prog :: lit "-cf" :: arch :: (n :: names) ++ m :: more)
      with (prog :: lit "-cf" :: arch :: n :: (names ++ m :: more)).
    rewrite main_create.
    change (n :: names ++ m :: more) with ((n :: names) ++ m :: more).
    rewrite E3. reflexivity.
Qed.

(* ------------------------------------------------------------------ *)
(** ** The readers over whole entries *)

Lemma storable_tail (fs : filesystem) (filename : list byte)
    (names : list (list byte)) :
  storable fs (filename :: names) -> storable fs names.
Proof. intros H f st Hin. apply H. right. exact Hin. Qed.

Lemma is_valid_tar_header_firstn (block : list byte) :
  is_valid_tar_header (firstn 512 block) = is_valid_tar_header block.
Proof.
  unfold is_valid_tar_header.
  change (firstn 5 (skipn 257 (firstn 512 block)))
    with (field 257 5 (firstn 512 block)).
  rewrite field_firstn by lia. reflexivity.
Qed.

(** Reading the block a tail of at least 512 bytes starts with. *)
Lemma fread_first_block (rec pre tail : list byte) :
  (512 <= length tail)%nat -> length rec = 512%nat ->
  fread rec (mid_stream pre tail)
  = (512, firstn 512 tail, mkFILE (pre ++ tail) (zlen pre + 512)).
Proof.
  intros Ht Hr. rewrite <- (firstn_skipn 512 tail) at 1 3.
  apply fread_block; [apply firstn_length_le, Ht | exact Hr].
Qed.

Section Readers.

Variable fs : filesystem.
Variable can_create : list byte -> bool.

Lemma list_over_entries (names : list (list byte)) :
  forall (pre rec tail : list byte) (o e : list message),
  storable fs names ->
  length rec = 512%nat ->
  exists rec',
    length rec' = 512%nat
    /\ forall fuel,
         list_loop (length (accepted_files fs names) + fuel) rec
           (mid_stream pre (entries_bytes fs names ++ tail)) o e
         = list_loop fuel rec'
             (mid_stream (pre ++ entries_bytes fs names) tail)
             (o ++ accepted_lines fs names) e.
Proof.
  induction names as [|filename names IH]; intros pre rec tail o e Hok Hr.
  - exists rec. split; [assumption|]. intros fuel.
    cbn [entries_bytes accepted_files accepted_lines length Nat.add].
    rewrite !app_nil_r, app_nil_l. reflexivity.
  - cbn [entries_bytes accepted_files accepted_lines].
    destruct (accepted fs filename) as [st|] eqn:A.
    2:{ apply IH; [eapply storable_tail; eassumption | assumption]. }
    destruct (Hok filename st (or_introl eq_refl) A) as (Hn & Hs).
    pose proof (zlen_nonneg (st_data st)) as Hs0.
    set (h := tar_header filename (zlen (st_data st)) (st_mtime st)).
    assert (Lh : length h = 512%nat) by apply tar_header_length.
    assert (Ee : is_block_empty h = false) by apply tar_header_not_empty.
    assert (Ev : is_valid_tar_header h = true) by apply tar_header_valid.
    assert (En : entry_name h = filename)
      by (apply tar_header_name; assumption).
    assert (Es : octal_to_long (skipn 124 h) 12 = zlen (st_data st))
      by (apply tar_header_size; lia).
    destruct (IH (pre ++ h ++ pad512 (st_data st)) h tail
                (o ++ [Printed (filename ++ lit " ("
                                  ++ dec (zlen (st_data st)) ++ lit " bytes)")])
                e (storable_tail _ _ _ Hok) Lh) as (rec' & L & E).
    exists rec'. split; [assumption|]. intros fuel.
    unfold entry_bytes. fold h. rewrite <- !app_assoc.
    cbn [length Nat.add list_loop]. rewrite fread_block by assumption.
    change (512 =? RECORD_SIZE) with true. cbv iota.
    rewrite Ee, Ev. cbn [negb]. rewrite En, Es.
    rewrite padded_size_eq, <- pad512_length by lia.
    pose proof (zlen_nonneg pre).
    pose proof (zlen_nonneg (pad512 (st_data st))).
    rewrite fseek_cur_forward by (cbn [f_pos]; lia). cbn [f_data f_pos].
    replace (mkFILE (pre ++ h ++ pad512 (st_data st)
                       ++ entries_bytes fs names ++ tail)
                    (zlen pre + 512 + zlen (pad512 (st_data st))))
      with (mid_stream (pre ++ h ++ pad512 (st_data st))
              (entries_bytes fs names ++ tail))
      by (rewrite <- !app_assoc, !zlen_app; f_equal;
          change (zlen h) with (Z.of_nat (length h)); rewrite Lh; lia).
    rewrite E, <- !app_assoc. reflexivity.
Qed.


(** How the loops end: at the end of the file, at an empty block, at a
    block without magic. *)
Lemma list_loop_at_end (rec pre tail : list byte) (o e : list message)
    (fuel : nat) :
  (length tail < 512)%nat \/ is_block_empty tail = true ->
  length rec = 512%nat ->
  list_loop (S fuel) rec (mid_stream pre tail) o e = Some (o, e).
Proof.
  intros Ht Hr. cbn [list_loop].
  destruct (Nat.lt_ge_cases (length tail) 512) as [Hs|Hl].
  - rewrite fread_tail by assumption.
    replace (zlen tail =? RECORD_SIZE) with false; [reflexivity|].
    symmetry. apply Z.eqb_neq. unfold zlen, RECORD_SIZE. lia.
  - destruct Ht as [Ht|Ht]; [lia|].
    rewrite fread_first_block by assumption.
    change (512 =? RECORD_SIZE) with true. cbv iota.
    rewrite is_block_empty_firstn, Ht. reflexivity.
Qed.

Lemma list_loop_at_garbage (rec pre tail : list byte) (o e : list message)
    (fuel : nat) :
  (512 <= length tail)%nat ->
  is_block_empty tail = false -> is_valid_tar_header tail = false ->
  length rec = 512%nat ->
  list_loop (S fuel) rec (mid_stream pre tail) o e
  = Some (o, e ++ [invalid_format]).
Proof.
  intros Hl He Hv Hr. cbn [list_loop].
  rewrite fread_first_block by assumption.
  change (512 =? RECORD_SIZE) with true. cbv iota.
  rewrite is_block_empty_firstn, He, is_valid_tar_header_firstn, Hv.
  reflexivity.
Qed.



End Readers.

(* ------------------------------------------------------------------ *)
(** ** Listing and extracting archives of written entries *)

Lemma reader_fuel (fs : filesystem) (names : list (list byte))
    (tail : list byte) :
  S (length (entries_bytes fs names ++ tail))
  = (length (accepted_files fs names)
     + S (length (entries_bytes fs names ++ tail)
          - length (accepted_files fs names)))%nat.
Proof.
  pose proof (accepted_files_count fs names). rewrite length_app. lia.
Qed.

Lemma mode_list_entries (w : world) (fs : filesystem)
    (names : list (list byte)) (tail : list byte) (e : list message) :
  storable fs names ->
  archive_file w = Some (entries_bytes fs names ++ tail) ->
  (forall rec fuel o, length rec = 512%nat ->
     list_loop (S fuel) rec (mid_stream (entries_bytes fs names) tail) o []
     = Some (o, e)) ->
  mode_list record0 w
  = Some (mkOutcome Returned (Some (entries_bytes fs names ++ tail))
            (accepted_lines fs names) e []).
Proof.
  intros Hok Ha Hend. unfold mode_list. rewrite Ha.
  destruct (list_over_entries fs names [] record0 tail [] [] Hok
              ltac:(apply repeat_length)) as (rec' & L & E).
  rewrite app_nil_l in E. change (zlen (@nil byte)) with 0 in E.
  rewrite reader_fuel, E, app_nil_l, (Hend _ _ _ L). reflexivity.
Qed.

(** X13: listing an archive made of written entries prints name and
    size of every entry, in order, up to the end of the file or the
    first all-zero block, whichever comes first; one empty block is
    enough to end the listing, and nothing behind it is looked at.  The
    run exits with status 0 and nothing on [stderr]. *)
Theorem X13_list_stops_at_first_empty_block (w : world) (fs : filesystem)
    (names : list (list byte)) (tail prog arch : list byte) :
  storable fs names ->
  archive_file w = Some (entries_bytes fs names ++ tail) ->
  (length tail < 512)%nat \/ is_block_empty tail = true ->
  main w [prog; lit "-tf"; arch]
  = Some (0, mkOutcome Returned (Some (entries_bytes fs names ++ tail))
               (accepted_lines fs names) [] []).
Proof.
  intros Hok Ha Ht. rewrite main_list.
  rewrite (mode_list_entries w fs names tail [] Hok Ha); [reflexivity|].
  intros rec fuel o Hr. apply list_loop_at_end; assumption.
Qed.

Lemma X13_list_stops_at_first_empty_block_witness :
  let tail := repeat x00 512 ++ entry_bytes (lit "b") (mkInode true 0 []) in
  let d := entries_bytes sample_sources [lit "a"] ++ tail in
  storable sample_sources [lit "a"]
  /\ is_block_empty tail = true
  /\ main (sample_world (Some d)) [lit "tinytar"; lit "-tf"; lit "t.tar"]
     = Some (0, mkOutcome Returned (Some d)
                  (accepted_lines sample_sources [lit "a"]) [] []).
Proof.
  intros tail d.
  assert (S : storable sample_sources [lit "a"]).
  { intros filename st [<-|[]] Hst. injection Hst as <-.
    split; reflexivity. }
  assert (T : is_block_empty tail = true) by (vm_compute; reflexivity).
  split; [exact S|]. split; [exact T|].
  exact (X13_list_stops_at_first_empty_block (sample_world (Some d))
           sample_sources [lit "a"] tail (lit "tinytar") (lit "t.tar")
           S eq_refl (or_intror T)).
Defined.

(** X14: when the block behind the written entries is neither empty nor
    a header, the listing prints the entries in front of it, reports the
    missing magic once on [stderr] and stops there: it never skips ahead
    to look for a later header.  The exit status is still 0. *)
Theorem X14_list_stops_at_invalid_magic (w : world) (fs : filesystem)
    (names : list (list byte)) (tail prog arch : list byte) :
  storable fs names ->
  archive_file w = Some (entries_bytes fs names ++ tail) ->
  (512 <= length tail)%nat ->
  is_block_empty tail = false ->
  is_valid_tar_header tail = false ->
  main w [prog; lit "-tf"; arch]
  = Some (0, mkOutcome Returned (Some (entries_bytes fs names ++ tail))
               (accepted_lines fs names) [invalid_format] []).
Proof.
  intros Hok Ha Hl He Hv. rewrite main_list.
  rewrite (mode_list_entries w fs names tail [invalid_format] Hok Ha);
    [reflexivity|].
  intros rec fuel o Hr. apply list_loop_at_garbage; assumption.
Qed.

Lemma X14_list_stops_at_invalid_magic_witness :
  let tail := garbage_block ++ entry_bytes (lit "b") (mkInode true 0 []) in
  let d := entries_bytes sample_sources [lit "a"] ++ tail in
  storable sample_sources [lit "a"]
  /\ main (sample_world (Some d)) [lit "tinytar"; lit "-tf"; lit "t.tar"]
     = Some (0, mkOutcome Returned (Some d)
                  (accepted_lines sample_sources [lit "a"])
                  [invalid_format] []).
Proof.
  intros tail d.
  assert (S : storable sample_sources [lit "a"]).
  { intros filename st [<-|[]] Hst. injection Hst as <-.
    split; reflexivity. }
  split; [exact S|].
  apply (X14_list_stops_at_invalid_magic (sample_world (Some d))
           sample_sources [lit "a"] tail (lit "tinytar") (lit "t.tar") S eq_refl).
  - vm_compute. lia.
  - vm_compute. reflexivity.
  - vm_compute. reflexivity.
Defined.






(* ------------------------------------------------------------------ *)
(** ** The readers on arbitrary files *)

Lemma padded_size_header_nonneg (rec : list byte) :
  0 <= padded_size (octal_to_long (skipn 124 rec) 12).
Proof. apply (scan_skip_facts rec). Qed.

Lemma list_loop_total (fuel : nat) :
  forall (rec : list byte) (fp : FILE) (o e : list message),
  0 <= f_pos fp ->
  Z.max 0 (zlen (f_data fp) - f_pos fp) < Z.of_nat fuel ->
  exists r, list_loop fuel rec fp o e = Some r.
Proof.
  induction fuel as [|fuel IH]; intros rec fp o e Hp Hf; [lia|].
  cbn [list_loop].
  pose proof (fread_count rec fp Hp) as C.
  destruct (fread rec fp) as [[n rec1] fp1]. destruct C as (Hn & Hd & Hp1).
  unfold RECORD_SIZE. destruct (Z.eqb_spec n 512) as [Hn512|]; [|eauto].
  destruct (is_block_empty rec1); [eauto|].
  destruct (is_valid_tar_header rec1); cbn [negb]; [|eauto].
  pose proof (padded_size_header_nonneg rec1) as Hs.
  rewrite fseek_cur_forward by lia.
  apply IH; cbn [f_pos f_data]; [lia|]. rewrite Hd. lia.
Qed.

Lemma extract_content_total (fuel : nat) :
  forall (rec : list byte) (tar : FILE) (written : list byte)
         (remaining : Z),
  0 <= f_pos tar ->
  remaining < Z.of_nat fuel ->
  exists rec' tar' written',
    extract_content fuel rec tar written remaining
    = Some (rec', tar', written')
    /\ f_data tar' = f_data tar /\ f_pos tar <= f_pos tar'.
Proof.
  induction fuel as [|fuel IH]; intros rec tar written remaining Hp Hf.
  - cbn [extract_content].
    destruct (Z.gtb_spec remaining 0); [lia|].
    exists rec, tar, written. repeat split. lia.
  - cbn [extract_content].
    destruct (Z.gtb_spec remaining 0) as [Hr|Hr].
    2:{ exists rec, tar, written. repeat split. lia. }
    pose proof (fread_count rec tar Hp) as C.
    destruct (fread rec tar) as [[n rec1] tar1]. destruct C as (Hn & Hd & Hp1).
    pose proof (zlen_nonneg (f_data tar)).
    unfold RECORD_SIZE.
    destruct (IH rec1 tar1
                (written ++ firstn (Z.to_nat (if remaining >? 512 then 512
                                              else remaining)) rec1)
                (remaining - (if remaining >? 512 then 512 else remaining)))
      as (rec' & tar' & w' & E & Hd' & Hp');
      [lia | destruct (Z.gtb_spec remaining 512); lia |].
    exists rec', tar', w'. split; [exact E|]. split; [congruence | lia].
Qed.

Lemma extract_loop_total (can_create : list byte -> bool) (fuel : nat) :
  forall (rec : list byte) (tar : FILE) (o e : list message)
         (files : list (list byte * list byte)),
  0 <= f_pos tar ->
  Z.max 0 (zlen (f_data tar) - f_pos tar) < Z.of_nat fuel ->
  exists r, extract_loop can_create fuel rec tar o e files = Some r.
Proof.
  induction fuel as [|fuel IH]; intros rec tar o e files Hp Hf; [lia|].
  cbn [extract_loop].
  pose proof (fread_count rec tar Hp) as C.
  destruct (fread rec tar) as [[n rec1] tar1]. destruct C as (Hn & Hd & Hp1).
  unfold RECORD_SIZE. destruct (Z.eqb_spec n 512) as [Hn512|]; [|eauto].
  destruct (is_block_empty rec1); [eauto|].
  destruct (is_valid_tar_header rec1); cbn [negb]; [|eauto].
  destruct (can_create (entry_name rec1)).
  - pose proof (octal_to_long_12_range (skipn 124 rec1)) as R.
    destruct (extract_content_total
                (S (Z.to_nat (octal_to_long (skipn 124 rec1) 12)))
                rec1 tar1 [] (octal_to_long (skipn 124 rec1) 12))
      as (rec' & tar' & w' & E & Hd' & Hp'); [lia | lia |].
    rewrite E. apply IH; [lia|]. rewrite Hd', Hd. lia.
  - pose proof (padded_size_header_nonneg rec1) as Hs.
    rewrite fseek_cur_forward by lia.
    apply IH; cbn [f_pos f_data]; [lia|]. rewrite Hd. lia.
Qed.

(** X17: listing and extraction come to an end on every file, whatever
    its bytes: each pass of their loops moves at least one block forward
    and a size field, being at most twelve octal digits, can neither be
    negative nor overflow.  The process exits with status 1 exactly when
    the archive cannot be opened, with 0 otherwise. *)
Theorem X17_readers_terminate (w : world) (prog tarfile : list byte) :
  let status := match archive_file w with Some _ => 0 | None => 1 end in
  (exists o, main w [prog; lit "-tf"; tarfile] = Some (status, o))
  /\ (exists o, main w [prog; lit "-xf"; tarfile] = Some (status, o)).
Proof.
  split.
  - rewrite main_list. unfold mode_list.
    destruct (archive_file w) as [d|]; [|eexists; reflexivity].
    destruct (list_loop_total (S (length d)) record0 (mkFILE d 0) [] [])
      as ([o e] & E); [cbn; lia | cbn; unfold zlen; lia |].
    rewrite E. eexists. reflexivity.
  - rewrite main_extract. unfold mode_extract.
    destruct (archive_file w) as [d|]; [|eexists; reflexivity].
    destruct (extract_loop_total (creatable w) (S (length d)) record0
                (mkFILE d 0) [] [] [])
      as ([[o e] f] & E); [cbn; lia | cbn; unfold zlen; lia |].
    rewrite E. eexists. reflexivity.
Qed.

(* ------------------------------------------------------------------ *)
(** ** The command line *)

(** X18: [main] runs no mode, prints the usage text and returns 1 when
    it gets no argument at all, when "-cf" or "-rf" come with an archive
    but no file to add, and when "-xf" comes with anything behind the
    archive; the archive is neither created, truncated nor read. *)
Theorem X18_usage_on_bad_command_line (w : world) (prog arch x : list byte)
    (xs : list (list byte)) :
  let rejected :=
    Some (1, mkOutcome Returned (archive_file w) (usage prog) [] []) in
  main w [prog] = rejected
  /\ main w [prog; lit "-cf"; arch] = rejected
  /\ main w [prog; lit "-rf"; arch] = rejected
  /\ main w (prog :: lit "-xf" :: arch :: x :: xs) = rejected.
Proof. repeat split. Qed.

(* ------------------------------------------------------------------ *)
(** ** CP/M directory names *)

Lemma entry_name_part_length (source : list byte) : forall n,
  (length (entry_name_part source n) <= n)%nat.
Proof.
  induction source as [|c source IH]; intros [|n]; simpl; try lia.
  destruct (b2z c =? b2z " "); simpl; [lia|]. specialize (IH n). lia.
Qed.

(** A C string is no longer than the bytes in front of a NUL. *)
Lemma c_str_length_le (s r : list byte) :
  (length (c_str (s ++ x00 :: r)) <= length s)%nat.
Proof.
  induction s as [|c s IH]; [simpl; lia|].
  cbn [app]. rewrite c_str_cons.
  destruct (b2z c =? 0); simpl; lia.
Qed.

(** A C string without NUL in front of the final one is all of it. *)
Lemma c_str_app_nul (s r : list byte) :
  forallb (fun c => 0 <? b2z c) s = true -> c_str (s ++ x00 :: r) = s.
Proof.
  induction s as [|c s IH]; intros H; [reflexivity|].
  cbn [forallb] in H. apply andb_true_iff in H as [Hc Hs].
  apply Z.ltb_lt in Hc.
  cbn [app]. rewrite c_str_cons, IH by assumption.
  destruct (Z.eqb_spec (b2z c) 0); [lia | reflexivity].
Qed.

(** X19: what [get_entry_name] builds from a 12-byte directory name
    takes at most 13 bytes of [tmpnam], the final NUL included (eight of
    the name, the dot, three of the extension, the NUL), so it fits the
    buffer whatever the entry holds; the string it returns has at most 12
    bytes. *)
Theorem X19_get_entry_name_fits_buffer (raw : list byte) :
  length raw = 12%nat ->
  (length (tmpnam raw) <= 13)%nat
  /\ (length (get_entry_name raw) <= 12)%nat.
Proof.
  intros _. unfold get_entry_name, tmpnam.
  pose proof (entry_name_part_length raw 8) as L.
  destruct (skipn 8 raw) as [|c source].
  - split; [rewrite length_app; simpl; lia|].
    pose proof (c_str_length_le (entry_name_part raw 8) []). lia.
  - pose proof (entry_name_part_length source 2) as L2.
    destruct (negb (b2z c =? b2z " ")).
    + replace (entry_name_part raw 8 ++ ["."%byte; c]
                 ++ entry_name_part source 2 ++ [x00])
        with ((entry_name_part raw 8 ++ ["."%byte; c]
                 ++ entry_name_part source 2) ++ [x00])
        by (rewrite <- !app_assoc; reflexivity).
      split; [rewrite !length_app; simpl length; lia|].
      etransitivity; [apply c_str_length_le|].
      rewrite !length_app. simpl length. lia.
    + split; [rewrite length_app; simpl; lia|].
      pose proof (c_str_length_le (entry_name_part raw 8) []). lia.
Qed.

Lemma X19_get_entry_name_fits_buffer_witness :
  (length (tmpnam (lit "TINYTAR COM" ++ [x00])) <= 13)%nat
  /\ (length (get_entry_name (lit "TINYTAR COM" ++ [x00])) <= 12)%nat.
Proof.
  apply (X19_get_entry_name_fits_buffer (lit "TINYTAR COM" ++ [x00])).
  reflexivity.
Defined.

Lemma z2b_b2z (c : byte) : z2b (b2z c) = c.
Proof.
  apply b2z_inj. apply b2z_z2b. pose proof (b2z_range c). lia.
Qed.

Lemma land_127_small (z : Z) : 0 <= z < 128 -> Z.land z 127 = z.
Proof.
  intros H. change 127 with (Z.ones 7). rewrite Z.land_ones by lia.
  apply Z.mod_small. simpl. lia.
Qed.

Lemma plain_char_spec (c : byte) :
  plain_char c = true <-> b2z c <> 32 /\ 0 < b2z c < 128.
Proof.
  unfold plain_char. change (b2z " ") with 32.
  rewrite !andb_true_iff, negb_true_iff, Z.eqb_neq, !Z.ltb_lt. tauto.
Qed.

Lemma plain_chars_not_nul (s : list byte) :
  forallb plain_char s = true -> forallb (fun c => 0 <? b2z c) s = true.
Proof.
  induction s as [|c s IH]; [reflexivity|].
  cbn [forallb]. rewrite !andb_true_iff. intros [Hc Hs].
  apply plain_char_spec in Hc. split; [apply Z.ltb_lt; lia | auto].
Qed.

Lemma entry_name_part_plain (s : list byte) : forall (rest : list byte)
    (n : nat),
  forallb plain_char s = true ->
  (length s <= n)%nat ->
  (length s = n \/ exists r, rest = " "%byte :: r) ->
  entry_name_part (s ++ rest) n = s.
Proof.
  induction s as [|c s IH]; intros rest n Hs Hl Hend.
  - destruct n; [destruct rest; reflexivity|].
    destruct Hend as [H|[r ->]]; [discriminate|]. reflexivity.
  - destruct n as [|n]; [simpl in Hl; lia|].
    simpl in Hs. apply andb_true_iff in Hs as [Hc Hs].
    apply plain_char_spec in Hc. destruct Hc as [Hc1 Hc2].
    simpl. change (b2z " ") with 32.
    destruct (Z.eqb_spec (b2z c) 32) as [|_]; [lia|].
    rewrite land_127_small, z2b_b2z by lia.
    rewrite IH; [reflexivity | assumption | simpl in Hl; lia |].
    destruct Hend as [H'|H']; [left; simpl in H'; lia | right; exact H'].
Qed.

(** X20: for a directory entry that holds a name of up to 8 and an
    extension of up to 3 seven-bit characters other than NUL and space,
    each padded with spaces to its full width, [get_entry_name] returns
    name, dot, extension without the padding; with an all-space extension
    it returns the name alone. *)
Theorem X20_get_entry_name_formats_8_3 (name ext rest : list byte) :
  forallb plain_char name = true -> (length name <= 8)%nat ->
  forallb plain_char ext = true -> (length ext <= 3)%nat ->
  get_entry_name (name ++ repeat " "%byte (8 - length name)
                    ++ ext ++ repeat " "%byte (3 - length ext) ++ rest)
  = match ext with
    | [] => name
    | _ :: _ => name ++ "."%byte :: ext
    end.
Proof.
  intros Hn Ln He Le. unfold get_entry_name, tmpnam.
  set (tail := ext ++ repeat " "%byte (3 - length ext) ++ rest).
  assert (P : entry_name_part
                (name ++ repeat " "%byte (8 - length name) ++ tail) 8 = name).
  { apply entry_name_part_plain; [assumption | assumption |].
    destruct (Nat.eq_dec (length name) 8) as [E|E]; [left; exact E|].
    right. destruct (8 - length name)%nat eqn:D; [lia|].
    simpl. eauto. }
  rewrite P.
  rewrite app_assoc, skipn_app_exact
    by (rewrite length_app, repeat_length; lia).
  unfold tail. destruct ext as [|c ext].
  - assert (N : c_str (name ++ [x00]) = name)
      by (apply c_str_app_nul, plain_chars_not_nul, Hn).
    cbn [app length]. destruct (repeat " "%byte (3 - 0) ++ rest) eqn:R;
      [exact N|].
    change (3 - 0)%nat with 3%nat in R. cbn [repeat app] in R.
    injection R as <- _. change (negb (b2z " " =? b2z " ")) with false.
    cbv iota. exact N.
  - pose proof He as He'.
    simpl in He. apply andb_true_iff in He as [Hc He].
    apply plain_char_spec in Hc. destruct Hc as [Hc1 Hc2].
    cbn [app]. change (b2z " ") with 32.
    destruct (Z.eqb_spec (b2z c) 32) as [|_]; [lia|]. cbn [negb].
    rewrite entry_name_part_plain; [| assumption | simpl in Le; lia |].
    + assert (N : c_str ((name ++ "."%byte :: c :: ext) ++ [x00])
                  = name ++ "."%byte :: c :: ext).
      { apply c_str_app_nul.
        rewrite forallb_app. rewrite (plain_chars_not_nul name Hn).
        cbn [forallb andb]. change (0 <? b2z ".") with true. cbn [andb].
        exact (plain_chars_not_nul (c :: ext) He'). }
      rewrite <- app_assoc in N. exact N.
    + destruct (Nat.eq_dec (length ext) 2) as [E|E]; [left; exact E|].
      right. simpl length. destruct (3 - S (length ext))%nat eqn:D;
        [simpl in Le; lia|].
      simpl. eauto.
Qed.

Lemma X20_get_entry_name_formats_8_3_witness :
  get_entry_name (lit "TAR" ++ repeat " "%byte (8 - 3)
                    ++ lit "C" ++ repeat " "%byte (3 - 1) ++ [x00])
  = lit "TAR" ++ "."%byte :: lit "C".
Proof.
  apply (X20_get_entry_name_formats_8_3 (lit "TAR") (lit "C") [x00]);
    try reflexivity; simpl; lia.
Defined.

Lemma X12_append_after_create_is_create_witness :
  exists d e1 e2 e3 all,
    main (sample_world None)
      (lit "tinytar" :: lit "-cf" :: lit "t.tar" :: lit "a" :: [])
    = Some (0, mkOutcome Returned (Some d) [] e1 [])
    /\ main (sample_world (Some d))
            (lit "tinytar" :: lit "-rf" :: lit "t.tar" :: lit "b" :: [])
       = Some (0, mkOutcome Returned (Some all) [] e2 [])
    /\ main (sample_world None)
         (lit "tinytar" :: lit "-cf" :: lit "t.tar"
            :: (lit "a" :: []) ++ lit "b" :: [])
       = Some (0, mkOutcome Returned (Some all) [] e3 []).
Proof.
  apply (X12_append_after_create_is_create (sample_world None)
           (lit "tinytar") (lit "t.tar") (lit "a") (lit "b") [] []).
  - reflexivity.
  - intros filename st [<-|[]] Hst. injection Hst as <-. reflexivity.
Defined.

(* ------------------------------------------------------------------ *)
(** ** Revision 20250502 on archives of revision 20250512 *)

Lemma octal_value_ge (ds : list byte) : forall v,
  0 <= v -> Forall (fun c => is_octal_digit c = true) ds ->
  v <= octal_value v ds.
Proof.
  induction ds as [|c ds IH]; intros v Hv Hds; [simpl; lia|].
  inversion Hds as [|? ? Hc Hds']; subst.
  apply is_octal_digit_spec in Hc.
  change (octal_value v (c :: ds)) with (octal_value (v * 8 + (b2z c - 48)) ds).
  specialize (IH (v * 8 + (b2z c - 48)) ltac:(lia) Hds'). lia.
Qed.

(** The [int32_t] decoder is exact whenever the value of the digits it
    reads fits [int32_t], however many leading zeros there are. *)
Lemma octal_to_int32_from_exact (str : list byte) : forall len v,
  0 <= v ->
  octal_value v (filter is_octal_digit (firstn len (c_str str))) < 2 ^ 31 ->
  Legacy.octal_to_int32_from v str len
  = octal_value v (filter is_octal_digit (firstn len (c_str str))).
Proof.
  induction str as [|c str IH]; intros [|len] v Hv Hb; try reflexivity.
  - rewrite octal_to_int32_from_cons. rewrite c_str_cons in *.
    destruct (b2z c =? 0) eqn:Hz; [reflexivity|].
    simpl firstn in *. simpl filter in *.
    destruct (is_octal_digit c) eqn:Hc.
    + apply is_octal_digit_spec in Hc.
      change (octal_value v (c :: ?l))
        with (octal_value (v * 8 + (b2z c - 48)) l) in *.
      pose proof (octal_value_ge
                    (filter is_octal_digit (firstn len (c_str str)))
                    (v * 8 + (b2z c - 48)) ltac:(lia)
                    (Forall_filter_true _ _ _)) as G.
      rewrite Z.shiftl_mul_pow2 by lia. change (2 ^ 3) with 8.
      change (b2z "0") with 48.
      rewrite wrap_int32_small by lia.
      apply IH; [lia | assumption].
    + apply IH; assumption.
Qed.

Lemma c_str_digits (ds rest : list byte) :
  Forall (fun c => is_octal_digit c = true) ds ->
  c_str (ds ++ x00 :: rest) = ds.
Proof.
  induction 1 as [|c ds Hc _ IH]; [reflexivity|].
  cbn [app]. rewrite c_str_cons, IH.
  apply is_octal_digit_spec in Hc.
  destruct (Z.eqb_spec (b2z c) 0); [lia | reflexivity].
Qed.

Lemma land_block_mask_eq (x : Z) :
  0 <= x < 2 ^ 32 ->
  Z.land x (wrap_uint32 (- RECORD_SIZE)) = x / 512 * 512.
Proof.
  intros Hx. change (wrap_uint32 (- RECORD_SIZE)) with 4294966784.
  change 4294966784 with (Z.ldiff (Z.ones 32) (Z.ones 9)).
  assert (E : Z.land x (Z.ldiff (Z.ones 32) (Z.ones 9))
              = Z.ldiff (Z.land x (Z.ones 32)) (Z.ones 9)).
  { apply Z.bits_inj'. intros n Hn.
    rewrite Z.land_spec, !Z.ldiff_spec, Z.land_spec. apply andb_assoc. }
  rewrite E, Z.land_ones, Z.mod_small, Z.ldiff_ones_r by lia.
  rewrite Z.shiftr_div_pow2, Z.shiftl_mul_pow2 by lia. reflexivity.
Qed.

Lemma field_unfold (off n : nat) (buf : list byte) :
  firstn n (skipn off buf) = field off n buf.
Proof. reflexivity. Qed.

(** What a written header holds from the size field on. *)
Lemma tar_header_from_size (filename : list byte) (filesize mtime : Z) :
  0 <= filesize < 8 ^ 11 ->
  skipn 124 (tar_header filename filesize mtime)
  = oct_digits 11 filesize
      ++ x00 :: skipn 136 (tar_header filename filesize mtime).
Proof.
  intros Hs.
  pose proof (tar_header_size_field filename filesize mtime) as F.
  remember (tar_header filename filesize mtime) as h eqn:Hh. clear Hh.
  rewrite <- (firstn_skipn 12 (skipn 124 h)) at 1.
  rewrite (field_unfold 124 12 h), F.
  rewrite long_to_octal_small by (simpl; lia).
  rewrite skipn_skipn, <- app_assoc. reflexivity.
Qed.

Lemma legacy_header_size (filename : list byte) (filesize mtime : Z) :
  0 <= filesize < 2 ^ 31 ->
  Legacy.octal_to_int32 (skipn 124 (tar_header filename filesize mtime)) 12
  = filesize.
Proof.
  intros Hs.
  rewrite tar_header_from_size by lia.
  remember (skipn 136 (tar_header filename filesize mtime)) as rest eqn:Hr.
  clear Hr.
  assert (E : filter is_octal_digit
                (firstn 12 (c_str (oct_digits 11 filesize ++ x00 :: rest)))
              = oct_digits 11 filesize).
  { rewrite c_str_digits by apply oct_digits_all_octal.
    rewrite firstn_all2 by (rewrite oct_digits_length; lia).
    apply filter_all_true, oct_digits_all_octal. }
  assert (V : octal_value 0 (oct_digits 11 filesize) = filesize).
  { rewrite octal_value_oct_digits by lia.
    rewrite Z.mod_small by (simpl; lia). lia. }
  unfold Legacy.octal_to_int32.
  rewrite octal_to_int32_from_exact;
    [rewrite E; exact V | lia | rewrite E, V; lia].
Qed.

(** X21: over a header written by revision 20250512 for a size below
    2^31, the scan of revision 20250502, with its [int32_t] decoder and
    its masked [uint32_t] padding, takes the same step as the scan of
    revision 20250512: it keeps the block and skips the content rounded
    up to whole blocks. *)
Theorem X21_old_scan_steps_over_new_headers (filename : list byte)
    (filesize mtime : Z) (fp : FILE) :
  0 <= filesize < 2 ^ 31 ->
  let header := tar_header filename filesize mtime in
  Legacy.scan_header header fp
  = Continue header (fseek_cur fp (padded_length filesize))
  /\ scan_header header fp
     = Continue header (fseek_cur fp (padded_length filesize)).
Proof.
  intros Hs. cbv zeta.
  pose proof (legacy_header_size filename filesize mtime Hs) as D.
  pose proof (tar_header_size filename filesize mtime ltac:(lia)) as D'.
  pose proof (tar_header_valid filename filesize mtime) as V.
  remember (tar_header filename filesize mtime) as header eqn:Hh. clear Hh.
  split.
  - unfold Legacy.scan_header. rewrite V, D. cbn [negb].
    unfold wrap_uint32 at 2. rewrite (Z.mod_small filesize) by lia.
    unfold wrap_uint32 at 1, RECORD_SIZE at 1.
    rewrite (Z.mod_small (filesize + 512 - 1)) by lia.
    rewrite land_block_mask_eq by lia.
    unfold padded_length. do 4 f_equal. lia.
  - unfold scan_header. rewrite V, D'. cbn [negb].
    rewrite padded_size_eq by lia. reflexivity.
Qed.

Lemma X21_old_scan_steps_over_new_headers_witness :
  Legacy.scan_header (tar_header (lit "a") 3 0) (mkFILE [] 0)
  = Continue (tar_header (lit "a") 3 0)
      (fseek_cur (mkFILE [] 0) (padded_length 3))
  /\ scan_header (tar_header (lit "a") 3 0) (mkFILE [] 0)
     = Continue (tar_header (lit "a") 3 0)
         (fseek_cur (mkFILE [] 0) (padded_length 3)).
Proof.
  apply (X21_old_scan_steps_over_new_headers (lit "a") 3 0 (mkFILE [] 0)).
  lia.
Defined.

(* ------------------------------------------------------------------ *)
(** ** Appending to any file *)

(** A write behind the end of the file is a write to the file extended
    with zeros up to the position. *)
Lemma fwrite_gap (buf d : list byte) (p : Z) :
  fwrite buf (mkFILE d p)
  = fwrite buf (mkFILE (d ++ repeat x00 (Z.to_nat p - length d)) p).
Proof.
  unfold fwrite. cbn [f_pos f_data]. f_equal.
  destruct (Nat.le_gt_cases (Z.to_nat p) (length d)) as [H|H].
  - assert (Z0 : (Z.to_nat p - length d = 0)%nat) by lia.
    rewrite Z0. simpl repeat. rewrite app_nil_r, Z0. reflexivity.
  - rewrite length_app, repeat_length.
    replace (Z.to_nat p - (length d + (Z.to_nat p - length d)))%nat
      with 0%nat by lia.
    rewrite (firstn_all2 d) by lia.
    rewrite (firstn_all2 (d ++ _))
      by (rewrite length_app, repeat_length; lia).
    rewrite (skipn_all2 d) by lia.
    rewrite (skipn_all2 (d ++ _))
      by (rewrite length_app, repeat_length; lia).
    simpl repeat. rewrite <- !app_assoc. reflexivity.
Qed.

Lemma write_files_gap (fs : filesystem) (d : list byte) (p : Z)
    (names : list (list byte)) :
  forall (rec : list byte) (e : list message),
  option_map write_terminator
    (write_files fs names (mkWriter rec (mkFILE d p) e))
  = option_map write_terminator
      (write_files fs names
         (mkWriter rec
            (mkFILE (d ++ repeat x00 (Z.to_nat p - length d)) p) e)).
Proof.
  induction names as [|filename names IH]; intros rec e.
  - cbn [write_files option_map]. unfold write_terminator.
    cbn [w_tar w_err]. rewrite fwrite_gap. reflexivity.
  - cbn [write_files]. unfold write_file. cbn [w_record w_tar w_err].
    destruct (fs filename) as [st|]; [|apply IH].
    destruct (st_reg st); cbn [negb]; [|apply IH].
    unfold write_tar_header. rewrite fwrite_gap. reflexivity.
Qed.

(** X22: an append run on any archive file ends.  When the scan reports
    corruption the process exits with status 1 and the file is as it
    was.  Otherwise, with [r] the insertion point the scan returned, the
    file keeps its first [r] bytes (filled up with zeros if [r] lies
    behind its end), the entries of the accepted files and a terminator
    follow from offset [r] on, and whatever the file held behind them is
    still there. *)
Theorem X22_append_rewrites_from_insertion_point (w : world)
    (prog tarfile n : list byte) (names : list (list byte))
    (d : list byte) :
  archive_file w = Some d ->
  let argv := prog :: lit "-rf" :: tarfile :: n :: names in
  exists r,
    find_append_position record0 (mkFILE d 0) = Some r
    /\ (r < 0 ->
        main w argv
        = Some (1, mkOutcome (Exited 1) (Some d) []
                     [Printed (lit "Invalid or corrupt TAR archive")] []))
    /\ (0 <= r ->
        let old := d ++ repeat x00 (Z.to_nat r - length d) in
        let new := entries_bytes (sources w) (n :: names) in
        exists e,
          main w argv
          = Some (0, mkOutcome Returned
                       (Some (firstn (Z.to_nat r) old ++ new ++ terminator
                                ++ skipn (Z.to_nat r + length new + 1024)
                                     old))
                       [] e [])).
Proof.
  intros Ha argv.
  destruct (find_append_position_total record0 d) as (r & F).
  exists r. split; [exact F|].
  unfold argv. rewrite main_append. unfold mode_create_append.
  rewrite Ha, F. split; intros Hr.
  - destruct (Z.ltb_spec r 0); [reflexivity | lia].
  - destruct (Z.ltb_spec r 0) as [|_]; [lia|].
    cbv zeta. unfold fseek_set.
    destruct (Z.ltb_spec r 0) as [|_]; [lia|]. cbn [f_data skipn].
    set (old := d ++ repeat x00 (Z.to_nat r - length d)).
    set (new := entries_bytes (sources w) (n :: names)).
    pose proof (write_files_gap (sources w) d r (n :: names) record0 [])
      as G.
    fold old in G.
    assert (L : length (firstn (Z.to_nat r) old) = Z.to_nat r).
    { apply firstn_length_le. unfold old.
      rewrite length_app, repeat_length. lia. }
    assert (S : mkFILE old r
                = mid_stream (firstn (Z.to_nat r) old)
                    (skipn (Z.to_nat r) old)).
    { rewrite firstn_skipn. unfold zlen. rewrite L. f_equal. lia. }
    rewrite S in G.
    destruct (write_archive_over (sources w) (n :: names) record0
                (firstn (Z.to_nat r) old) (skipn (Z.to_nat r) old)
                ltac:(apply repeat_length)) as (wr & E & D).
    rewrite E in G. fold new in D.
    destruct (write_files (sources w) (n :: names)
                (mkWriter record0 (mkFILE d r) [])) as [wr0|];
      [|discriminate].
    cbn [option_map] in G.
    assert (G' : write_terminator wr0 = write_terminator wr) by congruence.
    cbv zeta. rewrite G', D.
    rewrite skipn_skipn.
    replace (length new + 1024 + Z.to_nat r)%nat
      with (Z.to_nat r + length new + 1024)%nat by lia.
    eexists. reflexivity.
Qed.

Lemma X22_append_rewrites_from_insertion_point_witness :
  exists r,
    find_append_position record0 (mkFILE garbage_block 0) = Some r
    /\ (r < 0 ->
        main (sample_world (Some garbage_block))
          (lit "tinytar" :: lit "-rf" :: lit "t.tar" :: lit "a" :: [])
        = Some (1, mkOutcome (Exited 1) (Some garbage_block) []
                     [Printed (lit "Invalid or corrupt TAR archive")] []))
    /\ (0 <= r ->
        let old := garbage_block
                     ++ repeat x00 (Z.to_nat r - length garbage_block) in
        let new := entries_bytes (sources (sample_world (Some garbage_block)))
                     (lit "a" :: []) in
        exists e,
          main (sample_world (Some garbage_block))
            (lit "tinytar" :: lit "-rf" :: lit "t.tar" :: lit "a" :: [])
          = Some (0, mkOutcome Returned
                       (Some (firstn (Z.to_nat r) old ++ new ++ terminator
                                ++ skipn (Z.to_nat r + length new + 1024)
                                     old))
                       [] e [])).
Proof.
  exact (X22_append_rewrites_from_insertion_point
           (sample_world (Some garbage_block))
           (lit "tinytar") (lit "t.tar") (lit "a") [] garbage_block
           eq_refl).
Defined.

(* ------------------------------------------------------------------ *)
(** ** Creating an archive *)

(** X23: a create run always ends.  If the archive cannot be opened for
    writing the process exits with status 1 and whatever file was there
    is left alone; otherwise the new archive is exactly the entries of
    the accepted files, in command-line order, and the terminator,
    whatever the old file held. *)
Theorem X23_create_writes_entries_and_terminator (w : world)
    (prog tarfile n : list byte) (names : list (list byte)) :
  let argv := prog :: lit "-cf" :: tarfile :: n :: names in
  if creatable w tarfile then
    exists e,
      main w argv
      = Some (0, mkOutcome Returned
                   (Some (entries_bytes (sources w) (n :: names)
                            ++ terminator))
                   [] e [])
  else
    main w argv
    = Some (1, mkOutcome (Exited 1) (archive_file w) []
                 [PError (lit "Cannot create archive")] []).
Proof.
  intros argv. unfold argv. rewrite main_create.
  destruct (creatable w tarfile) eqn:Hc.
  - destruct (mode_create_spec w (prog :: lit "-cf" :: tarfile :: n :: names)
                Hc) as (e & E).
    rewrite E. exists e. reflexivity.
  - unfold mode_create_append. cbn [nth]. rewrite Hc. reflexivity.
Qed.
